(** * RotorSE: the rotor analysis components of [rotorse/rotor.py]

    A shallow embedding of the OpenMDAO components of [rotor.py] whose
    behaviour the specification describes in closed form: the grid mapper
    ([GridSetup], [RGrid]), the geometry spline ([GeometrySpline]), the
    composite resizer ([ResizeCompositeSection]), the panel buckling strain
    of [PreCompSections], the principal axes and the fatigue damage of
    [RotorWithpBEAM], and the environment models ([TurbineClass],
    [ExtremeLoads], [GustETM]).

    Number model.  A Python or numpy float is a real number or a non-finite
    value: [float := option R], where [None] stands for nan and for the two
    infinities.  Arithmetic on finite values is exact (the rounding of
    binary64 is not modelled); an operation with a non-finite operand has a
    non-finite result.  numpy does not raise on a division by zero, it
    returns nan or an infinity and warns, so [fdiv] by zero is [None].
    Python exceptions (an index out of range, [math.log] or [math.sqrt]
    outside their domain, a local variable read before assignment, a method
    called on what is not an object of the class) abort the component: they
    are the [Raise] of the [result] type. *)

From Stdlib Require Import Reals Lra Lia Sorted.
From stdpp Require Import gmap list strings.

Open Scope R_scope.

(** ** Exceptions *)

Inductive exn : Set :=
| IndexError
| ValueError
| UnboundLocalError
| AttributeError.

Inductive result (A : Type) : Type :=
| Ok (a : A)
| Raise (e : exn).

Arguments Ok {A} a.
Arguments Raise {A} e.

#[global] Instance result_ret : MRet result := fun A a => Ok a.

#[global] Instance result_bind : MBind result := fun A B f m =>
  match m with
  | Ok a => f a
  | Raise e => Raise e
  end.

#[global] Instance result_fmap : FMap result := fun A B f m =>
  match m with
  | Ok a => Ok (f a)
  | Raise e => Raise e
  end.

(** [l[i]] on a Python list or a numpy array, for an index that is not
    negative. *)
Definition index {A : Type} (l : list A) (i : nat) : result A :=
  match l !! i with
  | Some a => Ok a
  | None => Raise IndexError
  end.

(** ** Floats *)

Abbreviation float := (option R).

Definition fin (x : R) : float := Some x.

Definition lift1 (f : R -> R) (a : float) : float :=
  match a with
  | Some x => Some (f x)
  | None => None
  end.

Definition lift2 (f : R -> R -> R) (a b : float) : float :=
  match a, b with
  | Some x, Some y => Some (f x y)
  | _, _ => None
  end.

Definition fadd : float -> float -> float := lift2 Rplus.
Definition fsub : float -> float -> float := lift2 Rminus.
Definition fmul : float -> float -> float := lift2 Rmult.
Definition fneg : float -> float := lift1 Ropp.
Definition fabs : float -> float := lift1 Rabs.

(** numpy division: a zero divisor gives nan or an infinity. *)
Definition fdiv (a b : float) : float :=
  match a, b with
  | Some x, Some y => if Req_dec_T y 0 then None else Some (x / y)
  | _, _ => None
  end.

Declare Scope float_scope.
Delimit Scope float_scope with fl.

Notation "a + b" := (fadd a b) : float_scope.
Notation "a - b" := (fsub a b) : float_scope.
Notation "a * b" := (fmul a b) : float_scope.
Notation "a / b" := (fdiv a b) : float_scope.
Notation "- a" := (fneg a) : float_scope.

(** [np.log]: the logarithm of zero is minus infinity, that of a negative
    number is nan. *)
Definition np_log (a : float) : float :=
  match a with
  | Some x => if Rlt_dec 0 x then Some (ln x) else None
  | None => None
  end.

(** [math.log] and [math.sqrt] raise [ValueError] outside their domain. *)
Definition math_log (x : R) : result R :=
  if Rlt_dec 0 x then Ok (ln x) else Raise ValueError.

Definition math_sqrt (x : R) : result R :=
  if Rle_dec 0 x then Ok (sqrt x) else Raise ValueError.

(** Python's own [x / y] on two of its floats raises [ZeroDivisionError]
    on a zero divisor, where numpy answers nan or an infinity. *)
Inductive ZeroDivisionError : Set := zero_division.

Definition py_div (x y : R) : ZeroDivisionError + R :=
  if Req_dec_T y 0 then inl zero_division else inr (x / y).

(** [l[-1]] on a Python list or a numpy array. *)
Definition index_last {A : Type} (l : list A) : result A :=
  match last l with
  | Some a => Ok a
  | None => Raise IndexError
  end.

(** [np.arctan2 y x] on finite arguments, as numpy documents it: the angle
    of the point [(x, y)] in the interval from [-PI] to [PI]. *)
Definition arctan2_R (y x : R) : R :=
  if Rlt_dec 0 x then atan (y / x)
  else if Rlt_dec x 0 then
    (if Rle_dec 0 y then atan (y / x) + PI else atan (y / x) - PI)
  else if Rlt_dec 0 y then PI / 2
  else if Rlt_dec y 0 then - (PI / 2)
  else 0.

Definition np_arctan2 : float -> float -> float := lift2 arctan2_R.

(** ** Arrays

    A numpy array of floats is a list; the operators of numpy work element
    by element.  The arrays of one component are declared with one shape
    ([shape=nstr]), so the operands of an operator have the same length. *)

Abbreviation array := (list float).

Definition aadd : array -> array -> array := zip_with fadd.
Definition asub : array -> array -> array := zip_with fsub.
Definition amul : array -> array -> array := zip_with fmul.
Definition adiv : array -> array -> array := zip_with fdiv.
Definition aneg : array -> array := fmap fneg.

(** An array times a scalar, and a scalar on the left of an array. *)
Definition amuls (a : array) (s : float) : array := (fun x => fmul x s) <$> a.
Definition smul (s : float) : array -> array := fmap (fmul s).
Definition ssub (s : float) : array -> array := fmap (fsub s).
Definition sdiv (s : float) : array -> array := fmap (fdiv s).

(** [np.sum] of an array. *)
Definition np_sum (a : array) : float := foldr fadd (fin 0) a.

(** [np.linspace a b n]: [n] points from [a] to [b], both included. *)
Definition np_linspace (a b : R) (n : nat) : list R :=
  match n with
  | O => []
  | S O => [a]
  | S k => (fun i => a + INR i * ((b - a) / INR k)) <$> seq 0 n
  end.

(** ** Environment models *)

Module TurbineClass.

Record unknowns : Type := mk_unknowns {
  V_mean : R;
  V_extreme : R;
  V_extreme_full : R * R
}.

Definition Vref_of (turbine_class : string) : result R :=
  if String.eqb turbine_class "I" then Ok 50.0
  else if String.eqb turbine_class "II" then Ok 42.5
  else if String.eqb turbine_class "III" then Ok 37.5
  else if String.eqb turbine_class "IV" then Ok 30.0
  else Raise UnboundLocalError.

Definition solve_nonlinear (turbine_class : string) : result unknowns :=
  Vref ← Vref_of turbine_class;
  Ok {| V_mean := 0.2 * Vref;
        V_extreme := 1.4 * Vref;
        V_extreme_full := (1.4 * Vref, 1.4 * Vref) |}.

End TurbineClass.

Module ExtremeLoads.

(** The attributes the component stores on itself. *)
Record self_t : Type := mk_self {
  self_T : R * R;
  self_Q : R * R;
  self_T_extreme : float;
  self_Q_extreme : float
}.

Record unknowns : Type := mk_unknowns {
  T_extreme : float;
  Q_extreme : float
}.

Definition solve_nonlinear (T Q : R * R) (nBlades : Z) : self_t * unknowns :=
  let n := IZR nBlades in
  let T_ext := (fin (T.1 + T.2 * (n - 1)) / fin n)%fl in
  let Q_ext := (fin (Q.1 + Q.2 * (n - 1)) / fin n)%fl in
  ({| self_T := T; self_Q := Q;
      self_T_extreme := T_ext; self_Q_extreme := Q_ext |},
   {| T_extreme := T_ext; Q_extreme := fin 0.0 |}).

(** [linearize]: the one entry of the Jacobian, of [T_extreme] with
    respect to [T], a matrix of one row.  [n] is a Python float here. *)
Definition linearize (nBlades : Z) : ZeroDivisionError + list (list R) :=
  let n := IZR nBlades in
  match py_div 1.0 n with
  | inl e => inl e
  | inr a =>
      match py_div (n - 1) n with
      | inl e => inl e
      | inr b => inr [[a; b]]
      end
  end.

End ExtremeLoads.

Module GustETM.

Record self_t : Type := mk_self {
  self_sigma : R;
  self_V_gust : R;
  self_Iref : R;
  self_c : R
}.

Definition Iref_of (turbulence_class : string) : result R :=
  if String.eqb turbulence_class "A" then Ok 0.16
  else if String.eqb turbulence_class "B" then Ok 0.14
  else if String.eqb turbulence_class "C" then Ok 0.12
  else Raise UnboundLocalError.

(** The state of the component after the call; [V_gust] of [unknowns] is
    [self_V_gust]. *)
Definition solve_nonlinear (V_mean V_hub : R) (turbulence_class : string)
    (std : R) : result self_t :=
  Iref ← Iref_of turbulence_class;
  let c := 2.0 in
  let sigma := c * Iref * (0.072 * (V_mean / c + 3) * (V_hub / c - 4) + 10) in
  let V_gust := V_hub + std * sigma in
  Ok {| self_sigma := sigma; self_V_gust := V_gust;
        self_Iref := Iref; self_c := c |}.

Definition V_gust (s : self_t) : R := self_V_gust s.

(** The two entries of the Jacobian of [V_gust]. *)
Record jacobian : Type := mk_jacobian {
  dV_gust_dV_mean : R;
  dV_gust_dV_hub : R
}.

(** [linearize] reads what [solve_nonlinear] left on the component: [Iref]
    and [c] of the state [s], and the [V_mean], [V_hub] and [std] of that
    call. *)
Definition linearize (s : self_t) (V_mean V_hub std : R) : jacobian :=
  let Iref := self_Iref s in
  let c := self_c s in
  {| dV_gust_dV_mean := std * (c * Iref * 0.072 / c * (V_hub / c - 4));
     dV_gust_dV_hub := 1.0 + std * (c * Iref * 0.072 * (V_mean / c + 3) / c) |}.

End GustETM.

(** ** Grid mapper *)

(** [np.concatenate([[0.0], r_aero, [1.0]])]: the aerodynamic grid with the
    two synthetic end points. *)
Definition augment (r_aero : list R) : list R := [0.0] ++ r_aero ++ [1.0].

Module GridSetup.

(** The inner loop [for j in range(1, naug)] at one structural point [r]:
    [js] is what is left of the range and [j] the value the loop variable
    has so far ([None] before its first assignment).  The loop stops at the
    first [j] with [r_aug[j] >= r] and steps one back. *)
Fixpoint find_j (r_aug : list R) (r : R) (js : list nat) (j : option nat)
    : result nat :=
  match js with
  | [] =>
      match j with
      | Some j => Ok j
      | None => Raise UnboundLocalError
      end
  | j' :: js' =>
      a ← index r_aug j';
      if Rge_dec a r then Ok (j' - 1)%nat
      else find_j r_aug r js' (Some j')
  end.

(** The outer loop over the structural points; [j] survives from one
    point to the next. *)
Fixpoint loop (r_aug : list R) (r_str : list R) (j : option nat)
    : result (list (nat * float)) :=
  match r_str with
  | [] => Ok []
  | r :: r_str' =>
      j ← find_j r_aug r (seq 1 (length r_aug - 1)) j;
      a ← index r_aug j;
      b ← index r_aug (j + 1);
      let fraction := (fin (r - a) / fin (b - a))%fl in
      rest ← loop r_aug r_str' (Some j);
      Ok ((j, fraction) :: rest)
  end.

Record unknowns : Type := mk_unknowns {
  fraction : array;
  idxj : list nat
}.

Definition solve_nonlinear (initial_aero_grid initial_str_grid : list R)
    : result unknowns :=
  let r_aero := initial_aero_grid in
  let r_str := initial_str_grid in
  let r_aug := augment r_aero in
  jf ← loop r_aug r_str None;
  Ok {| fraction := jf.*2; idxj := jf.*1 |}.

End GridSetup.

Module RGrid.

Definition solve_nonlinear (r_aero : list R) (fraction : array)
    (idxj : list nat) : result array :=
  let r_aug := augment r_aero in
  let nstr := length fraction in
  mapM (fun i : nat =>
          j ← index idxj i;
          a ← index r_aug j;
          f ← index fraction i;
          b ← index r_aug (j + 1);
          Ok (fin a + f * fin (b - a))%fl)
       (seq 0 nstr).

(** [linearize]: the Jacobian of [r_str] with respect to [r_aero], a matrix
    of [nstr] rows and [naero] columns.  An index [j] of the model is not
    negative, so the test [j > -1] of the source holds. *)
Definition linearize (r_aero : list R) (fraction : array) (idxj : list nat)
    : result (list array) :=
  let nstr := length fraction in
  let naero := length r_aero in
  mapM (fun i : nat =>
          let row := replicate naero (fin 0) in
          j ← index idxj i;
          row ← (if bool_decide (0 < j)%nat && bool_decide (j < naero + 1)%nat
                 then f ← index fraction i;
                      Ok (<[(j - 1)%nat := (fin 1 - f)%fl]> row)
                 else Ok row);
          row ← (if bool_decide (j < naero)%nat
                 then f ← index fraction i; Ok (<[j := f]> row)
                 else Ok row);
          Ok row)
       (seq 0 nstr).

End RGrid.

(** ** Geometry spline *)

Module GeometrySpline.

Record params : Type := mk_params {
  r_aero_unit : list R;
  r_str_unit : list R;
  r_max_chord : R;
  chord_sub : list R;
  theta_sub : list R;
  precurve_sub : list R;
  bladeLength : R;
  sparT : list R;
  teT : list R;
  idx_cylinder_aero : nat;
  idx_cylinder_str : nat;
  hubFraction : R
}.

Record unknowns : Type := mk_unknowns {
  Rhub : R;
  Rtip : R;
  r_aero : list R;
  r_str : list R;
  chord_aero : list R;
  chord_str : list R;
  theta_aero : list R;
  theta_str : list R;
  precurve_aero : list R;
  precurve_str : list R;
  presweep_str : list R;
  sparT_str : list R;
  teT_str : list R;
  r_sub_precurve : list R;
  diameter : R
}.

Section WithAkima.

(** The spline class of the [akima] package, which is not part of this
    repository: [Akima x y] builds the interpolant through the points
    [(x, y)] and [interp s pts] gives the values of the interpolant at
    [pts] (the first component of what the method returns).  Both may
    raise. *)
Variable spline : Type.
Variable Akima : list R -> list R -> result spline.
Variable interp : spline -> list R -> result (list R).

Definition solve_nonlinear (p : params) : result unknowns :=
  let Rhub := hubFraction p * bladeLength p in
  let Rtip := Rhub + bladeLength p in
  (* setup chord parmeterization *)
  let nc := length (chord_sub p) in
  let r_max_chord := Rhub + (Rtip - Rhub) * r_max_chord p in
  rc ← match nc with
       | O => Raise ValueError
       | S k => Ok (np_linspace r_max_chord Rtip k)
       end;
  let rc := [Rhub] ++ rc in
  chord_spline ← Akima rc (chord_sub p);
  (* setup theta parmeterization *)
  let nt := length (theta_sub p) in
  let idxc_aero := idx_cylinder_aero p in
  let idxc_str := idx_cylinder_str p in
  u ← index (r_aero_unit p) idxc_aero;
  let r_cylinder := Rhub + (Rtip - Rhub) * u in
  let rt := np_linspace r_cylinder Rtip nt in
  theta_spline ← Akima rt (theta_sub p);
  (* setup precurve parmeterization *)
  precurve_spline ← Akima rc ([0.0] ++ precurve_sub p);
  let r_sub_precurve := tail rc in
  (* make dimensional and evaluate splines *)
  let diameter := 2.0 * Rhub in
  let r_aero := (fun u => Rhub + (Rtip - Rhub) * u) <$> r_aero_unit p in
  let r_str := (fun u => Rhub + (Rtip - Rhub) * u) <$> r_str_unit p in
  chord_aero ← interp chord_spline r_aero;
  chord_str ← interp chord_spline r_str;
  theta_outer_aero ← interp theta_spline (drop idxc_aero r_aero);
  theta_outer_str ← interp theta_spline (drop idxc_str r_str);
  ta0 ← index theta_outer_aero 0;
  let theta_aero := replicate idxc_aero (ta0 * 1) ++ theta_outer_aero in
  ts0 ← index theta_outer_str 0;
  let theta_str := replicate idxc_str (ts0 * 1) ++ theta_outer_str in
  precurve_aero ← interp precurve_spline r_aero;
  precurve_str ← interp precurve_spline r_str;
  let presweep_str := replicate (length precurve_str) 0 in
  (* setup sparT parameterization *)
  let nt := length (sparT p) in
  let rt := np_linspace 0.0 Rtip nt in
  sparT_spline ← Akima rt (sparT p);
  teT_spline ← Akima rt (teT p);
  sparT_str ← interp sparT_spline r_str;
  teT_str ← interp teT_spline r_str;
  Ok {| Rhub := Rhub; Rtip := Rtip; r_aero := r_aero; r_str := r_str;
        chord_aero := chord_aero; chord_str := chord_str;
        theta_aero := theta_aero; theta_str := theta_str;
        precurve_aero := precurve_aero; precurve_str := precurve_str;
        presweep_str := presweep_str;
        sparT_str := sparT_str; teT_str := teT_str;
        r_sub_precurve := r_sub_precurve; diameter := diameter |}.

End WithAkima.

End GeometrySpline.

(** ** Composite laminates *)

(** Modelled from the spec: the class [CompositeSection] of the module
    [precomp] is not among the sources.  The laminate of one surface of one
    station is an ordered sequence of sectors along the airfoil profile;
    [loc] holds the sector boundaries, and for each sector there is the
    ordered sequence of its laminae with their number of plies [n_plies],
    ply thickness [t], orientation [theta] and material reference
    [mat_idx].  [t] is a list of numpy arrays, one array per sector. *)
Record CompositeSection : Type := mk_CompositeSection {
  loc : list R;
  n_plies : list (list nat);
  t : list array;
  theta : list (list R);
  mat_idx : list (list nat)
}.

Abbreviation matrix := (list (list R)).

(** [M[i, j]] on a two-dimensional numpy array. *)
Definition index2 (M : matrix) (i j : nat) : result R :=
  row ← index M i; index row j.

(** ** Panel buckling *)

Module PreCompSections.

Section WithPreComp.

(** The methods [compositeMatrices] and [effectiveEAxial] of
    [CompositeSection] are not among the sources; they return the
    laminate matrices [A], [B], [D] with the total height of the sector,
    and its effective axial modulus. *)
Variable compositeMatrices :
  CompositeSection -> nat -> result (matrix * matrix * matrix * R).
Variable effectiveEAxial : CompositeSection -> nat -> result R.

(** One turn of the loop of [panelBucklingStrain]. *)
Definition eps_crit_at (chord : list R) (CS_list : list CompositeSection)
    (sector_idx_strain : list nat) (i : nat) : result float :=
  cs ← index CS_list i;
  sector_idx ← index sector_idx_strain i;
  (* chord-wise length of sector *)
  c ← index chord i;
  l1 ← index (loc cs) (sector_idx + 1);
  l0 ← index (loc cs) sector_idx;
  let sector_length := c * (l1 - l0) in
  (* get matrices *)
  ABDh ← compositeMatrices cs sector_idx;
  let '(A, B, D, totalHeight) := ABDh in
  E ← effectiveEAxial cs sector_idx;
  D1 ← index2 D 0 0;
  D2 ← index2 D 1 1;
  D01 ← index2 D 0 1;
  D22 ← index2 D 2 2;
  let D3 := D01 + 2 * D22 in
  (* use empirical formula *)
  let q := (fin PI / fin sector_length)%fl in
  s ← math_sqrt (D1 * D2);
  let Nxx := (fin 2 * (q * q) * fin (s + D3))%fl in
  Ok (- Nxx / fin totalHeight / fin E)%fl.

Definition panelBucklingStrain (chord : list R)
    (upperCS : list CompositeSection) (sector_idx_strain : list nat)
    : result array :=
  let CS_list := upperCS in
  let nsec := length chord in
  mapM (eps_crit_at chord CS_list sector_idx_strain) (seq 0 nsec).

End WithPreComp.

Section WithProfile.

(** The class [Profile] of the module [precomp] is not among the sources:
    an airfoil profile with the abscissae [x] and the ordinates [yu] and
    [yl] of its upper and lower surface.  [np_interp] is [np.interp] of
    numpy, the piecewise linear interpolant of the points [(xp, fp)] at
    [x]. *)
Variable Profile : Type.
Variable pf_x pf_yu pf_yl : Profile -> list R.
Variable np_interp : R -> list R -> list R -> result R.

(** One turn of the loop of [criticalStrainLocations]: the four entries
    [xun[i]], [xln[i]], [yun[i]] and [yln[i]]. *)
Definition strain_location_at (upperCS lowerCS : list CompositeSection)
    (profile : list Profile) (sector_idx_strain : list nat) (i : nat)
    : result (R * R * R * R) :=
  csU ← index upperCS i;
  csL ← index lowerCS i;
  pf ← index profile i;
  idx ← index sector_idx_strain i;
  u0 ← index (loc csU) idx;
  u1 ← index (loc csU) (idx + 1);
  let xun := 0.5 * (u0 + u1) in
  l0 ← index (loc csL) idx;
  l1 ← index (loc csL) (idx + 1);
  let xln := 0.5 * (l0 + l1) in
  yun ← np_interp xun (pf_x pf) (pf_yu pf);
  yln ← np_interp xln (pf_x pf) (pf_yl pf);
  Ok (xun, xln, yun, yln).

Definition criticalStrainLocations (chord : list R)
    (upperCS lowerCS : list CompositeSection) (profile : list Profile)
    (sector_idx_strain : list nat) (x_ec_nose y_ec_nose : list R)
    : result (list R * list R * list R * list R) :=
  let n := length sector_idx_strain in
  (* find corresponding locations on airfoil at midpoint of sector *)
  pts ← mapM (strain_location_at upperCS lowerCS profile sector_idx_strain)
             (seq 0 n);
  let xun := (fun q : R * R * R * R => q.1.1.1) <$> pts in
  let xln := (fun q : R * R * R * R => q.1.1.2) <$> pts in
  let yun := (fun q : R * R * R * R => q.1.2) <$> pts in
  let yln := (fun q : R * R * R * R => q.2) <$> pts in
  (* make dimensional and define relative to elastic center *)
  let xu := zip_with Rminus (zip_with Rmult xun chord) x_ec_nose in
  let xl := zip_with Rminus (zip_with Rmult xln chord) x_ec_nose in
  let yu := zip_with Rminus (zip_with Rmult yun chord) y_ec_nose in
  let yl := zip_with Rminus (zip_with Rmult yln chord) y_ec_nose in
  (* switch to airfoil coordinate system *)
  let '(xu, yu) := (yu, xu) in
  let '(xl, yl) := (yl, xl) in
  Ok (xu, xl, yu, yl).

End WithProfile.

End PreCompSections.

(** ** Principal axes and fatigue damage *)

(** [np.tan], [np.cos], [np.sin], [np.abs] and [x**2] on one float.  The
    tangent has no real value where the cosine vanishes. *)
Definition np_tan (a : float) : float :=
  match a with
  | Some x => if Req_dec_T (cos x) 0 then None else Some (tan x)
  | None => None
  end.

Definition np_cos : float -> float := lift1 cos.
Definition np_sin : float -> float := lift1 sin.
Definition fsqr (a : float) : float := (a * a)%fl.

Module RotorWithpBEAM.

(** The local variables of [principalCS], in the order of their
    assignments. *)
Record principalCS_locals : Type := mk_locals {
  EIxx_renamed : array;
  EIyy_renamed : array;
  x_ec_str_renamed : array;
  y_ec_str_renamed : array;
  EIxx_translated : array;
  EIyy_translated : array;
  EIxy_translated : array;
  alpha : array;
  EI11 : array;
  EI22 : array;
  EA_out : array;
  ca : array;
  sa : array
}.

Definition principalCS_body (EIyy EIxx y_ec_str x_ec_str EA EIxy : array)
    : principalCS_locals :=
  (* rename (with swap of x, y for profile c.s.) *)
  let EIxx := EIyy in
  let EIyy := EIxx in
  let x_ec_str := y_ec_str in
  let y_ec_str := x_ec_str in
  let EA := EA in
  let EIxy := EIxy in
  let EIxx_r := EIxx in
  let EIyy_r := EIyy in
  (* translate to elastic center *)
  let EIxx := asub EIxx (amul (fsqr <$> y_ec_str) EA) in
  let EIyy := asub EIyy (amul (fsqr <$> x_ec_str) EA) in
  let EIxy := asub EIxy (amul (amul x_ec_str y_ec_str) EA) in
  (* get rotation angle *)
  let alpha :=
    smul (fin 0.5) (zip_with np_arctan2 (smul (fin 2) EIxy) (asub EIyy EIxx)) in
  let EI11 := asub EIxx (amul EIxy (np_tan <$> alpha)) in
  let EI22 := aadd EIyy (amul EIxy (np_tan <$> alpha)) in
  (* get moments and positions in principal axes *)
  let ca := np_cos <$> alpha in
  let sa := np_sin <$> alpha in
  {| EIxx_renamed := EIxx_r; EIyy_renamed := EIyy_r;
     x_ec_str_renamed := x_ec_str; y_ec_str_renamed := y_ec_str;
     EIxx_translated := EIxx; EIyy_translated := EIyy;
     EIxy_translated := EIxy; alpha := alpha;
     EI11 := EI11; EI22 := EI22; EA_out := EA; ca := ca; sa := sa |}.

Definition principalCS (EIyy EIxx y_ec_str x_ec_str EA EIxy : array)
    : array * array * array * array * array :=
  let l := principalCS_body EIyy EIxx y_ec_str x_ec_str EA EIxy in
  (EI11 l, EI22 l, EA_out l, ca l, sa l).

(** The strain at one probe point [(x0, y0)] (already swapped), as both
    [strain] and [damage] compute it. *)
Definition probe_strain (M1 M2 : array) (Fz : float)
    (x0 y0 EI11 EI22 EA ca sa : array) : array :=
  let x := aadd (amul x0 ca) (amul y0 sa) in
  let y := aadd (amul (aneg x0) sa) (amul y0 ca) in
  aneg (aadd (asub (amul (adiv M1 EI11) y) (amul (adiv M2 EI22) x))
             (sdiv Fz EA)).

Section WithPower.

(** [x**m] of numpy for a float exponent. *)
Variable np_power : float -> R -> float.

Record damage_locals : Type := mk_damage_locals {
  strainU : array;
  strainL : array;
  NfU : array;
  NfL : array;
  damageU_ratio : array;
  damageL_ratio : array;
  damageU : array;
  damageL : array
}.

Definition damage_body (Mx My xu yu xl yl EI11 EI22 EA ca sa : array)
    (emax eta m N : R) : result damage_locals :=
  (* use profile c.s. to use Hansen's notation *)
  let '(Mx, My) := (My, Mx) in
  let Fz := fin 0.0 in
  let '(xu, yu) := (yu, xu) in
  let '(xl, yl) := (yl, xl) in
  (* convert to principal xes *)
  let M1 := aadd (amul Mx ca) (amul My sa) in
  let M2 := aadd (amul (aneg Mx) sa) (amul My ca) in
  (* compute strain *)
  let strainU := probe_strain M1 M2 Fz xu yu EI11 EI22 EA ca sa in
  let strainL := probe_strain M1 M2 Fz xl yl EI11 EI22 EA ca sa in
  (* number of cycles to failure *)
  let NfU := (fun x => np_power x m) <$> sdiv (fin emax) (smul (fin eta) strainU) in
  let NfL := (fun x => np_power x m) <$> sdiv (fin emax) (smul (fin eta) strainL) in
  (* damage *)
  let damageU_r := sdiv (fin N) NfU in
  let damageL_r := sdiv (fin N) NfL in
  lnN ← math_log N;
  lne ← math_log emax;
  lneta ← math_log eta;
  let damageU :=
    ssub (fin lnN) (smul (fin m) (ssub (fin (lne - lneta)) (np_log <$> (fabs <$> strainU)))) in
  lnN ← math_log N;
  lne ← math_log emax;
  lneta ← math_log eta;
  let damageL :=
    ssub (fin lnN) (smul (fin m) (ssub (fin (lne - lneta)) (np_log <$> (fabs <$> strainL)))) in
  Ok {| strainU := strainU; strainL := strainL; NfU := NfU; NfL := NfL;
        damageU_ratio := damageU_r; damageL_ratio := damageL_r;
        damageU := damageU; damageL := damageL |}.

Definition damage (Mx My xu yu xl yl EI11 EI22 EA ca sa : array)
    (emax eta m N : R) : result (array * array) :=
  l ← damage_body Mx My xu yu xl yl EI11 EI22 EA ca sa emax eta m N;
  Ok (damageU l, damageL l).

End WithPower.

(** [strain]: [loads] is what [blade.shearAndBending()] of pBEAM answers,
    the six arrays [Vx], [Vy], [Fz], [Mx], [My] and [Tz]. *)
Definition strain (loads : array * array * array * array * array * array)
    (xu yu xl yl EI11 EI22 EA ca sa : array) : array * array :=
  let '(Vx, Vy, Fz, Mx, My, Tz) := loads in
  (* use profile c.s. to use Hansen's notation *)
  let '(Vx, Vy) := (Vy, Vx) in
  let '(Mx, My) := (My, Mx) in
  let '(xu, yu) := (yu, xu) in
  let '(xl, yl) := (yl, xl) in
  (* convert to principal xes *)
  let M1 := aadd (amul Mx ca) (amul My sa) in
  let M2 := aadd (amul (aneg Mx) sa) (amul My ca) in
  let x := aadd (amul xu ca) (amul yu sa) in
  let y := aadd (amul (aneg xu) sa) (amul yu ca) in
  (* compute strain *)
  let strainU :=
    aneg (aadd (asub (amul (adiv M1 EI11) y) (amul (adiv M2 EI22) x))
               (adiv Fz EA)) in
  let x := aadd (amul xl ca) (amul yl sa) in
  let y := aadd (amul (aneg xl) sa) (amul yl ca) in
  let strainL :=
    aneg (aadd (asub (amul (adiv M1 EI11) y) (amul (adiv M2 EI22) x))
               (adiv Fz EA)) in
  (strainU, strainL).

End RotorWithpBEAM.

(** ** Composite resizer *)

Module ResizeCompositeSection.

(** The laminates are Python objects that the component copies and then
    changes in place: the store maps the address of an object to its
    value, and the lists of the component hold addresses.  The arrays of a
    laminate belong to it alone. *)
Abbreviation addr := nat.

Abbreviation heap := (gmap nat CompositeSection).

(** Computations on the store that may raise. *)
Definition M (A : Type) : Type := heap -> result (A * heap).

#[global] Instance M_ret : MRet M := fun A a h => Ok (a, h).

#[global] Instance M_bind : MBind M := fun A B f m h =>
  match m h with
  | Ok (a, h') => f a h'
  | Raise e => Raise e
  end.

Definition lift {A : Type} (r : result A) : M A := fun h =>
  match r with
  | Ok a => Ok (a, h)
  | Raise e => Raise e
  end.

(** Reading the object at an address; what is not a laminate has none of
    its attributes. *)
Definition deref (a : addr) : M CompositeSection := fun h =>
  match h !! a with
  | Some cs => Ok (cs, h)
  | None => Raise AttributeError
  end.

Definition store (a : addr) (cs : CompositeSection) : M unit := fun h =>
  Ok ((), <[a := cs]> h).

Definition alloc (cs : CompositeSection) : M addr := fun h =>
  let a := fresh (dom h) in Ok (a, <[a := cs]> h).

(** Modelled from the spec: the method [mycopy] of [CompositeSection] is
    not among the sources.  It is a deep copy: a new object with the same
    sector boundaries, plies, thicknesses, orientations and material
    references, sharing no array with the original. *)
Definition mycopy (a : addr) : M addr :=
  cs ← deref a; alloc cs.

Definition set_t (cs : CompositeSection) (t' : list array) : CompositeSection :=
  {| loc := loc cs; n_plies := n_plies cs; t := t';
     theta := theta cs; mat_idx := mat_idx cs |}.

(** [obj.t[j] *= k] on the object at address [a]. *)
Definition scale_sector (a : addr) (j : nat) (k : float) : M unit :=
  cs ← deref a;
  tj ← lift (index (t cs) j);
  store a (set_t cs (<[j := amuls tj k]> (t cs))).

Fixpoint for_each {A : Type} (l : list A) (body : A -> M unit) : M unit :=
  match l with
  | [] => mret ()
  | x :: l' => body x;; for_each l' body
  end.

(** [for j in range(len(obj.t)): obj.t[j] *= factor]. *)
Definition scale_all (a : addr) (factor : float) : M unit :=
  cs ← deref a;
  for_each (seq 0 (length (t cs))) (fun j => scale_sector a j factor).

Record params : Type := mk_params {
  upperCSIn : list addr;
  lowerCSIn : list addr;
  websCSIn : list addr;
  chord_str_ref : list R;
  sector_idx_strain_spar : list nat;
  sector_idx_strain_te : list nat;
  chord_str : list R;
  sparT_str : list R;
  teT_str : list R
}.

Record unknowns : Type := mk_unknowns {
  upperCSOut : list addr;
  lowerCSOut : list addr;
  websCSOut : list addr
}.

(** The first loop: copy data across. *)
Fixpoint copy_loop (p : params) (stations : list nat)
    : M (list addr * list addr * list addr) :=
  match stations with
  | [] => mret ([], [], [])
  | i :: stations' =>
      u ← lift (index (upperCSIn p) i);
      u' ← mycopy u;
      l ← lift (index (lowerCSIn p) i);
      l' ← mycopy l;
      w ← lift (index (websCSIn p) i);
      w' ← mycopy w;
      rest ← copy_loop p stations';
      let '(us, ls, ws) := rest in
      mret (u' :: us, l' :: ls, w' :: ws)
  end.

(** One turn of the second loop: scale all thicknesses with airfoil
    thickness. *)
Definition scale_station (p : params) (out : unknowns) (i : nat) : M unit :=
  upper ← lift (index (upperCSOut out) i);
  lower ← lift (index (lowerCSOut out) i);
  webs ← lift (index (websCSOut out) i);
  c ← lift (index (chord_str p) i);
  cref ← lift (index (chord_str_ref p) i);
  let factor := (fin c / fin cref)%fl in
  scale_all upper factor;;
  scale_all lower factor;;
  scale_all webs factor.

(** One turn of the third loop: change spar and trailing edge thickness
    to specified values. *)
Definition target_station (p : params) (out : unknowns) (i : nat) : M unit :=
  idx_spar ← lift (index (sector_idx_strain_spar p) i);
  idx_te ← lift (index (sector_idx_strain_te p) i);
  upper ← lift (index (upperCSOut out) i);
  lower ← lift (index (lowerCSOut out) i);
  ucs ← deref upper;
  t_spar ← lift (index (t ucs) idx_spar);
  let tspar := np_sum t_spar in
  t_te ← lift (index (t ucs) idx_te);
  let tte := np_sum t_te in
  sp ← lift (index (sparT_str p) i);
  scale_sector upper idx_spar (fin sp / tspar)%fl;;
  scale_sector lower idx_spar (fin sp / tspar)%fl;;
  te ← lift (index (teT_str p) i);
  scale_sector upper idx_te (fin te / tte)%fl;;
  scale_sector lower idx_te (fin te / tte)%fl.

Definition solve_nonlinear (p : params) : M unknowns :=
  let nstr := length (chord_str_ref p) in
  outs ← copy_loop p (seq 0 nstr);
  let '(us, ls, ws) := outs in
  let out := {| upperCSOut := us; lowerCSOut := ls; websCSOut := ws |} in
  for_each (seq 0 nstr) (scale_station p out);;
  for_each (seq 0 nstr) (target_station p out);;
  mret out.

End ResizeCompositeSection.

(** ** Blade frequencies of the curved blade *)

Module CurveFEM.

Record params : Type := mk_params {
  Omega : R;
  beam_z : list R;
  beam_EA : list R;
  beam_EIxx : list R;
  beam_EIyy : list R;
  beam_GJ : list R;
  beam_rhoA : list R;
  beam_rhoJ : list R;
  theta_str : list R;
  precurve_str : list R;
  presweep_str : list R;
  nF : nat
}.

Section WithCurveFEM.

(** [_curvefem.frequencies], a compiled extension that is not among the
    sources; its arguments in the order of the call. *)
Variable frequencies :
  R -> R -> R -> array -> list R -> list R -> list R -> list R -> list R ->
  list R -> list R -> list R -> list R -> result (list R).

Definition solve_nonlinear (p : params) : result (list R) :=
  let r := beam_z p in
  rhub ← index r 0;
  rtip ← index_last r;
  r0 ← index r 0;
  let bladeLength := rtip - r0 in
  let bladeFrac := (fun x => (fin (x - rhub) / fin bladeLength)%fl) <$> r in
  freq ← frequencies (Omega p) bladeLength rhub bladeFrac (theta_str p)
            (beam_rhoA p) (beam_EIxx p) (beam_EIyy p) (beam_GJ p) (beam_EA p)
            (beam_rhoJ p) (precurve_str p) (presweep_str p);
  Ok (take (nF p) freq).

End WithCurveFEM.

End CurveFEM.

(** ** Damage equivalent loads *)

Module DamageLoads.

(** [(self.r - self.r[0]) / (self.r[-1] - self.r[0])]: the structural radii
    on the unit interval. *)
Definition rstar_str (r : list R) : result array :=
  r0 ← index r 0;
  rn ← index_last r;
  r0' ← index r 0;
  Ok ((fun x => (fin (x - r0) / fin (rn - r0'))%fl) <$> r).

Section WithInterp.

(** [akima_interp_with_derivs] of the package [akima] (its first
    component, the values of the interpolant through [(xpt, ypt)] at [x])
    and the rotation [bladeToAirfoil] of [DirectionVector] of [commonse]
    (its components [x] and [y]) are not among the sources. *)
Variable akima_interp_with_derivs : list R -> list R -> array -> result array.
Variable bladeToAirfoil :
  array -> array -> float -> list R -> result (array * array).

Record unknowns : Type := mk_unknowns {
  Mxa : array;
  Mya : array
}.

Definition solve_nonlinear (rstar Mxb Myb theta r : list R) : result unknowns :=
  rstar_str ← rstar_str r;
  Mxb_str ← akima_interp_with_derivs rstar Mxb rstar_str;
  Myb_str ← akima_interp_with_derivs rstar Myb rstar_str;
  Ma ← bladeToAirfoil Mxb_str Myb_str (fin 0.0) theta;
  Ok {| Mxa := Ma.1; Mya := Ma.2 |}.

End WithInterp.

End DamageLoads.

(** ** Blade deflection *)

(** [a[1:] - a[:-1]] on a numpy array. *)
Definition np_diff (a : list R) : list R :=
  zip_with Rminus (drop 1 a) (take (length a - 1) a).

Module BladeDeflection.

Record params : Type := mk_params {
  dx : list R;
  dy : list R;
  dz : list R;
  pitch : R;
  theta_str : list R;
  r_sub_precurve0 : list R;
  Rhub0 : R;
  r_str0 : list R;
  precurve_str0 : list R;
  bladeLength0 : R
}.

Record unknowns : Type := mk_unknowns {
  delta_bladeLength : float;
  delta_precurve_sub : list R
}.

(** [Rhub0 + np.sum(np.sqrt(dp**2 + dr**2))]: the hub radius and the length
    of the polygon through the points [(precurve, r)].  The square root is
    taken of sums of two squares. *)
Definition path_length (Rhub0 : R) (precurve r : list R) : R :=
  Rhub0 + foldr Rplus 0
            (sqrt <$> zip_with Rplus ((fun x => x ^ 2) <$> np_diff precurve)
                                     ((fun x => x ^ 2) <$> np_diff r)).

Section WithDirectionVector.

(** The rotation [airfoilToBlade] of [DirectionVector] and
    [interp_with_deriv] of [commonse] (its first component) are not among
    the sources. *)
Variable airfoilToBlade :
  list R -> list R -> list R -> list R -> result (list R * list R * list R).
Variable interp_with_deriv : list R -> list R -> list R -> result (list R).

Definition solve_nonlinear (p : params) : result unknowns :=
  let theta := (fun th => th + pitch p) <$> theta_str p in
  delta ← airfoilToBlade (dx p) (dy p) (dz p) theta;
  let delta_x := delta.1.1 in
  let precurve_str_out := zip_with Rplus (precurve_str0 p) delta_x in
  let length0 := path_length (Rhub0 p) (precurve_str0 p) (r_str0 p) in
  let length := path_length (Rhub0 p) precurve_str_out (r_str0 p) in
  let shortening := (fin length0 / fin length)%fl in
  let delta_bladeLength := (fin (bladeLength0 p) * (shortening - fin 1))%fl in
  delta_precurve_sub ← interp_with_deriv (r_sub_precurve0 p) (r_str0 p) delta_x;
  Ok {| delta_bladeLength := delta_bladeLength;
        delta_precurve_sub := delta_precurve_sub |}.

End WithDirectionVector.

End BladeDeflection.

(** ** Operating point of the power-curve deflection *)

Module SetupPCModVarSpeed.

Record params : Type := mk_params {
  control_tsr : R;
  control_pitch : R;
  Vrated : R;
  R_rotor : R;
  Vfactor : R
}.

(** The attributes and outputs of the component after [solve_nonlinear];
    [azimuth] is an output only. *)
Record self_t : Type := mk_self {
  self_Vrated : R;
  self_R : R;
  self_Vfactor : R;
  Uhub : R;
  Omega : float;
  pitch : R;
  azimuth : R
}.

Record jacobian : Type := mk_jacobian {
  dUhub_dtsr : R;
  dUhub_dVrated : R;
  dUhub_dR : R;
  dOmega_dtsr : float;
  dOmega_dVrated : float;
  dOmega_dR : float;
  dpitch_dtsr : R;
  dpitch_dVrated : R;
  dpitch_dR : R
}.

Section WithUnits.

(** [RS2RPM] of the package [rotoraero], the factor from radians per second
    to revolutions per minute. *)
Variable RS2RPM : R.

Definition solve_nonlinear (p : params) : self_t :=
  let Uhub := Vfactor p * Vrated p in
  let Omega := (fin (control_tsr p * Uhub) / fin (R_rotor p) * fin RS2RPM)%fl in
  {| self_Vrated := Vrated p; self_R := R_rotor p; self_Vfactor := Vfactor p;
     Uhub := Uhub; Omega := Omega; pitch := control_pitch p; azimuth := 0.0 |}.

Definition linearize (s : self_t) (p : params) : jacobian :=
  {| dUhub_dtsr := 0.0;
     dUhub_dVrated := self_Vfactor s;
     dUhub_dR := 0.0;
     dOmega_dtsr := (fin (Uhub s) / fin (self_R s) * fin RS2RPM)%fl;
     dOmega_dVrated :=
       (fin (control_tsr p * self_Vfactor s) / fin (self_R s) * fin RS2RPM)%fl;
     dOmega_dR :=
       (fin (- control_tsr p * Uhub s) / fin (self_R s ^ 2) * fin RS2RPM)%fl;
     dpitch_dtsr := 0.0;
     dpitch_dVrated := 0.0;
     dpitch_dR := 0.0 |}.

End WithUnits.

End SetupPCModVarSpeed.

(** * What the specification says *)

Import ResizeCompositeSection.

(** The formulas and predicates of the specification, in its own words, to
    be compared with what the components compute. *)

(** The gust standard deviation of the specification:
    sigma = 2 Iref (0.072 (Vmean/2 + 3) (Vhub/2 - 4) + 10). *)
Definition sigma_spec (Iref V_mean V_hub : R) : R :=
  2 * Iref * (0.072 * (V_mean / 2 + 3) * (V_hub / 2 - 4) + 10).

(** The blade average of the extreme loads: one blade at the worst case,
    the other [n - 1] feathered. *)
Definition blade_average (X : R * R) (n : R) : R :=
  (X.1 + X.2 * (n - 1)) / n.

(** The log-domain S-N damage of the specification:
    damage = ln N - m (ln emax - ln eta - ln |strain|). *)
Definition log_damage_spec (N m emax eta strain : R) : R :=
  ln N - m * (ln emax - ln eta - ln (Rabs strain)).

(** The panel buckling load and critical strain of the specification:
    Nxx = 2 (PI/L)^2 (sqrt (D1 D2) + D3) and
    eps_crit = - Nxx / (totalHeight * E).  The square root of a negative
    number has no value, and neither has a quotient by zero. *)
Definition Nxx_spec (L D1 D2 D3 : R) : R :=
  2 * (PI / L) ^ 2 * (sqrt (D1 * D2) + D3).

Definition eps_crit_spec (L D1 D2 D3 totalHeight E : R) : result float :=
  if Rle_dec 0 (D1 * D2)
  then Ok (fin (- Nxx_spec L D1 D2 D3) / fin (totalHeight * E))%fl
  else Raise ValueError.

(** The bracketing of the specification: the index [j] of the interval of
    the augmented grid with aug[j] <= r < aug[j+1], the last interval being
    closed on the right. *)
Definition bracket_spec (r_aug : list R) (r : R) (j : nat) : Prop :=
  exists a b,
    r_aug !! j = Some a /\ r_aug !! (j + 1)%nat = Some b /\
    a <= r /\ (r < b \/ ((j + 2)%nat = length r_aug /\ r <= b)).

(** The bracketing of the code: aug[j] < r <= aug[j+1], the first interval
    being closed on the left. *)
Definition bracket_code (r_aug : list R) (r : R) (j : nat) : Prop :=
  exists a b,
    r_aug !! j = Some a /\ r_aug !! (j + 1)%nat = Some b /\
    (if decide (j = 0%nat) then a <= r else a < r) /\ r <= b.

(** A grid on the unit radius: strictly increasing, within [0, 1]. *)
Definition unit_grid (g : list R) : Prop :=
  StronglySorted Rlt g /\ Forall (fun r => 0 <= r <= 1) g.

(** * Auxiliary definitions *)

(** ** Notions used in the proofs *)

(** What the outer loop stores for the structural point [r]: the index of
    the bracket of the code and the quotient of the two differences. *)
Definition mapped (aero : list R) (r : R) (p : nat * float) : Prop :=
  exists a b,
    augment aero !! p.1 = Some a /\ augment aero !! (p.1 + 1)%nat = Some b /\
    (if decide (p.1 = 0%nat) then a <= r else a < r) /\ r <= b /\
    p.2 = (fin (r - a) / fin (b - a))%fl.

(** [writes S m]: a run of [m] leaves every object outside [S] as it was. *)
Definition writes {A : Type} (S : addr -> Prop) (m : M A) : Prop :=
  forall h x h', m h = Ok (x, h') -> forall a, ~ S a -> h' !! a = h !! a.

(** The laminate with every thickness array multiplied by [factor]. *)
Definition scale_cs (factor : float) (cs : CompositeSection) : CompositeSection :=
  set_t cs ((fun tj => amuls tj factor) <$> t cs).

(** The laminate with the thickness array of sector [j] multiplied by [k];
    a missing sector is an [IndexError] in the code. *)
Definition scale_sector_cs (j : nat) (k : float) (cs : CompositeSection)
    : CompositeSection :=
  match t cs !! j with
  | Some tj => set_t cs (<[j := amuls tj k]> (t cs))
  | None => cs
  end.

(** The objects of station [k] among the outputs. *)
Definition station_objects (out : unknowns) (k : nat) (a : addr) : Prop :=
  upperCSOut out !! k = Some a \/ lowerCSOut out !! k = Some a \/
  websCSOut out !! k = Some a.

(** Outputs whose addresses are pairwise different. *)
Definition separate (out : unknowns) : Prop :=
  NoDup (upperCSOut out ++ lowerCSOut out ++ websCSOut out).

(** The upper laminate after the turn of its station in the third loop. *)
Definition target_upper (sp te : R) (js jt : nat) (cs : CompositeSection)
    : CompositeSection :=
  match t cs !! js, t cs !! jt with
  | Some t_spar, Some t_te =>
      scale_sector_cs jt (fin te / np_sum t_te)%fl
        (scale_sector_cs js (fin sp / np_sum t_spar)%fl cs)
  | _, _ => cs
  end.

(** The sum of a list of real numbers. *)
Definition Rsum (xs : list R) : R := foldr Rplus 0 xs.

(** Two laminates that differ in ply thicknesses only: the same sector
    boundaries, the same plies in the same order with the same numbers,
    orientations and material references, and as many thicknesses in every
    sector. *)
Definition only_thickness (cs cs' : CompositeSection) : Prop :=
  loc cs' = loc cs /\ n_plies cs' = n_plies cs /\ theta cs' = theta cs /\
  mat_idx cs' = mat_idx cs /\ length <$> t cs' = length <$> t cs.

(** [keeps m]: a run of [m] leaves every object in the store, with at most
    its thicknesses changed. *)
Definition keeps {A : Type} (m : M A) : Prop :=
  forall h x h', m h = Ok (x, h') ->
    forall a cs, h !! a = Some cs ->
      exists cs', h' !! a = Some cs' /\ only_thickness cs cs'.

(** Inputs on which no statement of the component raises: every array has
    an entry for every station, the laminates of a station are objects of
    the store, and the spar-cap and trailing-edge sectors of the station are
    sectors of its upper and of its lower laminate. *)
Definition well_formed (p : params) (h : heap) : Prop :=
  forall i, (i < length (chord_str_ref p))%nat ->
    exists uin lin win csu csl csw c sp te js jt,
      upperCSIn p !! i = Some uin /\ lowerCSIn p !! i = Some lin /\
      websCSIn p !! i = Some win /\
      h !! uin = Some csu /\ h !! lin = Some csl /\ h !! win = Some csw /\
      chord_str p !! i = Some c /\ sparT_str p !! i = Some sp /\
      teT_str p !! i = Some te /\
      sector_idx_strain_spar p !! i = Some js /\
      sector_idx_strain_te p !! i = Some jt /\
      (js < length (t csu))%nat /\ (jt < length (t csu))%nat /\
      (js < length (t csl))%nat /\ (jt < length (t csl))%nat.

(** [kept h0 h]: the store [h] still has every object of [h0], with at most
    its thicknesses changed. *)
Definition kept (h0 h : heap) : Prop :=
  forall a cs0, h0 !! a = Some cs0 ->
    exists cs, h !! a = Some cs /\ only_thickness cs0 cs.

(** ** Sample data *)

(** A piecewise constant stand-in for the spline: it answers with the first
    ordinate at every point. *)
Definition const_Akima (x y : list R) : result (list R) :=
  match y with
  | [] => Raise ValueError
  | _ => Ok y
  end.

Definition const_interp (s : list R) (pts : list R) : result (list R) :=
  Ok ((fun _ => hd 0 s) <$> pts).

Definition nrel_like_params : GeometrySpline.params :=
  {| GeometrySpline.r_aero_unit := [0.2; 0.6];
     GeometrySpline.r_str_unit := [0; 0.5; 1];
     GeometrySpline.r_max_chord := 0.23577;
     GeometrySpline.chord_sub := [3.2612; 4.5709; 3.3178; 1.4621];
     GeometrySpline.theta_sub := [13.2783; 7.46036; 2.89317; -0.0878099];
     GeometrySpline.precurve_sub := [0; 0; 0];
     GeometrySpline.bladeLength := 61.5;
     GeometrySpline.sparT := [0.05; 0.047754; 0.045376; 0.031085; 0.0061398];
     GeometrySpline.teT := [0.1; 0.09569; 0.06569; 0.02569; 0.00569];
     GeometrySpline.idx_cylinder_aero := 1;
     GeometrySpline.idx_cylinder_str := 1;
     GeometrySpline.hubFraction := 0.025 |}.

(** A laminate with one sector of one ply, and one with two sectors. *)
Definition lam_one : CompositeSection :=
  {| loc := [0; 1]; n_plies := [[1%nat]]; t := [[fin 1]];
     theta := [[0]]; mat_idx := [[0%nat]] |}.

Definition lam_two : CompositeSection :=
  {| loc := [0; 0.5; 1]; n_plies := [[1%nat; 1%nat]; [1%nat]];
     t := [[fin 1; fin 1]; [fin 2]];
     theta := [[0; 45]; [0]]; mat_idx := [[0%nat; 1%nat]; [0%nat]] |}.

Definition store_of (cs : CompositeSection) : heap :=
  <[2%nat := cs]> (<[1%nat := cs]> (<[0%nat := cs]> ∅)).

(** One station whose spar-cap and trailing-edge sectors are the same
    sector 0, as with the default index arrays of the component. *)
Definition p_same : params :=
  {| upperCSIn := [0%nat]; lowerCSIn := [1%nat]; websCSIn := [2%nat];
     chord_str_ref := [1];
     sector_idx_strain_spar := [0%nat]; sector_idx_strain_te := [0%nat];
     chord_str := [1]; sparT_str := [2]; teT_str := [3] |}.

(** One station with the spar cap in sector 0 and the trailing edge in
    sector 1. *)
Definition p_two : params :=
  {| upperCSIn := [0%nat]; lowerCSIn := [1%nat]; websCSIn := [2%nat];
     chord_str_ref := [1];
     sector_idx_strain_spar := [0%nat]; sector_idx_strain_te := [1%nat];
     chord_str := [2]; sparT_str := [4]; teT_str := [3] |}.

(** A bending-stiffness matrix with D1 D2 = 4, for one station of chord 2
    whose sector 0 spans the first half of the profile. *)
Definition D_ex : matrix := [[1; 0.5; 0]; [0.5; 4; 0]; [0; 0; 1]].

Definition matrices_ex (cs : CompositeSection) (idx : nat)
    : result (matrix * matrix * matrix * R) :=
  Ok (D_ex, D_ex, D_ex, 0.05).

Definition E_ex (cs : CompositeSection) (idx : nat) : result R := Ok 10.

(** ** Notions used in the further properties *)

(** The product of one row of a Jacobian with a change of the inputs. *)
Definition row_dot (row : array) (d : list R) : float :=
  np_sum (zip_with fmul row (fin <$> d)).

Definition Rdot (row d : list R) : R := Rsum (zip_with Rmult row d).

(** The value of a float that is a real number. *)
Definition real_of (a : float) : R :=
  match a with
  | Some x => x
  | None => 0
  end.

(** The params of [SetupPCModVarSpeed] with one of them changed. *)
Definition with_tsr (p : SetupPCModVarSpeed.params) (x : R)
    : SetupPCModVarSpeed.params :=
  {| SetupPCModVarSpeed.control_tsr := x;
     SetupPCModVarSpeed.control_pitch := SetupPCModVarSpeed.control_pitch p;
     SetupPCModVarSpeed.Vrated := SetupPCModVarSpeed.Vrated p;
     SetupPCModVarSpeed.R_rotor := SetupPCModVarSpeed.R_rotor p;
     SetupPCModVarSpeed.Vfactor := SetupPCModVarSpeed.Vfactor p |}.

Definition with_Vrated (p : SetupPCModVarSpeed.params) (x : R)
    : SetupPCModVarSpeed.params :=
  {| SetupPCModVarSpeed.control_tsr := SetupPCModVarSpeed.control_tsr p;
     SetupPCModVarSpeed.control_pitch := SetupPCModVarSpeed.control_pitch p;
     SetupPCModVarSpeed.Vrated := x;
     SetupPCModVarSpeed.R_rotor := SetupPCModVarSpeed.R_rotor p;
     SetupPCModVarSpeed.Vfactor := SetupPCModVarSpeed.Vfactor p |}.

Definition with_R (p : SetupPCModVarSpeed.params) (x : R)
    : SetupPCModVarSpeed.params :=
  {| SetupPCModVarSpeed.control_tsr := SetupPCModVarSpeed.control_tsr p;
     SetupPCModVarSpeed.control_pitch := SetupPCModVarSpeed.control_pitch p;
     SetupPCModVarSpeed.Vrated := SetupPCModVarSpeed.Vrated p;
     SetupPCModVarSpeed.R_rotor := x;
     SetupPCModVarSpeed.Vfactor := SetupPCModVarSpeed.Vfactor p |}.

(** The logarithmic damage of one strain, as [damage] computes it. *)
Definition log_damage (N m emax eta : R) (s : float) : float :=
  (fin (ln N) - fin m * (fin (ln emax - ln eta) - np_log (fabs s)))%fl.

(** The strain of [strain] and [damage] at one probe point of one station,
    in real numbers: the loads and the point [(x0, y0)] are those of the
    call, before the swaps. *)
Definition strain_at (fz mx my x0 y0 ei11 ei22 ea ca sa : R) : R :=
  - ((my * ca + mx * sa) / ei11 * (- y0 * sa + x0 * ca)
     - (- my * sa + mx * ca) / ei22 * (y0 * ca + x0 * sa) + fz / ea).

(** The lower laminate after the turn of its station in the third loop:
    its spar-cap and trailing-edge sectors are rescaled with the sums of
    the upper laminate [ucs]. *)
Definition target_lower (sp te : R) (js jt : nat) (ucs cs : CompositeSection)
    : CompositeSection :=
  match t ucs !! js, t ucs !! jt with
  | Some t_spar, Some t_te =>
      scale_sector_cs jt (fin te / np_sum t_te)%fl
        (scale_sector_cs js (fin sp / np_sum t_spar)%fl cs)
  | _, _ => cs
  end.

(** The lengths of the segments of a polygon, from the differences of its
    two coordinates. *)
Definition segments (dp dr : list R) : list R :=
  sqrt <$> zip_with Rplus ((fun x => x ^ 2) <$> dp) ((fun x => x ^ 2) <$> dr).

(** ** More sample data *)

(** A profile with no camber, and an interpolant that answers 0. *)
Definition flat_x (pf : unit) : list R := [0; 1].

Definition flat_y (pf : unit) : list R := [0; 0].

Definition interp_zero (x : R) (xp fp : list R) : result R := Ok 0.

(** A stand-in for the frequency solver that answers six frequencies. *)
Definition six_frequencies (Omega bladeLength rhub : R) (bladeFrac : array)
    (theta_str rhoA EIxx EIyy GJ EA rhoJ precurve_str presweep_str : list R)
    : result (list R) :=
  Ok [1; 2; 3; 4; 5; 6].

Definition p_curvefem : CurveFEM.params :=
  {| CurveFEM.Omega := 12;
     CurveFEM.beam_z := [1.5; 30; 63];
     CurveFEM.beam_EA := [1; 1; 1];
     CurveFEM.beam_EIxx := [1; 1; 1];
     CurveFEM.beam_EIyy := [1; 1; 1];
     CurveFEM.beam_GJ := [1; 1; 1];
     CurveFEM.beam_rhoA := [1; 1; 1];
     CurveFEM.beam_rhoJ := [1; 1; 1];
     CurveFEM.theta_str := [13; 5; 0];
     CurveFEM.precurve_str := [0; 0; 0];
     CurveFEM.presweep_str := [0; 0; 0];
     CurveFEM.nF := 5 |}.

(** A rotation that leaves the vector as it is, and an interpolant that
    answers zeros. *)
Definition no_rotation (dx dy dz theta : list R)
    : result (list R * list R * list R) :=
  Ok (dx, dy, dz).

Definition interp_zeros (x xp fp : list R) : result (list R) := Ok [0; 0; 0].

(** A straight blade of three stations, moved as a whole and bent. *)
Definition p_moved : BladeDeflection.params :=
  {| BladeDeflection.dx := [0.5; 0.5; 0.5];
     BladeDeflection.dy := [0; 0; 0];
     BladeDeflection.dz := [0; 0; 0];
     BladeDeflection.pitch := 0;
     BladeDeflection.theta_str := [13; 5; 0];
     BladeDeflection.r_sub_precurve0 := [10; 30; 63];
     BladeDeflection.Rhub0 := 1.5;
     BladeDeflection.r_str0 := [1.5; 30; 63];
     BladeDeflection.precurve_str0 := [0; 0; 0];
     BladeDeflection.bladeLength0 := 61.5 |}.

Definition p_bent : BladeDeflection.params :=
  {| BladeDeflection.dx := [0; 1; 3];
     BladeDeflection.dy := [0; 0; 0];
     BladeDeflection.dz := [0; 0; 0];
     BladeDeflection.pitch := 0;
     BladeDeflection.theta_str := [13; 5; 0];
     BladeDeflection.r_sub_precurve0 := [10; 30; 63];
     BladeDeflection.Rhub0 := 1.5;
     BladeDeflection.r_str0 := [1.5; 30; 63];
     BladeDeflection.precurve_str0 := [0; 0; 0];
     BladeDeflection.bladeLength0 := 61.5 |}.

(** The operating point of a rotor of radius 63 m. *)
Definition p_setup : SetupPCModVarSpeed.params :=
  {| SetupPCModVarSpeed.control_tsr := 7.55;
     SetupPCModVarSpeed.control_pitch := 0;
     SetupPCModVarSpeed.Vrated := 11;
     SetupPCModVarSpeed.R_rotor := 63;
     SetupPCModVarSpeed.Vfactor := 0.7 |}.

(** * Proofs *)

(** ** Tactics and general lemmas *)

(** Case analysis on the comparisons of real numbers left in the goal. *)
Ltac R_cases :=
  repeat match goal with
  | |- context [Rge_dec ?a ?b] => destruct (Rge_dec a b); try lra
  | |- context [Rle_dec ?a ?b] => destruct (Rle_dec a b); try lra
  | |- context [Rlt_dec ?a ?b] => destruct (Rlt_dec a b); try lra
  | |- context [Req_dec_T ?a ?b] => destruct (Req_dec_T a b); try lra
  end.

Lemma fdiv_fin (x y : R) : y <> 0 -> fdiv (fin x) (fin y) = fin (x / y).
Proof. intros Hy. unfold fdiv, fin. destruct (Req_dec_T y 0); [contradiction | reflexivity]. Qed.

Lemma fdiv_zero (x : R) : fdiv (fin x) (fin 0) = None.
Proof. unfold fdiv, fin. destruct (Req_dec_T 0 0); [reflexivity | contradiction]. Qed.

Lemma index_Ok {A : Type} (l : list A) (i : nat) (a : A) :
  index l i = Ok a <-> l !! i = Some a.
Proof. unfold index. destruct (l !! i); split; congruence. Qed.

Lemma index_lookup {A : Type} (l : list A) (i : nat) (a : A) :
  l !! i = Some a -> index l i = Ok a.
Proof. apply index_Ok. Qed.

(** ** Environment models *)

(** C7. TurbineClass maps class I to Vref = 50, II to 42.5 and III to 37.5
    and outputs V_mean = 0.2 Vref and V_extreme = 1.4 Vref; GustETM maps
    turbulence class A to Iref = 0.16, B to 0.14 and C to 0.12 and outputs
    V_gust = V_hub + std sigma, with
    sigma = 2 Iref (0.072 (V_mean/2 + 3) (V_hub/2 - 4) + 10), for every
    V_mean, V_hub and std. *)
Theorem environment_models :
  TurbineClass.Vref_of "I" = Ok 50 /\
  TurbineClass.Vref_of "II" = Ok 42.5 /\
  TurbineClass.Vref_of "III" = Ok 37.5 /\
  TurbineClass.solve_nonlinear "I"
    = Ok (TurbineClass.mk_unknowns (0.2 * 50) (1.4 * 50) (1.4 * 50, 1.4 * 50)) /\
  TurbineClass.solve_nonlinear "II"
    = Ok (TurbineClass.mk_unknowns (0.2 * 42.5) (1.4 * 42.5) (1.4 * 42.5, 1.4 * 42.5)) /\
  TurbineClass.solve_nonlinear "III"
    = Ok (TurbineClass.mk_unknowns (0.2 * 37.5) (1.4 * 37.5) (1.4 * 37.5, 1.4 * 37.5)) /\
  forall V_mean V_hub std : R,
    GustETM.V_gust <$> GustETM.solve_nonlinear V_mean V_hub "A" std
      = Ok (V_hub + std * sigma_spec 0.16 V_mean V_hub) /\
    GustETM.V_gust <$> GustETM.solve_nonlinear V_mean V_hub "B" std
      = Ok (V_hub + std * sigma_spec 0.14 V_mean V_hub) /\
    GustETM.V_gust <$> GustETM.solve_nonlinear V_mean V_hub "C" std
      = Ok (V_hub + std * sigma_spec 0.12 V_mean V_hub).
Proof.
  assert (H50 : 50.0 = 50) by lra.
  do 3 (split; [cbv [TurbineClass.Vref_of String.eqb Ascii.eqb Bool.eqb];
                f_equal; lra|]).
  do 3 (split; [cbv [TurbineClass.solve_nonlinear TurbineClass.Vref_of
                     String.eqb Ascii.eqb Bool.eqb mbind result_bind];
                rewrite ?H50; reflexivity|]).
  intros V_mean V_hub std.
  repeat split;
    cbv [GustETM.solve_nonlinear GustETM.Iref_of GustETM.V_gust
         GustETM.self_V_gust String.eqb Ascii.eqb Bool.eqb mbind result_bind
         fmap result_fmap sigma_spec];
    f_equal; lra.
Qed.

(** ** Extreme loads *)

(** C9. For every thrust pair T, torque pair Q and blade count n,
    T_extreme is the blade average (T[0] + T[1] (n - 1)) / n (not a number
    when n is zero), and Q_extreme is 0.0 whatever Q is: the torque average
    is computed and kept on the component, and never written to the
    output. *)
Theorem extreme_loads_torque_dropped (T Q : R * R) (n : Z) :
  let '(self, u) := ExtremeLoads.solve_nonlinear T Q n in
  ExtremeLoads.T_extreme u =
    (if Req_dec_T (IZR n) 0 then None else fin (blade_average T (IZR n))) /\
  ExtremeLoads.Q_extreme u = fin 0 /\
  ExtremeLoads.self_Q_extreme self =
    (if Req_dec_T (IZR n) 0 then None else fin (blade_average Q (IZR n))) /\
  forall Q' : R * R,
    (ExtremeLoads.solve_nonlinear T Q' n).2 = u.
Proof.
  unfold ExtremeLoads.solve_nonlinear, blade_average, fdiv, fin; simpl.
  repeat split. f_equal. lra.
Qed.

(** ** Geometry spline *)

(** C4. Whenever GeometrySpline.solve_nonlinear returns, for every
    hubFraction and bladeLength, Rhub = hubFraction * bladeLength,
    Rtip = Rhub + bladeLength and diameter = 2 * Rhub: twice the hub radius,
    which is twice the tip radius only for a blade of length zero. *)
Theorem geometry_spline_radii (spline : Type)
    (Akima : list R -> list R -> result spline)
    (interp : spline -> list R -> result (list R))
    (p : GeometrySpline.params) (u : GeometrySpline.unknowns) :
  GeometrySpline.solve_nonlinear spline Akima interp p = Ok u ->
  GeometrySpline.Rhub u = GeometrySpline.hubFraction p * GeometrySpline.bladeLength p /\
  GeometrySpline.Rtip u = GeometrySpline.Rhub u + GeometrySpline.bladeLength p /\
  GeometrySpline.diameter u = 2 * GeometrySpline.Rhub u /\
  (GeometrySpline.diameter u = 2 * GeometrySpline.Rtip u <->
   GeometrySpline.bladeLength p = 0).
Proof.
  unfold GeometrySpline.solve_nonlinear. intros H.
  repeat match type of H with
  | (mbind _ ?m) = Ok _ => destruct m; simpl in H; [|discriminate]
  end.
  injection H as <-. simpl.
  repeat split; try lra.
Qed.

Lemma geometry_spline_radii_witness :
  exists u,
    GeometrySpline.solve_nonlinear (list R) const_Akima const_interp
      nrel_like_params = Ok u /\
    GeometrySpline.Rhub u = 0.025 * 61.5 /\
    GeometrySpline.diameter u = 2 * GeometrySpline.Rhub u.
Proof.
  eexists. split; [reflexivity|].
  pose proof (geometry_spline_radii (list R) const_Akima const_interp
                nrel_like_params _ eq_refl) as (H1 & _ & H3 & _).
  split; [exact H1 | exact H3].
Defined.

(** ** Principal axes *)

Lemma arctan2_R_zero_x (y : R) :
  arctan2_R y 0 =
    if Rlt_dec 0 y then PI / 2 else if Rlt_dec y 0 then - (PI / 2) else 0.
Proof.
  unfold arctan2_R.
  destruct (Rlt_dec 0 0) as [H|_]; [lra|]. reflexivity.
Qed.

(** C8. In principalCS the two sequential assignments leave both local
    EIxx and EIyy equal to the input EIyy and both elastic-center offsets
    equal to the input y_ec_str.  At every station with finite inputs the
    translated EIyy - EIxx is then exactly zero, and the principal-axis angle
    is PI/4 or -PI/4 with the sign of the translated EIxy, and 0 when the
    translated EIxy is zero. *)
Theorem principalCS_swap_lost
    (EIyy EIxx y_ec_str x_ec_str EA EIxy : array) (i : nat) (v y ea e : R) :
  EIyy !! i = Some (fin v) ->
  y_ec_str !! i = Some (fin y) ->
  EA !! i = Some (fin ea) ->
  EIxy !! i = Some (fin e) ->
  let l := RotorWithpBEAM.principalCS_body EIyy EIxx y_ec_str x_ec_str EA EIxy in
  let e' := e - y * y * ea in
  RotorWithpBEAM.EIxx_renamed l = EIyy /\
  RotorWithpBEAM.EIyy_renamed l = EIyy /\
  RotorWithpBEAM.x_ec_str_renamed l = y_ec_str /\
  RotorWithpBEAM.y_ec_str_renamed l = y_ec_str /\
  asub (RotorWithpBEAM.EIyy_translated l) (RotorWithpBEAM.EIxx_translated l) !! i
    = Some (fin 0) /\
  RotorWithpBEAM.EIxy_translated l !! i = Some (fin e') /\
  RotorWithpBEAM.alpha l !! i =
    Some (fin (if Rlt_dec 0 e' then PI / 4
               else if Rlt_dec e' 0 then - (PI / 4) else 0)).
Proof.
  intros Hv Hy Hea He l e'.
  do 4 (split; [reflexivity|]).
  unfold l, RotorWithpBEAM.principalCS_body; simpl.
  unfold asub, amul, smul.
  repeat (rewrite ?lookup_zip_with, ?list_lookup_fmap, ?Hv, ?Hy, ?Hea, ?He; simpl).
  split; [|split].
  - unfold fin. do 2 f_equal. lra.
  - reflexivity.
  - unfold fin. do 2 f_equal.
    replace (v - y * y * ea - (v - y * y * ea)) with 0 by lra.
    rewrite arctan2_R_zero_x. fold e'.
    destruct (Rlt_dec 0 e'), (Rlt_dec e' 0);
      destruct (Rlt_dec 0 (2 * e')), (Rlt_dec (2 * e') 0); lra.
Qed.

Lemma principalCS_swap_lost_witness :
  let l := RotorWithpBEAM.principalCS_body
             [fin 5] [fin 9] [fin 1] [fin 7] [fin 2] [fin 3] in
  RotorWithpBEAM.EIxx_renamed l = [fin 5] /\
  RotorWithpBEAM.x_ec_str_renamed l = [fin 1] /\
  RotorWithpBEAM.alpha l !! 0%nat =
    Some (fin (if Rlt_dec 0 (3 - 1 * 1 * 2) then PI / 4
               else if Rlt_dec (3 - 1 * 1 * 2) 0 then - (PI / 4) else 0)).
Proof.
  pose proof (principalCS_swap_lost [fin 5] [fin 9] [fin 1] [fin 7] [fin 2]
                [fin 3] 0 5 1 2 3 eq_refl eq_refl eq_refl eq_refl)
    as (H1 & _ & H3 & _ & _ & _ & H7).
  split; [exact H1 | split; [exact H3 | exact H7]].
Defined.

(** ** Fatigue damage *)

Lemma math_log_pos (x : R) : 0 < x -> math_log x = Ok (ln x).
Proof. intros H. unfold math_log. destruct (Rlt_dec 0 x); [reflexivity | contradiction]. Qed.

(** The damage array that [damage_body] assigns last, at one station. *)
Lemma log_damage_lookup (strain : array) (i : nat) (s lnN m k : R) :
  strain !! i = Some (fin s) -> s <> 0 ->
  ssub (fin lnN) (smul (fin m) (ssub (fin k) (np_log <$> (fabs <$> strain)))) !! i
    = Some (fin (lnN - m * (k - ln (Rabs s)))).
Proof.
  intros Hs Hne. unfold ssub, smul.
  rewrite !list_lookup_fmap, Hs. simpl.
  destruct (Rlt_dec 0 (Rabs s)) as [_|Hn]; [reflexivity|].
  exfalso. apply Hn, Rabs_pos_lt, Hne.
Qed.

(** C5. For positive N, m, emax and eta the function returns, and at every
    station where the strain is finite and not zero the damage returned for
    the upper and for the lower probe point is
    ln N - m (ln emax - ln eta - ln |strain|), whatever the raw cycle ratio
    N/Nf computed before it; hence the damage grows strictly with N, and two
    loadings whose strains at a station are opposite have the same damage
    there. *)
Theorem damage_is_log_damage (np_power : float -> R -> float)
    (Mx My xu yu xl yl EI11 EI22 EA ca sa : array) (emax eta m N : R) :
  0 < N -> 0 < m -> 0 < emax -> 0 < eta ->
  exists l,
    RotorWithpBEAM.damage_body np_power Mx My xu yu xl yl EI11 EI22 EA ca sa
      emax eta m N = Ok l /\
    RotorWithpBEAM.damage np_power Mx My xu yu xl yl EI11 EI22 EA ca sa
      emax eta m N = Ok (RotorWithpBEAM.damageU l, RotorWithpBEAM.damageL l) /\
    (forall i s, RotorWithpBEAM.strainU l !! i = Some (fin s) -> s <> 0 ->
       RotorWithpBEAM.damageU l !! i = Some (fin (log_damage_spec N m emax eta s))) /\
    (forall i s, RotorWithpBEAM.strainL l !! i = Some (fin s) -> s <> 0 ->
       RotorWithpBEAM.damageL l !! i = Some (fin (log_damage_spec N m emax eta s))) /\
    (forall N', N < N' ->
       exists l',
         RotorWithpBEAM.damage_body np_power Mx My xu yu xl yl EI11 EI22 EA ca sa
           emax eta m N' = Ok l' /\
         (forall i s, RotorWithpBEAM.strainU l !! i = Some (fin s) -> s <> 0 ->
            exists d d', RotorWithpBEAM.damageU l !! i = Some (fin d) /\
                         RotorWithpBEAM.damageU l' !! i = Some (fin d') /\ d < d') /\
         (forall i s, RotorWithpBEAM.strainL l !! i = Some (fin s) -> s <> 0 ->
            exists d d', RotorWithpBEAM.damageL l !! i = Some (fin d) /\
                         RotorWithpBEAM.damageL l' !! i = Some (fin d') /\ d < d')) /\
    (forall (Mx' My' xu' yu' xl' yl' EI11' EI22' EA' ca' sa' : array) l' i s,
       RotorWithpBEAM.damage_body np_power Mx' My' xu' yu' xl' yl' EI11' EI22'
         EA' ca' sa' emax eta m N = Ok l' ->
       s <> 0 ->
       (RotorWithpBEAM.strainU l !! i = Some (fin s) ->
        RotorWithpBEAM.strainU l' !! i = Some (fin (- s)) ->
        RotorWithpBEAM.damageU l' !! i = RotorWithpBEAM.damageU l !! i) /\
       (RotorWithpBEAM.strainL l !! i = Some (fin s) ->
        RotorWithpBEAM.strainL l' !! i = Some (fin (- s)) ->
        RotorWithpBEAM.damageL l' !! i = RotorWithpBEAM.damageL l !! i)).
Proof.
  intros HN Hm He Heta.
  unfold RotorWithpBEAM.damage, RotorWithpBEAM.damage_body.
  rewrite !(math_log_pos N), !(math_log_pos emax), !(math_log_pos eta) by assumption.
  simpl. eexists. split; [reflexivity|]. simpl.
  split; [reflexivity|].
  split; [|split; [|split]].
  - intros i s Hs Hne. rewrite (log_damage_lookup _ i s) by assumption. reflexivity.
  - intros i s Hs Hne. rewrite (log_damage_lookup _ i s) by assumption. reflexivity.
  - intros N' HN'.
    assert (0 < N') by lra.
    rewrite !(math_log_pos N') by assumption. simpl.
    eexists. split; [reflexivity|]. simpl.
    pose proof (ln_increasing N N' HN HN') as Hln.
    split; intros i s Hs Hne; do 2 eexists;
      (split; [apply (log_damage_lookup _ i s); assumption|]);
      (split; [apply (log_damage_lookup _ i s); assumption|]); lra.
  - intros Mx' My' xu' yu' xl' yl' EI11' EI22' EA' ca' sa' l' i s Hl' Hne.
    injection Hl' as <-. simpl.
    assert (Hne' : - s <> 0) by lra.
    split; intros Hs Hs';
      rewrite (log_damage_lookup _ i s _ _ _ Hs Hne),
              (log_damage_lookup _ i (- s) _ _ _ Hs' Hne');
      rewrite Rabs_Ropp; reflexivity.
Qed.

Lemma damage_is_log_damage_witness :
  exists l,
    RotorWithpBEAM.damage_body (fun _ _ => None)
      [fin 0] [fin 3] [fin 1] [fin 0] [fin (-1)] [fin 0]
      [fin 1] [fin 1] [fin 1] [fin 1] [fin 0] 0.01 1.755 10 630720000 = Ok l /\
    RotorWithpBEAM.damageU l !! 0%nat =
      Some (fin (log_damage_spec 630720000 10 0.01 1.755 (-3))) /\
    RotorWithpBEAM.damageL l !! 0%nat =
      Some (fin (log_damage_spec 630720000 10 0.01 1.755 3)).
Proof.
  destruct (damage_is_log_damage (fun _ _ => None)
              [fin 0] [fin 3] [fin 1] [fin 0] [fin (-1)] [fin 0]
              [fin 1] [fin 1] [fin 1] [fin 1] [fin 0] 0.01 1.755 10 630720000
              ltac:(lra) ltac:(lra) ltac:(lra) ltac:(lra))
    as (l & Hl & _ & HU & HL & _).
  exists l. split; [exact Hl|].
  unfold RotorWithpBEAM.damage_body in Hl.
  rewrite !math_log_pos in Hl by lra. injection Hl as <-.
  split.
  - apply HU; [|lra].
    cbn. unfold fdiv, fin. R_cases. cbn. do 2 f_equal. lra.
  - apply HL; [|lra].
    cbn. unfold fdiv, fin. R_cases. cbn. do 2 f_equal. lra.
Defined.

(** ** Panel buckling *)

Lemma mapM_Ok_lookup {A B : Type} (f : A -> result B) (l : list A)
    (ys : list B) (i : nat) (x : A) :
  mapM f l = Ok ys -> l !! i = Some x ->
  exists y, ys !! i = Some y /\ f x = Ok y.
Proof.
  revert ys i. induction l as [|a l IH]; intros ys i Hm Hl; [discriminate|].
  cbn in Hm. destruct (f a) as [b|] eqn:Hfa; [|discriminate]. cbn in Hm.
  destruct (mapM f l) as [k|] eqn:Hk; [|discriminate]. cbn in Hm.
  injection Hm as <-. destruct i as [|i]; simpl in *.
  - injection Hl as ->. eauto.
  - eapply IH; eauto.
Qed.

Lemma mapM_Ok_length {A B : Type} (f : A -> result B) (l : list A)
    (ys : list B) :
  mapM f l = Ok ys -> length ys = length l.
Proof.
  revert ys. induction l as [|a l IH]; intros ys Hm.
  - injection Hm as <-. reflexivity.
  - cbn in Hm. destruct (f a) as [b|]; [|discriminate]. cbn in Hm.
    destruct (mapM f l) as [k|]; [|discriminate]. cbn in Hm.
    injection Hm as <-. simpl. f_equal. apply IH. reflexivity.
Qed.



(** ** Grid mapper *)

Lemma StronglySorted_lookup_lt {A : Type} (R : A -> A -> Prop) (l : list A)
    (i j : nat) (x y : A) :
  StronglySorted R l -> (i < j)%nat -> l !! i = Some x -> l !! j = Some y ->
  R x y.
Proof.
  intros Hs. revert i j. induction Hs as [|a l Hs IH Hall]; intros i j Hij Hi Hj.
  - discriminate.
  - destruct j as [|j]; [lia|]. destruct i as [|i]; simpl in *.
    + injection Hi as <-. rewrite Forall_forall in Hall.
      apply Hall. eapply list_elem_of_lookup_2, Hj.
    + apply (IH i j); [lia | assumption | assumption].
Qed.

Lemma augment_length (aero : list R) :
  length (augment aero) = (length aero + 2)%nat.
Proof. unfold augment. simpl. rewrite length_app. simpl. lia. Qed.

Lemma augment_sorted (aero : list R) :
  unit_grid aero -> StronglySorted Rle (augment aero).
Proof.
  intros [Hs Hb]. unfold augment. simpl.
  constructor.
  - induction Hs as [|a l Hs IH Hall]; simpl.
    + constructor; [constructor | constructor].
    + inversion Hb as [|? ? Ha Hb']; subst. constructor.
      * apply IH. exact Hb'.
      * apply Forall_app. split.
        -- eapply Forall_impl; [exact Hall|]. simpl. intros; lra.
        -- constructor; [lra | constructor].
  - apply Forall_app. split.
    + eapply Forall_impl; [exact Hb|]. simpl. intros; lra.
    + constructor; [lra | constructor].
Qed.

Lemma augment_mono (aero : list R) (i j : nat) (x y : R) :
  unit_grid aero -> (i <= j)%nat ->
  augment aero !! i = Some x -> augment aero !! j = Some y -> x <= y.
Proof.
  intros Hg Hij Hi Hj. destruct (decide (i = j)) as [->|Hne].
  - rewrite Hi in Hj. injection Hj as ->. lra.
  - apply (StronglySorted_lookup_lt Rle (augment aero) i j x y);
      [apply augment_sorted, Hg | lia | exact Hi | exact Hj].
Qed.

Lemma augment_first (aero : list R) : augment aero !! 0%nat = Some 0.0.
Proof. reflexivity. Qed.

Lemma augment_last (aero : list R) :
  augment aero !! (length aero + 1)%nat = Some 1.0.
Proof.
  unfold augment. rewrite Nat.add_1_r. simpl.
  rewrite lookup_app_r by lia. rewrite Nat.sub_diag. reflexivity.
Qed.

(** The inner loop, started at [k] with every grid value of the indices
    from 1 up to [k] below [r], stops at the first index whose value
    reaches [r] and answers the index before it. *)
Lemma find_j_Ok (r_aug : list R) (r : R) (n k : nat) (j0 : option nat) :
  (k + n)%nat = length r_aug -> (1 <= k)%nat ->
  (forall k' x, (1 <= k' < k)%nat -> r_aug !! k' = Some x -> x < r) ->
  (exists k' x, (k <= k')%nat /\ r_aug !! k' = Some x /\ r <= x) ->
  exists j b,
    GridSetup.find_j r_aug r (seq k n) j0 = Ok j /\
    r_aug !! (j + 1)%nat = Some b /\ r <= b /\
    (forall k' x, (1 <= k' <= j)%nat -> r_aug !! k' = Some x -> x < r).
Proof.
  revert k j0. induction n as [|n IH]; intros k j0 Hlen Hk Hbelow (k' & x & Hk' & Hx & Hrx).
  - apply lookup_lt_Some in Hx. lia.
  - simpl. destruct (r_aug !! k) as [a|] eqn:Ha.
    2:{ apply lookup_ge_None in Ha. lia. }
    rewrite (index_lookup _ _ _ Ha). cbn.
    destruct (Rge_dec a r) as [Hge|Hlt].
    + exists (k - 1)%nat, a. replace (k - 1 + 1)%nat with k by lia.
      repeat split; [assumption | lra |].
      intros k'' y Hk'' Hy. apply (Hbelow k'' y); [lia | assumption].
    + apply (IH (S k) (Some k)); [lia | lia | |].
      * intros k'' y Hk'' Hy. destruct (decide (k'' = k)) as [->|Hne].
        -- rewrite Ha in Hy. injection Hy as <-. lra.
        -- apply (Hbelow k'' y); [lia | assumption].
      * exists k', x. repeat split; [|assumption|assumption].
        destruct (decide (k' = k)) as [->|Hne]; [|lia].
        rewrite Ha in Hx. injection Hx as <-. lra.
Qed.

Lemma find_j_bracket (aero : list R) (r : R) (j0 : option nat) :
  0 <= r <= 1 ->
  exists j, GridSetup.find_j (augment aero) r
              (seq 1 (length (augment aero) - 1)) j0 = Ok j /\
            bracket_code (augment aero) r j.
Proof.
  intros Hr.
  destruct (find_j_Ok (augment aero) r (length (augment aero) - 1) 1 j0)
    as (j & b & Hj & Hb & Hrb & Hbelow).
  - rewrite augment_length. lia.
  - lia.
  - intros k' x Hk'. lia.
  - exists (length aero + 1)%nat, 1.0. split; [lia|].
    split; [apply augment_last | lra].
  - exists j. split; [exact Hj|].
    assert (Hlt : (j < length (augment aero))%nat).
    { apply lookup_lt_Some in Hb. lia. }
    destruct (lookup_lt_is_Some_2 _ _ Hlt) as [a Ha].
    exists a, b. repeat split; try assumption.
    destruct (decide (j = 0%nat)) as [->|Hne].
    + rewrite augment_first in Ha. injection Ha as <-. lra.
    + apply (Hbelow j a); [lia | assumption].
Qed.

Lemma bracket_code_unique (aero : list R) (r : R) (j j' : nat) :
  unit_grid aero ->
  bracket_code (augment aero) r j -> bracket_code (augment aero) r j' -> j = j'.
Proof.
  assert (Hlt : forall j j', unit_grid aero -> (j < j')%nat ->
            bracket_code (augment aero) r j -> bracket_code (augment aero) r j' -> False).
  { clear j j'. intros j j' Hg Hjj (a & b & Ha & Hb & _ & Hrb) (a' & b' & Ha' & _ & Har' & _).
    destruct (decide (j' = 0%nat)) as [->|_]; [lia|].
    pose proof (augment_mono aero (j + 1) j' b a' Hg ltac:(lia) Hb Ha'). lra. }
  intros Hg H1 H2.
  destruct (lt_eq_lt_dec j j') as [[H|H]|H]; [|exact H|]; exfalso; eauto.
Qed.

Lemma loop_Ok (aero r_str : list R) (j0 : option nat) :
  Forall (fun r => 0 <= r <= 1) r_str ->
  exists jf, GridSetup.loop (augment aero) r_str j0 = Ok jf /\
             Forall2 (mapped aero) r_str jf.
Proof.
  revert j0. induction r_str as [|r r_str IH]; intros j0 Hb.
  - exists []. split; [reflexivity | constructor].
  - inversion Hb as [|? ? Hr Hb']; subst.
    destruct (find_j_bracket aero r j0 Hr) as (j & Hj & a & b & Ha & Hb2 & Har & Hrb).
    destruct (IH (Some j) Hb') as (jf & Hjf & Hall).
    exists ((j, (fin (r - a) / fin (b - a))%fl) :: jf). split.
    + cbn [GridSetup.loop]. rewrite Hj. cbn [mbind result_bind].
      rewrite (index_lookup _ _ _ Ha). cbn [mbind result_bind].
      rewrite (index_lookup _ _ _ Hb2). cbn [mbind result_bind].
      rewrite Hjf. reflexivity.
    + constructor; [|exact Hall]. exists a, b. simpl. auto.
Qed.

Lemma grid_setup_Ok (aero r_str : list R) :
  Forall (fun r => 0 <= r <= 1) r_str ->
  exists jf,
    GridSetup.solve_nonlinear aero r_str
      = Ok {| GridSetup.fraction := jf.*2; GridSetup.idxj := jf.*1 |} /\
    Forall2 (mapped aero) r_str jf.
Proof.
  intros Hb. destruct (loop_Ok aero r_str None Hb) as (jf & Hjf & Hall).
  exists jf. split; [|exact Hall].
  unfold GridSetup.solve_nonlinear. rewrite Hjf. reflexivity.
Qed.

(** The bracket is degenerate only at the root of a grid that starts at 0. *)
Lemma mapped_width (aero : list R) (r : R) (p : nat * float) (a b : R) :
  augment aero !! p.1 = Some a -> augment aero !! (p.1 + 1)%nat = Some b ->
  (if decide (p.1 = 0%nat) then a <= r else a < r) -> r <= b ->
  b - a = 0 -> r = 0 /\ aero !! 0%nat = Some 0.
Proof.
  intros Ha Hb Har Hrb Hw. destruct (decide (p.1 = 0%nat)) as [H0|_]; [|lra].
  rewrite H0 in Ha, Hb. rewrite augment_first in Ha. injection Ha as <-.
  split; [lra|].
  unfold augment in Hb. simpl in Hb. destruct aero as [|a0 aero]; simpl in Hb.
  - injection Hb as <-. lra.
  - injection Hb as <-. simpl. f_equal. lra.
Qed.

(** C1, as the code has it.  For strictly increasing grids in [0, 1]
    GridSetup.solve_nonlinear returns, and gives every structural point
    r_str[i] the unique index j of the augmented aerodynamic grid with
    aug[j] < r_str[i] <= aug[j+1] (the first interval being closed on the
    left, at r = 0), and the fraction
    (r_str[i] - aug[j]) / (aug[j+1] - aug[j]), a real number whenever the
    interval has a positive width. *)
Theorem grid_setup_brackets (aero r_str : list R) :
  unit_grid aero -> unit_grid r_str ->
  exists u,
    GridSetup.solve_nonlinear aero r_str = Ok u /\
    length (GridSetup.idxj u) = length r_str /\
    length (GridSetup.fraction u) = length r_str /\
    forall i r, r_str !! i = Some r ->
      exists j a b,
        GridSetup.idxj u !! i = Some j /\
        augment aero !! j = Some a /\ augment aero !! (j + 1)%nat = Some b /\
        (if decide (j = 0%nat) then a <= r else a < r) /\ r <= b /\
        (forall j', bracket_code (augment aero) r j' -> j' = j) /\
        GridSetup.fraction u !! i = Some (fin (r - a) / fin (b - a))%fl /\
        (a < b -> GridSetup.fraction u !! i = Some (fin ((r - a) / (b - a)))).
Proof.
  intros Ha [_ Hs].
  destruct (grid_setup_Ok aero r_str Hs) as (jf & Hu & Hall).
  eexists. split; [exact Hu|]. simpl.
  pose proof (Forall2_length _ _ _ Hall) as Hlen.
  rewrite !length_fmap. repeat split; try congruence.
  intros i r Hi.
  destruct (Forall2_lookup_l _ _ _ _ _ Hall Hi)
    as ([j f] & Hjf & a & b & Hja & Hjb & Har & Hrb & Hf).
  simpl in *. exists j, a, b.
  rewrite !list_lookup_fmap, Hjf. simpl.
  split; [reflexivity|].
  do 4 (split; [assumption|]).
  split; [|split].
  - intros j' Hj'. apply (bracket_code_unique aero r j' j Ha Hj').
    exists a, b. auto.
  - congruence.
  - intros Hab. subst f. f_equal. apply fdiv_fin. lra.
Qed.

Lemma unit_grid_half : unit_grid [0.5].
Proof.
  split.
  - constructor; constructor.
  - constructor; [lra | constructor].
Qed.

Lemma grid_setup_brackets_witness :
  exists u,
    GridSetup.solve_nonlinear [0.5] [0.5] = Ok u /\
    length (GridSetup.idxj u) = 1%nat.
Proof.
  destruct (grid_setup_brackets [0.5] [0.5] unit_grid_half unit_grid_half)
    as (u & Hu & Hlen & _).
  exists u. split; [exact Hu | exact Hlen].
Defined.

(** C1 as the specification words it fails where a structural point lies on
    an aerodynamic one: for the grids [0.5] and [0.5] the specification asks
    for the interval 1 (0.5 <= 0.5 < 1) and the code answers the interval 0,
    with the fraction 1. *)
Lemma grid_bracket_spec_counterexample :
  unit_grid [0.5] /\
  bracket_spec (augment [0.5]) 0.5 1 /\
  ~ bracket_spec (augment [0.5]) 0.5 0 /\
  GridSetup.solve_nonlinear [0.5] [0.5]
    = Ok {| GridSetup.fraction := [fin 1]; GridSetup.idxj := [0%nat] |}.
Proof.
  split; [exact unit_grid_half|]. split; [|split].
  - exists 0.5, 1.0. repeat split; try reflexivity; lra.
  - intros (a & b & Ha & Hb & Har & Hrb).
    injection Ha as <-. injection Hb as <-.
    destruct Hrb as [H|[H _]]; [lra | discriminate].
  - unfold GridSetup.solve_nonlinear, GridSetup.loop. simpl.
    unfold index; simpl. cbn.
    destruct (Rge_dec 0.5 0.5) as [_|H]; [|exfalso; lra]. cbn.
    destruct (Req_dec_T (0.5 - 0.0) 0) as [H|_]; [exfalso; lra|].
    unfold fin. do 4 f_equal. field. lra.
Qed.

Lemma mapM_Ok_exists {A B : Type} (f : A -> result B) (l : list A) :
  (forall x, x ∈ l -> exists y, f x = Ok y) -> exists ys, mapM f l = Ok ys.
Proof.
  induction l as [|a l IH]; intros H.
  - exists []. reflexivity.
  - destruct (H a) as [b Hb]; [left|].
    destruct IH as [ys Hys]; [intros x Hx; apply H; right; exact Hx|].
    exists (b :: ys). cbn. rewrite Hb. cbn. rewrite Hys. reflexivity.
Qed.

(** One turn of the loop of RGrid on what GridSetup stored. *)
Lemma rgrid_point (aero : list R) (jf : list (nat * float)) (i : nat) (r : R)
    (p : nat * float) :
  unit_grid aero ->
  jf !! i = Some p -> mapped aero r p ->
  exists y,
    (j ← index (jf.*1) i;
     a ← index (augment aero) j;
     f ← index (jf.*2) i;
     b ← index (augment aero) (j + 1);
     Ok (fin a + f * fin (b - a))%fl) = Ok y /\
    (0 < r \/ aero !! 0%nat <> Some 0 -> y = fin r) /\
    (r = 0 /\ aero !! 0%nat = Some 0 -> y = None).
Proof.
  intros Hg Hp (a & b & Ha & Hb & Har & Hrb & Hf).
  assert (H1 : jf.*1 !! i = Some p.1) by (rewrite list_lookup_fmap, Hp; reflexivity).
  assert (H2 : jf.*2 !! i = Some p.2) by (rewrite list_lookup_fmap, Hp; reflexivity).
  rewrite (index_lookup _ _ _ H1). cbn [mbind result_bind].
  rewrite (index_lookup _ _ _ Ha). cbn [mbind result_bind].
  rewrite (index_lookup _ _ _ H2). cbn [mbind result_bind].
  rewrite (index_lookup _ _ _ Hb). cbn [mbind result_bind].
  eexists. split; [reflexivity|]. rewrite Hf.
  destruct (Req_dec_T (b - a) 0) as [Hw|Hw].
  - destruct (mapped_width aero r p a b Ha Hb Har Hrb Hw) as [Hr0 Ha0].
    split.
    + intros [H|H]; [lra | contradiction].
    + intros _. rewrite Hw, fdiv_zero. reflexivity.
  - split.
    + intros _. rewrite fdiv_fin by exact Hw. unfold fin; simpl. f_equal. field. exact Hw.
    + intros [Hr0 Ha0]. exfalso.
      pose proof (augment_first aero) as H0.
      assert (Ha1 : augment aero !! 1%nat = Some 0).
      { unfold augment. destruct aero as [|a0 aero]; [discriminate|]. exact Ha0. }
      destruct (decide (p.1 = 0%nat)) as [Hz|Hnz].
      * rewrite Hz in Ha, Hb. change (0 + 1)%nat with 1%nat in Hb.
        rewrite Ha1 in Hb. rewrite H0 in Ha.
        injection Ha as <-. injection Hb as <-. lra.
      * pose proof (augment_mono aero 0 p.1 _ _ Hg ltac:(lia) H0 Ha). lra.
Qed.



Lemma unit_grid_zero : unit_grid [0].
Proof.
  split.
  - constructor; constructor.
  - constructor; [lra | constructor].
Qed.


(** ** Composite resizer *)

(** *** Running the store monad *)

Lemma bind_Ok {A B : Type} (m : M A) (f : A -> M B) (h : heap) (y : B) (h' : heap) :
  (m ≫= f) h = Ok (y, h') ->
  exists x h1, m h = Ok (x, h1) /\ f x h1 = Ok (y, h').
Proof.
  unfold mbind, M_bind. destruct (m h) as [[x h1]|e]; [|discriminate].
  intros H. exists x, h1. split; [reflexivity | exact H].
Qed.

Lemma bind_run {A B : Type} (m : M A) (f : A -> M B) (h : heap) (x : A) (h1 : heap) :
  m h = Ok (x, h1) -> (m ≫= f) h = f x h1.
Proof. intros H. unfold mbind, M_bind. rewrite H. reflexivity. Qed.

Lemma lift_Ok {A : Type} (r : result A) (h : heap) (x : A) (h' : heap) :
  lift r h = Ok (x, h') -> r = Ok x /\ h' = h.
Proof. unfold lift. destruct r; intros H; [|discriminate]. injection H as -> ->. auto. Qed.

Lemma deref_Ok (a : addr) (h : heap) (cs : CompositeSection) (h' : heap) :
  deref a h = Ok (cs, h') -> h !! a = Some cs /\ h' = h.
Proof. unfold deref. destruct (h !! a); intros H; [|discriminate]. injection H as -> ->. auto. Qed.

Lemma deref_run (a : addr) (h : heap) (cs : CompositeSection) :
  h !! a = Some cs -> deref a h = Ok (cs, h).
Proof. intros H. unfold deref. rewrite H. reflexivity. Qed.

Lemma alloc_Ok (cs : CompositeSection) (h : heap) (a : addr) (h' : heap) :
  alloc cs h = Ok (a, h') -> h !! a = None /\ h' = <[a := cs]> h.
Proof.
  unfold alloc. intros H. injection H as <- <-. split; [|reflexivity].
  apply not_elem_of_dom, is_fresh.
Qed.

(** Decompose a run [H : m h = Ok (x, h')] of a sequence of binds. *)
Ltac run_inv H :=
  repeat match type of H with
  | (_ ≫= _) _ = Ok _ =>
      let x := fresh "x" in let h := fresh "h" in
      let H1 := fresh "Hrun" in
      apply bind_Ok in H as (x & h & H1 & H)
  end.

(** *** What a computation writes *)

Lemma writes_ret {A : Type} (S : addr -> Prop) (x : A) : writes S (mret x).
Proof. intros h y h' H a _. injection H as _ <-. reflexivity. Qed.

Lemma writes_lift {A : Type} (S : addr -> Prop) (r : result A) : writes S (lift r).
Proof. intros h y h' H a _. apply lift_Ok in H as [_ ->]. reflexivity. Qed.

Lemma writes_deref (S : addr -> Prop) (a : addr) : writes S (deref a).
Proof. intros h y h' H a' _. apply deref_Ok in H as [_ ->]. reflexivity. Qed.

Lemma writes_store (S : addr -> Prop) (a : addr) (cs : CompositeSection) :
  S a -> writes S (store a cs).
Proof.
  intros Ha h y h' H a' Ha'. unfold store in H. injection H as H. subst h'.
  apply lookup_insert_ne. intros ->. contradiction.
Qed.

Lemma writes_bind {A B : Type} (S : addr -> Prop) (m : M A) (f : A -> M B) :
  writes S m -> (forall x, writes S (f x)) -> writes S (m ≫= f).
Proof.
  intros Hm Hf h y h' H a Ha. apply bind_Ok in H as (x & h1 & H1 & H2).
  rewrite (Hf x _ _ _ H2 a Ha). apply (Hm _ _ _ H1 a Ha).
Qed.

Lemma writes_lift_bind {A B : Type} (S : addr -> Prop) (r : result A) (f : A -> M B) :
  (forall x, r = Ok x -> writes S (f x)) -> writes S (lift r ≫= f).
Proof.
  intros Hf h y h' H a Ha. apply bind_Ok in H as (x & h1 & H1 & H2).
  apply lift_Ok in H1 as [-> ->]. apply (Hf x eq_refl _ _ _ H2 a Ha).
Qed.

Lemma writes_for_each {A : Type} (S : addr -> Prop) (l : list A) (body : A -> M unit) :
  (forall x, x ∈ l -> writes S (body x)) -> writes S (for_each l body).
Proof.
  induction l as [|x l IH]; intros Hb; simpl.
  - apply writes_ret.
  - apply writes_bind; [apply Hb; left|].
    intros _. apply IH. intros y Hy. apply Hb. right. exact Hy.
Qed.

Lemma writes_weaken {A : Type} (S S' : addr -> Prop) (m : M A) :
  (forall a, S a -> S' a) -> writes S m -> writes S' m.
Proof. intros HS Hm h x h' H a Ha. apply (Hm _ _ _ H). intros HSa. apply Ha, HS, HSa. Qed.

Lemma writes_scale_sector (a : addr) (j : nat) (k : float) :
  writes (eq a) (scale_sector a j k).
Proof.
  unfold scale_sector.
  apply writes_bind; [apply writes_deref|]. intros cs.
  apply writes_bind; [apply writes_lift|]. intros tj.
  apply writes_store. reflexivity.
Qed.

Lemma writes_scale_all (a : addr) (factor : float) :
  writes (eq a) (scale_all a factor).
Proof.
  unfold scale_all.
  apply writes_bind; [apply writes_deref|]. intros cs.
  apply writes_for_each. intros j _. apply writes_scale_sector.
Qed.

(** *** The effect of the scaling loops on one laminate *)

Lemma scale_sector_Ok (a : addr) (j : nat) (k : float) (h : heap) (x : unit) (h' : heap) :
  scale_sector a j k h = Ok (x, h') ->
  exists cs, h !! a = Some cs /\ is_Some (t cs !! j) /\
             h' = <[a := scale_sector_cs j k cs]> h.
Proof.
  unfold scale_sector. intros H. run_inv H.
  apply deref_Ok in Hrun as [Hcs ->]. apply lift_Ok in Hrun0 as [Hj ->].
  apply index_Ok in Hj. unfold store in H. injection H as _ <-.
  exists x0. split; [exact Hcs|]. split; [eauto|].
  unfold scale_sector_cs. rewrite Hj. reflexivity.
Qed.

Lemma scale_sector_run (a : addr) (j : nat) (k : float) (h : heap)
    (cs : CompositeSection) (tj : array) :
  h !! a = Some cs -> t cs !! j = Some tj ->
  scale_sector a j k h = Ok ((), <[a := set_t cs (<[j := amuls tj k]> (t cs))]> h).
Proof.
  intros Hcs Hj. unfold scale_sector.
  rewrite (bind_run _ _ _ _ _ (deref_run _ _ _ Hcs)).
  rewrite (index_lookup _ _ _ Hj). reflexivity.
Qed.

Lemma scale_loop_run (a : addr) (factor : float) (n : nat) :
  forall (k : nat) (h : heap) (cs : CompositeSection),
    h !! a = Some cs -> (k + n)%nat = length (t cs) ->
    for_each (seq k n) (fun j => scale_sector a j factor) h
    = Ok ((), <[a := set_t cs (take k (t cs) ++
                                ((fun tj => amuls tj factor) <$> drop k (t cs)))]> h).
Proof.
  induction n as [|n IH]; intros k h cs Hcs Hlen.
  - simpl. unfold mret, M_ret. do 2 f_equal.
    rewrite drop_ge by lia. rewrite take_ge by lia. simpl. rewrite app_nil_r.
    symmetry. apply insert_id. rewrite Hcs. f_equal. destruct cs; reflexivity.
  - destruct (lookup_lt_is_Some_2 (t cs) k ltac:(lia)) as [tk Htk].
    cbn [seq for_each].
    rewrite (bind_run _ _ _ _ _ (scale_sector_run a k factor h cs tk Hcs Htk)).
    rewrite (IH (S k) _ (set_t cs (<[k := amuls tk factor]> (t cs)))).
    + rewrite insert_insert_eq. do 3 f_equal. simpl.
      rewrite (take_S_r _ _ (amuls tk factor))
        by (apply list_lookup_insert_eq; eapply lookup_lt_Some, Htk).
      rewrite take_insert_ge by lia. rewrite drop_insert_lt by lia.
      rewrite (drop_S _ _ _ Htk). rewrite fmap_cons, <- app_assoc. reflexivity.
    + apply lookup_insert_eq.
    + simpl. rewrite length_insert. lia.
Qed.

Lemma scale_all_run (a : addr) (factor : float) (h : heap) (cs : CompositeSection) :
  h !! a = Some cs ->
  scale_all a factor h = Ok ((), <[a := scale_cs factor cs]> h).
Proof.
  intros Hcs. unfold scale_all.
  rewrite (bind_run _ _ _ _ _ (deref_run _ _ _ Hcs)).
  rewrite (scale_loop_run a factor _ 0 h cs Hcs) by lia.
  reflexivity.
Qed.

(** *** The copy loop *)

Lemma mycopy_Ok (a : addr) (h : heap) (a' : addr) (h' : heap) :
  mycopy a h = Ok (a', h') ->
  exists cs, h !! a = Some cs /\ h !! a' = None /\ h' = <[a' := cs]> h.
Proof.
  unfold mycopy. intros H. run_inv H.
  apply deref_Ok in Hrun as [Hcs ->]. apply alloc_Ok in H as [Hn ->]. eauto.
Qed.

(** What the copy loop returns: new, pairwise different objects, each with
    the value that the input object of its station has, in a store that
    still holds every object it held. *)
Lemma copy_loop_Ok (p : params) (l : list nat) :
  forall (h : heap) (us ls ws : list addr) (h1 : heap),
    copy_loop p l h = Ok ((us, ls, ws), h1) ->
    length us = length l /\ length ls = length l /\ length ws = length l /\
    h ⊆ h1 /\
    (forall a, a ∈ us ++ ls ++ ws -> h !! a = None /\ is_Some (h1 !! a)) /\
    NoDup (us ++ ls ++ ws) /\
    (forall k i, l !! k = Some i ->
       exists uin lin win u' l' w',
         upperCSIn p !! i = Some uin /\ lowerCSIn p !! i = Some lin /\
         websCSIn p !! i = Some win /\
         us !! k = Some u' /\ ls !! k = Some l' /\ ws !! k = Some w' /\
         (forall cs, h !! uin = Some cs -> h1 !! u' = Some cs) /\
         (forall cs, h !! lin = Some cs -> h1 !! l' = Some cs) /\
         (forall cs, h !! win = Some cs -> h1 !! w' = Some cs)).
Proof.
  induction l as [|i l IH]; intros h us ls ws h1 H.
  - injection H as <- <- <- <-. simpl.
    do 4 (split; [reflexivity|]).
    split; [intros a Ha; inversion Ha|].
    split; [constructor|].
    intros k i Hk. discriminate.
  - cbn [copy_loop] in H. run_inv H.
    apply lift_Ok in Hrun as [Hu ->]. apply index_Ok in Hu.
    apply lift_Ok in Hrun1 as [Hl ->]. apply index_Ok in Hl.
    apply lift_Ok in Hrun3 as [Hw ->]. apply index_Ok in Hw.
    apply mycopy_Ok in Hrun0 as (csu & Hcsu & Hfu & ->).
    apply mycopy_Ok in Hrun2 as (csl & Hcsl & Hfl & ->).
    apply mycopy_Ok in Hrun4 as (csw & Hcsw & Hfw & ->).
    destruct x5 as [[us' ls'] ws'].
    injection H as <- <- <- ->.
    destruct (IH _ _ _ _ _ Hrun5) as (Hlu & Hll & Hlw & Hsub & Hfresh & Hnd & Hk).
    set (ha := <[x0 := csu]> h) in *.
    set (hb := <[x2 := csl]> ha) in *.
    set (hc := <[x4 := csw]> hb) in *.
    assert (Hsa : h ⊆ ha) by (apply insert_subseteq; exact Hfu).
    assert (Hsb : ha ⊆ hb) by (apply insert_subseteq; exact Hfl).
    assert (Hsc : hb ⊆ hc) by (apply insert_subseteq; exact Hfw).
    assert (Hsab : h ⊆ hb) by (etrans; [exact Hsa | exact Hsb]).
    assert (Hsac : h ⊆ hc) by (etrans; [exact Hsab | exact Hsc]).
    assert (Hs1 : h ⊆ h1) by (etrans; [exact Hsac | exact Hsub]).
    assert (Hau : hc !! x0 = Some csu).
    { eapply lookup_weaken; [|exact Hsc]. eapply lookup_weaken; [|exact Hsb].
      apply lookup_insert_eq. }
    assert (Hal : hc !! x2 = Some csl).
    { eapply lookup_weaken; [|exact Hsc]. apply lookup_insert_eq. }
    assert (Haw : hc !! x4 = Some csw) by apply lookup_insert_eq.
    assert (Hn02 : x0 <> x2).
    { intros ->. unfold ha in Hfl. rewrite lookup_insert_eq in Hfl. discriminate. }
    assert (Hn04 : x0 <> x4).
    { intros ->. pose proof (lookup_weaken _ _ _ _ (lookup_insert_eq h x4 csu) Hsb).
      congruence. }
    assert (Hn24 : x2 <> x4).
    { intros ->. unfold hb in Hfw. rewrite lookup_insert_eq in Hfw. discriminate. }
    assert (Hout : forall a, a ∈ us' ++ ls' ++ ws' -> a <> x0 /\ a <> x2 /\ a <> x4).
    { intros a Ha. destruct (Hfresh a Ha) as [Hna _].
      repeat split; intros ->; congruence. }
    simpl. do 3 (split; [f_equal; assumption|]).
    split; [exact Hs1|].
    split; [|split].
    + intros a Hin.
      assert (Hcases : a = x0 \/ a = x2 \/ a = x4 \/ a ∈ us' ++ ls' ++ ws').
      { clear -Hin.
        repeat (rewrite elem_of_cons in Hin || rewrite elem_of_app in Hin).
        rewrite !elem_of_app. tauto. }
      clear Hin. destruct Hcases as [->|[->|[->|Ha]]].
      * split; [assumption|].
        eexists. eapply lookup_weaken; [exact Hau | exact Hsub].
      * split; [eapply lookup_weaken_None; [exact Hfl | exact Hsa]|].
        eexists. eapply lookup_weaken; [exact Hal | exact Hsub].
      * split; [eapply lookup_weaken_None; [exact Hfw | exact Hsab]|].
        eexists. eapply lookup_weaken; [exact Haw | exact Hsub].
      * destruct (Hfresh a Ha) as [Hna Hsome]. split; [|exact Hsome].
        eapply lookup_weaken_None; [exact Hna | exact Hsac].
    + clear -Hnd Hout Hn02 Hn04 Hn24.
      rewrite !NoDup_app in Hnd. destruct Hnd as (Hu & Hul & Hl & Hlw & Hw).
      assert (Hx : forall a, a = x0 \/ a = x2 \/ a = x4 ->
                (a ∉ us') /\ (a ∉ ls') /\ (a ∉ ws')).
      { intros a Ha.
        repeat split; intros Hin;
          (destruct (Hout a) as (? & ? & ?); [rewrite !elem_of_app; auto|]);
          destruct Ha as [?|[?|?]]; contradiction. }
      destruct (Hx x0) as (? & ? & ?); [auto|].
      destruct (Hx x2) as (? & ? & ?); [auto|].
      destruct (Hx x4) as (? & ? & ?); [auto|].
      rewrite NoDup_cons, NoDup_app, NoDup_cons, NoDup_app, NoDup_cons.
      split; [|split; [exact Hu|split; [|split; [|split; [exact Hl|split; [|split; assumption]]]]]].
      * rewrite elem_of_app, elem_of_cons, elem_of_app, elem_of_cons.
        intros [?|[?|[?|[?|?]]]]; congruence || contradiction.
      * intros a Ha. rewrite elem_of_cons, elem_of_app, elem_of_cons.
        intros [->|[Hin|[->|Hin]]]; try contradiction.
        -- apply (Hul a Ha). rewrite elem_of_app. auto.
        -- apply (Hul a Ha). rewrite elem_of_app. auto.
      * rewrite elem_of_app, elem_of_cons.
        intros [?|[?|?]]; congruence || contradiction.
      * intros a Ha. rewrite elem_of_cons.
        intros [->|Hin]; [contradiction|]. apply (Hlw a Ha Hin).
    + intros k i' Hki. destruct k as [|k]; simpl in Hki.
      * injection Hki as <-.
        exists x, x1, x3, x0, x2, x4. repeat split; try assumption; try reflexivity.
        -- intros cs Hcs. assert (cs = csu) by congruence. subst.
           eapply lookup_weaken; [exact Hau | exact Hsub].
        -- intros cs Hcs. pose proof (lookup_weaken _ _ _ _ Hcs Hsa).
           assert (cs = csl) by congruence. subst.
           eapply lookup_weaken; [exact Hal | exact Hsub].
        -- intros cs Hcs.
           pose proof (lookup_weaken _ _ _ _ (lookup_weaken _ _ _ _ Hcs Hsa) Hsb).
           assert (cs = csw) by congruence. subst.
           eapply lookup_weaken; [exact Haw | exact Hsub].
      * destruct (Hk k i' Hki) as (uin & lin & win & u' & l' & w' & ? & ? & ? & ? & ? & ? & Hcu & Hcl & Hcw).
        exists uin, lin, win, u', l', w'. repeat split; try assumption.
        -- intros cs Hcs. apply Hcu. eapply lookup_weaken; [exact Hcs | exact Hsac].
        -- intros cs Hcs. apply Hcl. eapply lookup_weaken; [exact Hcs | exact Hsac].
        -- intros cs Hcs. apply Hcw. eapply lookup_weaken; [exact Hcs | exact Hsac].
Qed.

(** *** The loops over the stations *)

Lemma for_each_app_Ok {A : Type} (l1 l2 : list A) (body : A -> M unit)
    (h : heap) (x : unit) (h' : heap) :
  for_each (l1 ++ l2) body h = Ok (x, h') ->
  exists h1, for_each l1 body h = Ok ((), h1) /\ for_each l2 body h1 = Ok (x, h').
Proof.
  revert h. induction l1 as [|a l1 IH]; intros h H; simpl in *.
  - exists h. split; [reflexivity | exact H].
  - apply bind_Ok in H as ([] & h1 & H1 & H2).
    destruct (IH _ H2) as (h2 & H3 & H4).
    exists h2. split; [|exact H4].
    rewrite (bind_run _ _ _ _ _ H1). exact H3.
Qed.

(** A loop over the stations whose turn [k] writes only the objects
    [W k]: the turn of station [i] runs on a store that has the objects
    of no other station changed, and these objects are not written
    afterwards. *)
Lemma for_each_station (body : nat -> M unit) (W : nat -> addr -> Prop)
    (n i : nat) (h : heap) (x : unit) (h' : heap) :
  (forall k, writes (W k) (body k)) -> (i < n)%nat ->
  for_each (seq 0 n) body h = Ok (x, h') ->
  exists ha hb,
    body i ha = Ok ((), hb) /\
    forall a, (forall k, k <> i -> ~ W k a) ->
      ha !! a = h !! a /\ h' !! a = hb !! a.
Proof.
  intros Hw Hi H.
  replace n with (i + S (n - S i))%nat in H by lia.
  rewrite seq_app in H. cbn [seq] in H.
  apply for_each_app_Ok in H as (ha & H1 & H2).
  cbn [for_each] in H2. apply bind_Ok in H2 as ([] & hb & H2 & H3).
  exists ha, hb. split; [exact H2|].
  assert (Hothers : forall l y h1 h2, (forall k, k ∈ l -> k <> i) ->
            for_each l body h1 = Ok (y, h2) ->
            forall a, (forall k, k <> i -> ~ W k a) -> h2 !! a = h1 !! a).
  { intros l y h1 h2 Hl Hrun a Ha.
    refine (writes_for_each (fun a => exists k, k <> i /\ W k a) l body
              _ h1 y h2 Hrun a _).
    - intros k Hk. eapply writes_weaken; [|apply Hw]. intros a' Ha'. exists k.
      split; [apply Hl, Hk | exact Ha'].
    - intros (k & Hk & HS). apply (Ha k Hk HS). }
  intros a Ha. split.
  - refine (Hothers _ _ _ _ _ H1 a Ha).
    intros k Hk. apply elem_of_seq in Hk. lia.
  - refine (Hothers _ _ _ _ _ H3 a Ha).
    intros k Hk. apply elem_of_seq in Hk. lia.
Qed.

Lemma writes_scale_station (p : params) (out : unknowns) (k : nat) :
  writes (station_objects out k) (scale_station p out k).
Proof.
  unfold scale_station.
  apply writes_lift_bind. intros upper Hu. apply index_Ok in Hu.
  apply writes_lift_bind. intros lower Hl. apply index_Ok in Hl.
  apply writes_lift_bind. intros webs Hw. apply index_Ok in Hw.
  apply writes_lift_bind. intros c _.
  apply writes_lift_bind. intros cref _.
  apply writes_bind.
  { eapply writes_weaken; [|apply writes_scale_all]. intros a <-. left. exact Hu. }
  intros _. apply writes_bind.
  { eapply writes_weaken; [|apply writes_scale_all]. intros a <-. right. left. exact Hl. }
  intros _.
  eapply writes_weaken; [|apply writes_scale_all]. intros a <-. right. right. exact Hw.
Qed.

Lemma writes_target_station (p : params) (out : unknowns) (k : nat) :
  writes (station_objects out k) (target_station p out k).
Proof.
  unfold target_station.
  apply writes_lift_bind. intros idx_spar _.
  apply writes_lift_bind. intros idx_te _.
  apply writes_lift_bind. intros upper Hu. apply index_Ok in Hu.
  apply writes_lift_bind. intros lower Hl. apply index_Ok in Hl.
  apply writes_bind; [apply writes_deref|]. intros ucs.
  apply writes_lift_bind. intros t_spar _.
  apply writes_lift_bind. intros t_te _.
  apply writes_lift_bind. intros sp _.
  apply writes_bind.
  { eapply writes_weaken; [|apply writes_scale_sector]. intros a <-. left. exact Hu. }
  intros _. apply writes_bind.
  { eapply writes_weaken; [|apply writes_scale_sector]. intros a <-. right. left. exact Hl. }
  intros _. apply writes_lift_bind. intros te _.
  apply writes_bind.
  { eapply writes_weaken; [|apply writes_scale_sector]. intros a <-. left. exact Hu. }
  intros _.
  eapply writes_weaken; [|apply writes_scale_sector]. intros a <-. right. left. exact Hl.
Qed.

Lemma separate_upper (out : unknowns) (i k : nat) (a : addr) :
  separate out -> upperCSOut out !! i = Some a -> k <> i ->
  ~ station_objects out k a.
Proof.
  unfold separate. rewrite !NoDup_app. intros (Hu & Hul & _) Ha Hk [H|[H|H]].
  - apply Hk. eapply NoDup_lookup; eauto.
  - apply (Hul a); [eapply list_elem_of_lookup_2, Ha|].
    rewrite elem_of_app. left. eapply list_elem_of_lookup_2, H.
  - apply (Hul a); [eapply list_elem_of_lookup_2, Ha|].
    rewrite elem_of_app. right. eapply list_elem_of_lookup_2, H.
Qed.

Lemma separate_upper_lower (out : unknowns) (i k : nat) (a b : addr) :
  separate out -> upperCSOut out !! i = Some a -> lowerCSOut out !! k = Some b ->
  a <> b.
Proof.
  unfold separate. rewrite !NoDup_app. intros (_ & Hul & _) Ha Hb ->.
  apply (Hul b); [eapply list_elem_of_lookup_2, Ha|].
  rewrite elem_of_app. left. eapply list_elem_of_lookup_2, Hb.
Qed.

Lemma separate_upper_webs (out : unknowns) (i k : nat) (a b : addr) :
  separate out -> upperCSOut out !! i = Some a -> websCSOut out !! k = Some b ->
  a <> b.
Proof.
  unfold separate. rewrite !NoDup_app. intros (_ & Hul & _) Ha Hb ->.
  apply (Hul b); [eapply list_elem_of_lookup_2, Ha|].
  rewrite elem_of_app. right. eapply list_elem_of_lookup_2, Hb.
Qed.

(** The turn of one station in the second loop, seen from the upper
    laminate. *)
Lemma scale_station_upper (p : params) (out : unknowns) (i : nat) (h : heap)
    (x : unit) (h' : heap) (a : addr) (cs : CompositeSection) :
  separate out -> upperCSOut out !! i = Some a -> h !! a = Some cs ->
  scale_station p out i h = Ok (x, h') ->
  exists c cref,
    chord_str p !! i = Some c /\ chord_str_ref p !! i = Some cref /\
    h' !! a = Some (scale_cs (fin c / fin cref)%fl cs).
Proof.
  intros Hsep Ha Hcs H. unfold scale_station in H. run_inv H.
  apply lift_Ok in Hrun as [Hu ->]. apply index_Ok in Hu.
  apply lift_Ok in Hrun0 as [Hl ->]. apply index_Ok in Hl.
  apply lift_Ok in Hrun1 as [Hw ->]. apply index_Ok in Hw.
  apply lift_Ok in Hrun2 as [Hc ->]. apply index_Ok in Hc.
  apply lift_Ok in Hrun3 as [Hcref ->]. apply index_Ok in Hcref.
  assert (x0 = a) by congruence. subst x0.
  exists x3, x4. split; [exact Hc|]. split; [exact Hcref|].
  rewrite (scale_all_run _ _ _ _ Hcs) in Hrun4. injection Hrun4 as _ <-.
  rewrite (writes_scale_all _ _ _ _ _ H a)
    by (intros <-; eapply separate_upper_webs; eauto).
  rewrite (writes_scale_all _ _ _ _ _ Hrun5 a)
    by (intros <-; eapply separate_upper_lower; eauto).
  apply lookup_insert_eq.
Qed.

Lemma target_station_upper (p : params) (out : unknowns) (i : nat) (h : heap)
    (x : unit) (h' : heap) (a : addr) (cs : CompositeSection) :
  separate out -> upperCSOut out !! i = Some a -> h !! a = Some cs ->
  target_station p out i h = Ok (x, h') ->
  exists sp te js jt,
    sparT_str p !! i = Some sp /\ teT_str p !! i = Some te /\
    sector_idx_strain_spar p !! i = Some js /\
    sector_idx_strain_te p !! i = Some jt /\
    is_Some (t cs !! js) /\ is_Some (t cs !! jt) /\
    h' !! a = Some (target_upper sp te js jt cs).
Proof.
  intros Hsep Ha Hcs H. unfold target_station in H. run_inv H.
  apply lift_Ok in Hrun as [Hjs ->]. apply index_Ok in Hjs.
  apply lift_Ok in Hrun0 as [Hjt ->]. apply index_Ok in Hjt.
  apply lift_Ok in Hrun1 as [Hu ->]. apply index_Ok in Hu.
  apply lift_Ok in Hrun2 as [Hl ->]. apply index_Ok in Hl.
  apply deref_Ok in Hrun3 as [Hucs ->].
  apply lift_Ok in Hrun4 as [Htsp ->]. apply index_Ok in Htsp.
  apply lift_Ok in Hrun5 as [Htte ->]. apply index_Ok in Htte.
  apply lift_Ok in Hrun6 as [Hsp ->]. apply index_Ok in Hsp.
  apply lift_Ok in Hrun9 as [Hte ->]. apply index_Ok in Hte.
  assert (x2 = a) by congruence. subst x2.
  assert (x4 = cs) by congruence. subst x4.
  assert (Hne : a <> x3) by (eapply separate_upper_lower; eauto).
  exists x7, x10, x0, x1.
  do 4 (split; [assumption|]). split; [eauto|]. split; [eauto|].
  apply scale_sector_Ok in Hrun7 as (cs1 & Hcs1 & _ & ->).
  assert (cs1 = cs) by congruence. subst cs1.
  apply scale_sector_Ok in Hrun8 as (cs2 & Hcs2 & _ & ->).
  apply scale_sector_Ok in Hrun10 as (cs3 & Hcs3 & _ & ->).
  apply scale_sector_Ok in H as (cs4 & Hcs4 & _ & ->).
  rewrite lookup_insert_ne in Hcs3 by (intros E; apply Hne; symmetry; exact E).
  rewrite lookup_insert_eq in Hcs3. injection Hcs3 as <-.
  rewrite lookup_insert_ne by (intros E; apply Hne; symmetry; exact E).
  rewrite lookup_insert_eq.
  unfold target_upper. rewrite Htsp, Htte. reflexivity.
Qed.

(** The upper laminate of station [i] in the store that [solve_nonlinear]
    returns: the copy of the input laminate, scaled by the chord ratio and
    then rescaled in the spar-cap and trailing-edge sectors. *)
Lemma solve_upper (p : params) (h : heap) (u : unknowns) (h' : heap)
    (i : nat) (uin : addr) (cs : CompositeSection) :
  solve_nonlinear p h = Ok (u, h') ->
  (i < length (chord_str_ref p))%nat ->
  upperCSIn p !! i = Some uin -> h !! uin = Some cs ->
  exists a c cref sp te js jt,
    upperCSOut u !! i = Some a /\ h !! a = None /\
    chord_str p !! i = Some c /\ chord_str_ref p !! i = Some cref /\
    sparT_str p !! i = Some sp /\ teT_str p !! i = Some te /\
    sector_idx_strain_spar p !! i = Some js /\
    sector_idx_strain_te p !! i = Some jt /\
    is_Some (t (scale_cs (fin c / fin cref)%fl cs) !! js) /\
    is_Some (t (scale_cs (fin c / fin cref)%fl cs) !! jt) /\
    h' !! a = Some (target_upper sp te js jt (scale_cs (fin c / fin cref)%fl cs)).
Proof.
  intros H Hi Huin Hcs. unfold solve_nonlinear in H.
  apply bind_Ok in H as ([[us ls] ws] & h1 & Hcopy & H).
  set (out := {| upperCSOut := us; lowerCSOut := ls; websCSOut := ws |}) in *.
  apply bind_Ok in H as ([] & h2 & Hscale & H).
  apply bind_Ok in H as ([] & h3 & Htarget & H).
  injection H as <- <-.
  destruct (copy_loop_Ok _ _ _ _ _ _ _ Hcopy)
    as (Hlu & Hll & Hlw & Hsub & Hfresh & Hnd & Hk).
  destruct (Hk i i) as (uin' & lin & win & a & l' & w' & Hu1 & _ & _ & Ha & _ & _ & Hcu & _).
  { apply lookup_seq. split; [reflexivity | exact Hi]. }
  assert (uin' = uin) by congruence. subst uin'.
  assert (Hsep : separate out) by exact Hnd.
  assert (Hmine : forall k, k <> i -> ~ station_objects out k a).
  { intros k Hk'. apply (separate_upper out i k a Hsep Ha Hk'). }
  destruct (for_each_station _ _ _ i _ _ _ (writes_scale_station p out) Hi Hscale)
    as (ha & hb & Hbody2 & Hfr2).
  destruct (Hfr2 a Hmine) as [Hha Hh2].
  destruct (scale_station_upper p out i ha () hb a cs Hsep Ha) as (c & cref & Hc & Hcref & Hhb);
    [rewrite Hha; apply Hcu, Hcs | exact Hbody2 |].
  destruct (for_each_station _ _ _ i _ _ _ (writes_target_station p out) Hi Htarget)
    as (hc & hd & Hbody3 & Hfr3).
  destruct (Hfr3 a Hmine) as [Hhc Hh3].
  destruct (target_station_upper p out i hc () hd a
              (scale_cs (fin c / fin cref)%fl cs) Hsep Ha) as
    (sp & te & js & jt & Hsp & Hte & Hjs & Hjt & Hs1 & Hs2 & Hhd);
    [rewrite Hhc, Hh2; exact Hhb | exact Hbody3 |].
  exists a, c, cref, sp, te, js, jt.
  split; [exact Ha|]. split.
  { apply Hfresh. rewrite elem_of_app. left. eapply list_elem_of_lookup_2, Ha. }
  do 6 (split; [assumption|]). split; [exact Hs1|]. split; [exact Hs2|].
  rewrite Hh3. exact Hhd.
Qed.

(** *** Sums of thicknesses *)

Lemma np_sum_fin (xs : list R) : np_sum (fin <$> xs) = fin (Rsum xs).
Proof.
  induction xs as [|x xs IH]; [reflexivity|].
  change (np_sum (fin <$> x :: xs)) with (fadd (fin x) (np_sum (fin <$> xs))).
  rewrite IH. reflexivity.
Qed.

Lemma amuls_fin (xs : list R) (k : R) :
  amuls (fin <$> xs) (fin k) = fin <$> ((fun x => x * k) <$> xs).
Proof.
  unfold amuls. rewrite <- !list_fmap_compose. reflexivity.
Qed.

Lemma Rsum_scale (xs : list R) (k : R) :
  Rsum ((fun x => x * k) <$> xs) = Rsum xs * k.
Proof.
  induction xs as [|x xs IH]; [simpl; lra|].
  change (Rsum ((fun x => x * k) <$> x :: xs))
    with (x * k + Rsum ((fun x => x * k) <$> xs)).
  rewrite IH. simpl. lra.
Qed.

Lemma Rsum_pos (xs : list R) :
  Forall (fun x => 0 < x) xs -> xs <> [] -> 0 < Rsum xs.
Proof.
  intros H. induction H as [|x xs Hx Hxs IH]; intros Hne; [contradiction|].
  simpl. destruct xs as [|y ys]; simpl in *; [lra|].
  assert (0 < y + Rsum ys) by (apply IH; discriminate). lra.
Qed.

(** *** What the loops keep *)

Lemma only_thickness_refl (cs : CompositeSection) : only_thickness cs cs.
Proof. repeat split. Qed.

Lemma only_thickness_trans (cs1 cs2 cs3 : CompositeSection) :
  only_thickness cs1 cs2 -> only_thickness cs2 cs3 -> only_thickness cs1 cs3.
Proof.
  intros (? & ? & ? & ? & ?) (? & ? & ? & ? & ?).
  repeat split; congruence.
Qed.

Lemma only_thickness_scale_sector (j : nat) (k : float) (cs : CompositeSection) :
  only_thickness cs (scale_sector_cs j k cs).
Proof.
  unfold scale_sector_cs. destruct (t cs !! j) as [tj|] eqn:Hj.
  - repeat split. simpl. rewrite list_fmap_insert.
    apply list_insert_id. rewrite list_lookup_fmap, Hj. simpl.
    unfold amuls. rewrite length_fmap. reflexivity.
  - apply only_thickness_refl.
Qed.

Lemma keeps_same {A : Type} (m : M A) :
  (forall h x h', m h = Ok (x, h') -> h' = h) -> keeps m.
Proof.
  intros Hm h x h' H a cs Ha. rewrite (Hm _ _ _ H).
  exists cs. split; [exact Ha | apply only_thickness_refl].
Qed.

Lemma keeps_ret {A : Type} (x : A) : keeps (mret x).
Proof. apply keeps_same. intros h y h' H. injection H as _ <-. reflexivity. Qed.

Lemma keeps_bind {A B : Type} (m : M A) (f : A -> M B) :
  keeps m -> (forall x, keeps (f x)) -> keeps (m ≫= f).
Proof.
  intros Hm Hf h y h' H a cs Ha. apply bind_Ok in H as (x & h1 & H1 & H2).
  destruct (Hm _ _ _ H1 a cs Ha) as (cs1 & Ha1 & Hk1).
  destruct (Hf x _ _ _ H2 a cs1 Ha1) as (cs2 & Ha2 & Hk2).
  exists cs2. split; [exact Ha2 | eapply only_thickness_trans; eauto].
Qed.

Lemma keeps_lift {A : Type} (r : result A) : keeps (lift r).
Proof. apply keeps_same. intros h y h' H. apply lift_Ok in H as [_ ->]. reflexivity. Qed.

Lemma keeps_deref (a : addr) : keeps (deref a).
Proof. apply keeps_same. intros h y h' H. apply deref_Ok in H as [_ ->]. reflexivity. Qed.

Lemma keeps_for_each {A : Type} (l : list A) (body : A -> M unit) :
  (forall x, keeps (body x)) -> keeps (for_each l body).
Proof.
  intros Hb. induction l as [|x l IH]; simpl.
  - apply keeps_ret.
  - apply keeps_bind; [apply Hb | intros _; exact IH].
Qed.

Lemma keeps_scale_sector (a : addr) (j : nat) (k : float) :
  keeps (scale_sector a j k).
Proof.
  intros h x h' H a' cs' Ha'.
  apply scale_sector_Ok in H as (cs & Hcs & _ & ->).
  destruct (decide (a = a')) as [<-|Hne].
  - rewrite lookup_insert_eq. eexists. split; [reflexivity|].
    assert (cs' = cs) by congruence. subst. apply only_thickness_scale_sector.
  - rewrite lookup_insert_ne by exact Hne.
    exists cs'. split; [exact Ha' | apply only_thickness_refl].
Qed.

Lemma keeps_scale_all (a : addr) (factor : float) : keeps (scale_all a factor).
Proof.
  unfold scale_all. apply keeps_bind; [apply keeps_deref|]. intros cs.
  apply keeps_for_each. intros j. apply keeps_scale_sector.
Qed.

Lemma keeps_scale_station (p : params) (out : unknowns) (i : nat) :
  keeps (scale_station p out i).
Proof.
  unfold scale_station.
  do 5 (apply keeps_bind; [apply keeps_lift|]; intros ?).
  do 2 (apply keeps_bind; [apply keeps_scale_all|]; intros ?).
  apply keeps_scale_all.
Qed.

Lemma keeps_target_station (p : params) (out : unknowns) (i : nat) :
  keeps (target_station p out i).
Proof.
  unfold target_station.
  do 4 (apply keeps_bind; [apply keeps_lift|]; intros ?).
  apply keeps_bind; [apply keeps_deref|]; intros ?.
  do 3 (apply keeps_bind; [apply keeps_lift|]; intros ?).
  do 2 (apply keeps_bind; [apply keeps_scale_sector|]; intros ?).
  apply keeps_bind; [apply keeps_lift|]; intros ?.
  apply keeps_bind; [apply keeps_scale_sector|]; intros ?.
  apply keeps_scale_sector.
Qed.

(** *** The run returns on well-formed inputs *)

Lemma kept_refl (h : heap) : kept h h.
Proof. intros a cs Ha. exists cs. split; [exact Ha | apply only_thickness_refl]. Qed.

Lemma kept_step {A : Type} (m : M A) (h0 h : heap) (x : A) (h' : heap) :
  keeps m -> kept h0 h -> m h = Ok (x, h') -> kept h0 h'.
Proof.
  intros Hm Hk H a cs0 Ha. destruct (Hk a cs0 Ha) as (cs & Hcs & Ho).
  destruct (Hm _ _ _ H a cs Hcs) as (cs' & Hcs' & Ho').
  exists cs'. split; [exact Hcs' | eapply only_thickness_trans; eauto].
Qed.

Lemma only_thickness_length (cs cs' : CompositeSection) :
  only_thickness cs cs' -> length (t cs') = length (t cs).
Proof.
  intros (_ & _ & _ & _ & H).
  apply (f_equal length) in H. rewrite !length_fmap in H. exact H.
Qed.

Lemma for_each_returns {A : Type} (l : list A) (body : A -> M unit) (h0 : heap) :
  (forall x, keeps (body x)) ->
  (forall x h, x ∈ l -> kept h0 h -> exists h', body x h = Ok ((), h')) ->
  forall h, kept h0 h -> exists h', for_each l body h = Ok ((), h') /\ kept h0 h'.
Proof.
  intros Hkeeps. induction l as [|x l IH]; intros Hret h Hk.
  - exists h. split; [reflexivity | exact Hk].
  - destruct (Hret x h ltac:(left) Hk) as (h1 & H1).
    destruct (IH ltac:(intros y h2 Hy; apply Hret; right; exact Hy) h1
                (kept_step _ _ _ _ _ (Hkeeps x) Hk H1)) as (h' & H' & Hk').
    exists h'. split; [|exact Hk'].
    cbn [for_each]. rewrite (bind_run _ _ _ _ _ H1). exact H'.
Qed.

Lemma bind_lift_Ok {A B : Type} (x : A) (f : A -> M B) (h : heap) :
  (lift (Ok x) ≫= f) h = f x h.
Proof. reflexivity. Qed.

Lemma scale_sector_returns (a : addr) (j : nat) (k : float) (h : heap)
    (cs : CompositeSection) :
  h !! a = Some cs -> (j < length (t cs))%nat ->
  exists h', scale_sector a j k h = Ok ((), h').
Proof.
  intros Ha Hj. destruct (lookup_lt_is_Some_2 _ _ Hj) as [tj Htj].
  eexists. apply (scale_sector_run a j k h cs tj Ha Htj).
Qed.

Lemma scale_station_returns (p : params) (out : unknowns) (i : nat) (h : heap)
    (a b c : addr) (x y : R) :
  upperCSOut out !! i = Some a -> lowerCSOut out !! i = Some b ->
  websCSOut out !! i = Some c ->
  chord_str p !! i = Some x -> chord_str_ref p !! i = Some y ->
  is_Some (h !! a) -> is_Some (h !! b) -> is_Some (h !! c) ->
  exists h', scale_station p out i h = Ok ((), h').
Proof.
  intros Ha Hb Hc Hx Hy [csa Hcsa] [csb Hcsb] [csc Hcsc].
  unfold scale_station.
  rewrite (index_lookup _ _ _ Ha), bind_lift_Ok.
  rewrite (index_lookup _ _ _ Hb), bind_lift_Ok.
  rewrite (index_lookup _ _ _ Hc), bind_lift_Ok.
  rewrite (index_lookup _ _ _ Hx), bind_lift_Ok.
  rewrite (index_lookup _ _ _ Hy), bind_lift_Ok.
  pose proof (scale_all_run a (fin x / fin y)%fl h csa Hcsa) as H1.
  rewrite (bind_run _ _ _ _ _ H1).
  destruct (keeps_scale_all _ _ _ _ _ H1 b csb Hcsb) as (csb' & Hcsb' & _).
  pose proof (scale_all_run b (fin x / fin y)%fl _ csb' Hcsb') as H2.
  rewrite (bind_run _ _ _ _ _ H2).
  destruct (keeps_scale_all _ _ _ _ _ H1 c csc Hcsc) as (csc1 & Hcsc1 & _).
  destruct (keeps_scale_all _ _ _ _ _ H2 c csc1 Hcsc1) as (csc2 & Hcsc2 & _).
  rewrite (scale_all_run c (fin x / fin y)%fl _ csc2 Hcsc2).
  eauto.
Qed.

Lemma target_station_returns (p : params) (out : unknowns) (i : nat) (h : heap)
    (a b : addr) (csa csb : CompositeSection) (sp te : R) (js jt : nat) :
  upperCSOut out !! i = Some a -> lowerCSOut out !! i = Some b ->
  sparT_str p !! i = Some sp -> teT_str p !! i = Some te ->
  sector_idx_strain_spar p !! i = Some js ->
  sector_idx_strain_te p !! i = Some jt ->
  h !! a = Some csa -> h !! b = Some csb ->
  (js < length (t csa))%nat -> (jt < length (t csa))%nat ->
  (js < length (t csb))%nat -> (jt < length (t csb))%nat ->
  exists h', target_station p out i h = Ok ((), h').
Proof.
  intros Ha Hb Hsp Hte Hjs Hjt Hcsa Hcsb Hsa Hta Hsb Htb.
  destruct (lookup_lt_is_Some_2 _ _ Hsa) as [tsp Htsp].
  destruct (lookup_lt_is_Some_2 _ _ Hta) as [tte Htte].
  unfold target_station.
  rewrite (index_lookup _ _ _ Hjs), bind_lift_Ok.
  rewrite (index_lookup _ _ _ Hjt), bind_lift_Ok.
  rewrite (index_lookup _ _ _ Ha), bind_lift_Ok.
  rewrite (index_lookup _ _ _ Hb), bind_lift_Ok.
  rewrite (bind_run _ _ _ _ _ (deref_run _ _ _ Hcsa)).
  rewrite (index_lookup _ _ _ Htsp), bind_lift_Ok.
  rewrite (index_lookup _ _ _ Htte), bind_lift_Ok.
  rewrite (index_lookup _ _ _ Hsp), bind_lift_Ok.
  destruct (scale_sector_returns a js (fin sp / np_sum tsp)%fl h csa Hcsa Hsa)
    as (h1 & H1).
  rewrite (bind_run _ _ _ _ _ H1).
  destruct (keeps_scale_sector _ _ _ _ _ _ H1 b csb Hcsb) as (csb1 & Hcsb1 & Hob1).
  destruct (keeps_scale_sector _ _ _ _ _ _ H1 a csa Hcsa) as (csa1 & Hcsa1 & Hoa1).
  destruct (scale_sector_returns b js (fin sp / np_sum tsp)%fl h1 csb1 Hcsb1)
    as (h2 & H2); [rewrite (only_thickness_length _ _ Hob1); exact Hsb|].
  rewrite (bind_run _ _ _ _ _ H2).
  destruct (keeps_scale_sector _ _ _ _ _ _ H2 b csb1 Hcsb1) as (csb2 & Hcsb2 & Hob2).
  destruct (keeps_scale_sector _ _ _ _ _ _ H2 a csa1 Hcsa1) as (csa2 & Hcsa2 & Hoa2).
  rewrite (index_lookup _ _ _ Hte), bind_lift_Ok.
  destruct (scale_sector_returns a jt (fin te / np_sum tte)%fl h2 csa2 Hcsa2)
    as (h3 & H3).
  { rewrite (only_thickness_length _ _ Hoa2), (only_thickness_length _ _ Hoa1).
    exact Hta. }
  rewrite (bind_run _ _ _ _ _ H3).
  destruct (keeps_scale_sector _ _ _ _ _ _ H3 b csb2 Hcsb2) as (csb3 & Hcsb3 & Hob3).
  destruct (scale_sector_returns b jt (fin te / np_sum tte)%fl h3 csb3 Hcsb3)
    as (h4 & H4).
  { rewrite (only_thickness_length _ _ Hob3), (only_thickness_length _ _ Hob2),
      (only_thickness_length _ _ Hob1). exact Htb. }
  rewrite H4. eauto.
Qed.

Lemma copy_loop_returns (p : params) (l : list nat) :
  forall h,
    (forall i, i ∈ l ->
       exists uin lin win,
         upperCSIn p !! i = Some uin /\ lowerCSIn p !! i = Some lin /\
         websCSIn p !! i = Some win /\
         is_Some (h !! uin) /\ is_Some (h !! lin) /\ is_Some (h !! win)) ->
    exists r h1, copy_loop p l h = Ok (r, h1).
Proof.
  induction l as [|i l IH]; intros h Hwf.
  - eexists _, _. reflexivity.
  - destruct (Hwf i ltac:(left))
      as (uin & lin & win & Hu & Hl & Hw & [csu Hcsu] & [csl Hcsl] & [csw Hcsw]).
    assert (Hcopy : forall a cs h0, h0 !! a = Some cs ->
              exists a', mycopy a h0 = Ok (a', <[a' := cs]> h0) /\ h0 !! a' = None).
    { intros a cs h0 Ha. exists (fresh (dom h0)). split.
      - unfold mycopy. rewrite (bind_run _ _ _ _ _ (deref_run _ _ _ Ha)). reflexivity.
      - apply not_elem_of_dom, is_fresh. }
    destruct (Hcopy uin csu h Hcsu) as (u' & Hu' & Hfu).
    set (ha := <[u' := csu]> h) in *.
    assert (Hsa : h ⊆ ha) by (apply insert_subseteq; exact Hfu).
    destruct (Hcopy lin csl ha (lookup_weaken _ _ _ _ Hcsl Hsa)) as (l' & Hl' & Hfl).
    set (hb := <[l' := csl]> ha) in *.
    assert (Hsb : ha ⊆ hb) by (apply insert_subseteq; exact Hfl).
    assert (Hsab : h ⊆ hb) by (etrans; [exact Hsa | exact Hsb]).
    destruct (Hcopy win csw hb (lookup_weaken _ _ _ _ Hcsw Hsab)) as (w' & Hw' & Hfw).
    set (hc := <[w' := csw]> hb) in *.
    assert (Hsc : hb ⊆ hc) by (apply insert_subseteq; exact Hfw).
    assert (Hsac : h ⊆ hc) by (etrans; [exact Hsab | exact Hsc]).
    destruct (IH hc) as ([[us ls] ws] & h1 & Hrest).
    { intros k Hk. destruct (Hwf k ltac:(right; exact Hk))
        as (uk & lk & wk & ? & ? & ? & [c1 H1] & [c2 H2] & [c3 H3]).
      exists uk, lk, wk. do 3 (split; [assumption|]).
      split; [|split]; eexists; eapply lookup_weaken; eauto. }
    cbn [copy_loop].
    rewrite (index_lookup _ _ _ Hu), bind_lift_Ok. rewrite (bind_run _ _ _ _ _ Hu').
    rewrite (index_lookup _ _ _ Hl), bind_lift_Ok. rewrite (bind_run _ _ _ _ _ Hl').
    rewrite (index_lookup _ _ _ Hw), bind_lift_Ok. rewrite (bind_run _ _ _ _ _ Hw').
    rewrite (bind_run _ _ _ _ _ Hrest). eexists _, _. reflexivity.
Qed.

(** On well-formed inputs ResizeCompositeSection.solve_nonlinear returns. *)
Lemma resize_returns (p : params) (h : heap) :
  well_formed p h -> exists u h', solve_nonlinear p h = Ok (u, h').
Proof.
  intros Hwf. set (n := length (chord_str_ref p)).
  destruct (copy_loop_returns p (seq 0 n) h) as ([[us ls] ws] & h1 & Hcopy).
  { intros i Hi. apply elem_of_seq in Hi.
    destruct (Hwf i ltac:(unfold n in Hi; lia))
      as (uin & lin & win & csu & csl & csw & _ & _ & _ & _ & _ & ? & ? & ? & ? & ? & ? & _).
    exists uin, lin, win. repeat split; eauto. }
  set (out := {| upperCSOut := us; lowerCSOut := ls; websCSOut := ws |}).
  destruct (copy_loop_Ok _ _ _ _ _ _ _ Hcopy)
    as (Hlu & Hll & Hlw & Hsub & Hfresh & Hnd & Hk).
  (* the objects of station [i] in the store after the copy loop *)
  assert (Hst : forall i, (i < n)%nat ->
            exists a b c csa csb csw x y sp te js jt,
              us !! i = Some a /\ ls !! i = Some b /\ ws !! i = Some c /\
              h1 !! a = Some csa /\ h1 !! b = Some csb /\ h1 !! c = Some csw /\
              chord_str p !! i = Some x /\ chord_str_ref p !! i = Some y /\
              sparT_str p !! i = Some sp /\ teT_str p !! i = Some te /\
              sector_idx_strain_spar p !! i = Some js /\
              sector_idx_strain_te p !! i = Some jt /\
              (js < length (t csa))%nat /\ (jt < length (t csa))%nat /\
              (js < length (t csb))%nat /\ (jt < length (t csb))%nat).
  { intros i Hi.
    destruct (Hwf i Hi) as (uin & lin & win & csu & csl & csw & c & sp & te & js & jt
      & Hu & Hl & Hw & Hcsu & Hcsl & Hcsw & Hc & Hsp & Hte & Hjs & Hjt & ? & ? & ? & ?).
    destruct (Hk i i) as (uin' & lin' & win' & a & b & c' & Hu' & Hl' & Hw' & Ha & Hb & Hc'
      & Hcu & Hcl & Hcw).
    { apply lookup_seq. split; [reflexivity | exact Hi]. }
    assert (uin' = uin) by congruence. assert (lin' = lin) by congruence.
    assert (win' = win) by congruence. subst.
    destruct (lookup_lt_is_Some_2 (chord_str_ref p) i Hi) as [y Hy].
    exists a, b, c', csu, csl, csw, c, y, sp, te, js, jt.
    repeat split; auto. }
  destruct (for_each_returns (seq 0 n) (scale_station p out) h1
              (keeps_scale_station p out)) with (h := h1) as (h2 & Hscale & Hk2).
  { intros i hx Hi Hkx. apply elem_of_seq in Hi.
    destruct (Hst i ltac:(lia)) as (a & b & c & csa & csb & csw & x & y & sp & te & js & jt
      & Ha & Hb & Hc & Hcsa & Hcsb & Hcsw & Hx & Hy & _).
    destruct (Hkx a csa Hcsa) as (? & ? & _).
    destruct (Hkx b csb Hcsb) as (? & ? & _).
    destruct (Hkx c csw Hcsw) as (? & ? & _).
    eapply (scale_station_returns p out i hx a b c x y); eauto. }
  { apply kept_refl. }
  destruct (for_each_returns (seq 0 n) (target_station p out) h1
              (keeps_target_station p out)) with (h := h2) as (h3 & Htarget & Hk3).
  { intros i hx Hi Hkx. apply elem_of_seq in Hi.
    destruct (Hst i ltac:(lia)) as (a & b & c & csa & csb & csw & x & y & sp & te & js & jt
      & Ha & Hb & Hc & Hcsa & Hcsb & Hcsw & Hx & Hy & Hsp & Hte & Hjs & Hjt & ? & ? & ? & ?).
    destruct (Hkx a csa Hcsa) as (csa' & Hcsa' & Hoa).
    destruct (Hkx b csb Hcsb) as (csb' & Hcsb' & Hob).
    eapply (target_station_returns p out i hx a b csa' csb' sp te js jt); eauto;
      rewrite ?(only_thickness_length _ _ Hoa), ?(only_thickness_length _ _ Hob);
      assumption. }
  { exact Hk2. }
  exists out, h3. unfold solve_nonlinear. fold n.
  rewrite (bind_run _ _ _ _ _ Hcopy). fold out.
  rewrite (bind_run _ _ _ _ _ Hscale).
  rewrite (bind_run _ _ _ _ _ Htarget). reflexivity.
Qed.

(** *** The claims on the resizer *)

(** C2, as the code has it.  Take a station with positive reference chord,
    positive chord and positive targets, whose spar-cap and trailing-edge
    sectors are two different sectors of the upper laminate, each holding at
    least one ply, all of positive thickness.  The run returns on
    well-formed inputs, and the output upper laminate has the plies of the
    spar-cap sector in their input proportions with the sum sparT_str[i],
    those of the trailing-edge sector with the sum teT_str[i] (the chord
    ratio, applied first, has no effect left on these two sectors), and
    every other sector scaled by the chord ratio. *)
Theorem resize_hits_targets (p : params) (h : heap)
    (i : nat) (uin : addr) (cs : CompositeSection)
    (c cref sp te : R) (js jt : nat) (xs ys : list R) :
  chord_str_ref p !! i = Some cref -> 0 < cref ->
  chord_str p !! i = Some c -> 0 < c ->
  sparT_str p !! i = Some sp -> 0 < sp ->
  teT_str p !! i = Some te -> 0 < te ->
  sector_idx_strain_spar p !! i = Some js ->
  sector_idx_strain_te p !! i = Some jt ->
  js <> jt ->
  upperCSIn p !! i = Some uin -> h !! uin = Some cs ->
  t cs !! js = Some (fin <$> xs) -> Forall (fun x => 0 < x) xs -> xs <> [] ->
  t cs !! jt = Some (fin <$> ys) -> Forall (fun y => 0 < y) ys -> ys <> [] ->
  (well_formed p h -> exists u h', solve_nonlinear p h = Ok (u, h')) /\
  forall u h', solve_nonlinear p h = Ok (u, h') ->
  exists a cs',
    upperCSOut u !! i = Some a /\ h' !! a = Some cs' /\
    t cs' !! js = Some (fin <$> ((fun x => x * (sp / Rsum xs)) <$> xs)) /\
    t cs' !! jt = Some (fin <$> ((fun y => y * (te / Rsum ys)) <$> ys)) /\
    np_sum <$> t cs' !! js = Some (fin sp) /\
    np_sum <$> t cs' !! jt = Some (fin te) /\
    forall j tj, j <> js -> j <> jt -> t cs !! j = Some tj ->
      t cs' !! j = Some (amuls tj (fin (c / cref))).
Proof.
  intros Hcref Hcrefp Hc Hcp Hsp Hspp Hte Htep Hjs Hjt Hne Huin Hcs
    Hxs Hxp Hxn Hys Hyp Hyn.
  split; [apply resize_returns|]. intros u h' H.
  destruct (solve_upper p h u h' i uin cs H) as
    (a & c' & cref' & sp' & te' & js' & jt' & Ha & _ & Hc' & Hcref' & Hsp' & Hte'
       & Hjs' & Hjt' & _ & _ & Hfinal);
    [eapply lookup_lt_Some, Hcref | exact Huin | exact Hcs |].
  assert (c' = c) by congruence. assert (cref' = cref) by congruence.
  assert (sp' = sp) by congruence. assert (te' = te) by congruence.
  assert (js' = js) by congruence. assert (jt' = jt) by congruence. subst.
  clear Hc' Hcref' Hsp' Hte' Hjs' Hjt'.
  rewrite fdiv_fin in Hfinal by lra.
  set (f := c / cref) in *.
  assert (Hf : 0 < f) by (apply Rdiv_lt_0_compat; assumption).
  pose proof (Rsum_pos xs Hxp Hxn) as HSx.
  pose proof (Rsum_pos ys Hyp Hyn) as HSy.
  set (cs2 := scale_cs (fin f) cs) in *.
  assert (Ht2 : forall j tj, t cs !! j = Some tj -> t cs2 !! j = Some (amuls tj (fin f))).
  { intros j tj Hj. unfold cs2, scale_cs. simpl. rewrite list_lookup_fmap, Hj. reflexivity. }
  assert (H2s : t cs2 !! js = Some (fin <$> ((fun x => x * f) <$> xs))).
  { rewrite (Ht2 _ _ Hxs), amuls_fin. reflexivity. }
  assert (H2t : t cs2 !! jt = Some (fin <$> ((fun x => x * f) <$> ys))).
  { rewrite (Ht2 _ _ Hys), amuls_fin. reflexivity. }
  unfold target_upper in Hfinal. rewrite H2s, H2t in Hfinal.
  rewrite !np_sum_fin, !Rsum_scale in Hfinal.
  rewrite !fdiv_fin in Hfinal by nra.
  unfold scale_sector_cs at 2 in Hfinal. rewrite H2s in Hfinal.
  unfold scale_sector_cs in Hfinal. cbn [t set_t] in Hfinal.
  rewrite list_lookup_insert_ne in Hfinal by exact Hne.
  rewrite H2t in Hfinal. rewrite !amuls_fin in Hfinal.
  assert (Hljs : (js < length (t cs2))%nat) by (eapply lookup_lt_Some, H2s).
  assert (Hljt : (jt < length (t cs2))%nat) by (eapply lookup_lt_Some, H2t).
  assert (Ex : (fun x => x * (sp / (Rsum xs * f))) <$> ((fun x => x * f) <$> xs)
               = (fun x => x * (sp / Rsum xs)) <$> xs).
  { rewrite <- list_fmap_compose. apply list_fmap_ext. intros _ x _. simpl.
    field. split; lra. }
  assert (Ey : (fun y => y * (te / (Rsum ys * f))) <$> ((fun y => y * f) <$> ys)
               = (fun y => y * (te / Rsum ys)) <$> ys).
  { rewrite <- list_fmap_compose. apply list_fmap_ext. intros _ y _. simpl.
    field. split; lra. }
  rewrite Ex, Ey in Hfinal.
  eexists a, _. split; [exact Ha|]. split; [exact Hfinal|]. cbn [t set_t].
  rewrite list_lookup_insert_ne by (intros E; apply Hne; symmetry; exact E).
  rewrite list_lookup_insert_eq by exact Hljs.
  rewrite list_lookup_insert_eq by (rewrite length_insert; exact Hljt).
  split; [reflexivity|]. split; [reflexivity|].
  split; [|split].
  - cbn. rewrite np_sum_fin, Rsum_scale. unfold fin. do 2 f_equal. field. lra.
  - cbn. rewrite np_sum_fin, Rsum_scale. unfold fin. do 2 f_equal. field. lra.
  - intros j tj Hj1 Hj2 Hj.
    rewrite list_lookup_insert_ne by (intros E; apply Hj2; symmetry; exact E).
    rewrite list_lookup_insert_ne by (intros E; apply Hj1; symmetry; exact E).
    apply Ht2, Hj.
Qed.

(** Evaluate a run on concrete data: compute, and decide the comparisons
    of real numbers that are left. *)
Ltac eval_run H :=
  vm_compute in H;
  repeat (match type of H with
          | context [Req_dec_T ?a ?b] =>
              destruct (Req_dec_T a b) as [?Hz|?Hz];
              [exfalso; lra | ]; vm_compute in H
          end).

Lemma well_formed_p_two : well_formed p_two (store_of lam_two).
Proof.
  intros i Hi. simpl in Hi. assert (i = 0%nat) by lia. subst i.
  exists 0%nat, 1%nat, 2%nat, lam_two, lam_two, lam_two, 2, 4, 3, 0%nat, 1%nat.
  repeat split; first [reflexivity | simpl; lia].
Qed.

Lemma resize_hits_targets_witness :
  exists u h' a cs',
    solve_nonlinear p_two (store_of lam_two) = Ok (u, h') /\
    upperCSOut u !! 0%nat = Some a /\ h' !! a = Some cs' /\
    np_sum <$> t cs' !! 0%nat = Some (fin 4) /\
    np_sum <$> t cs' !! 1%nat = Some (fin 3).
Proof.
  destruct (resize_hits_targets p_two (store_of lam_two) 0 0 lam_two
              2 1 4 3 0 1 [1; 1] [2]) as [Hret Hpost];
    try reflexivity; try lra; try discriminate.
  - repeat constructor; lra.
  - repeat constructor; lra.
  - destruct (Hret well_formed_p_two) as (u & h' & H).
    destruct (Hpost u h' H) as (a & cs' & Ha & Hcs' & _ & _ & Hs & Ht & _).
    exists u, h', a, cs'. auto.
Defined.

(** C2 as the specification words it fails when the two sectors are the
    same one: with one ply of thickness 1, equal chords and the targets 2 and
    3, the sector is scaled by 2/1 and then by 3/1 (both sums are taken
    before either rescaling), and its sum is 6, neither 2 nor 3. *)
Lemma resize_same_sector_counterexample :
  exists u h' cs',
    solve_nonlinear p_same (store_of lam_one) = Ok (u, h') /\
    upperCSOut u = [3%nat] /\ h' !! 3%nat = Some cs' /\
    t cs' = [[fin 6]] /\
    np_sum <$> t cs' !! 0%nat <> Some (fin 2) /\
    np_sum <$> t cs' !! 0%nat <> Some (fin 3).
Proof.
  destruct (solve_nonlinear p_same (store_of lam_one)) as [[u h']|e] eqn:H.
  2:{ exfalso. eval_run H. discriminate. }
  eval_run H. injection H as <- <-.
  eexists _, _, _. split; [reflexivity|]. split; [reflexivity|].
  split; [vm_compute; reflexivity|].
  cbn [t].
  assert (E : R1 * (R1 * / R1) * ((R1 + R1) * / (R1 * (R1 * / R1) + R0))
              * ((R1 + (R1 + R1)) * / (R1 * (R1 * / R1) + R0)) = 6).
  { field. }
  rewrite E.
  split; [reflexivity|].
  split; vm_compute; intros Hq; injection Hq as Hq; lra.
Qed.



(** * Further properties of the components *)

(** ** Grid mapper: where it returns *)

(** The inner loop run to its end: no grid value reaches [r]. *)
Lemma find_j_exhaust (r_aug : list R) (r : R) (n k : nat) (j0 : option nat) :
  (k + n)%nat = length r_aug ->
  Forall (fun a => a < r) r_aug ->
  GridSetup.find_j r_aug r (seq k n) j0
  = match n with
    | O => match j0 with Some j => Ok j | None => Raise UnboundLocalError end
    | S _ => Ok (k + n - 1)%nat
    end.
Proof.
  revert k j0. induction n as [|n IH]; intros k j0 Hlen Hall; [reflexivity|].
  cbn [seq GridSetup.find_j].
  destruct (r_aug !! k) as [a|] eqn:Ha.
  2:{ apply lookup_ge_None in Ha. lia. }
  rewrite (index_lookup _ _ _ Ha). cbn [mbind result_bind].
  assert (a < r).
  { rewrite Forall_forall in Hall. apply Hall. eapply list_elem_of_lookup_2, Ha. }
  destruct (Rge_dec a r) as [Hge|_]; [lra|].
  rewrite (IH (S k) (Some k)) by (assumption || lia).
  destruct n; f_equal; lia.
Qed.

Lemma find_j_error (r_aug : list R) (r : R) (js : list nat) (j0 : option nat)
    (e : exn) :
  GridSetup.find_j r_aug r js j0 = Raise e ->
  e = IndexError \/ (e = UnboundLocalError /\ js = [] /\ j0 = None).
Proof.
  revert j0. induction js as [|j' js IH]; intros j0 H.
  - simpl in H. destruct j0; [discriminate|]. injection H as <-. auto.
  - simpl in H. unfold index in H.
    destruct (r_aug !! j') as [a|]; cbn [mbind result_bind] in H.
    + destruct (Rge_dec a r); [discriminate|].
      destruct (IH _ H) as [?|(_ & _ & ?)]; [auto | discriminate].
    + injection H as <-. auto.
Qed.

(** The range of the inner loop is never empty, so the loop variable is
    bound when it is read. *)
Lemma find_j_range_error (aero : list R) (r : R) (j0 : option nat) (e : exn) :
  GridSetup.find_j (augment aero) r (seq 1 (length (augment aero) - 1)) j0
    = Raise e ->
  e = IndexError.
Proof.
  intros H. apply find_j_error in H as [?|(_ & Hs & _)]; [assumption|].
  rewrite augment_length in Hs.
  replace (length aero + 2 - 1)%nat with (S (length aero)) in Hs by lia.
  discriminate.
Qed.

Lemma loop_beyond (aero r_str : list R) (j0 : option nat) :
  Exists (fun r => Forall (fun a => a < r) (augment aero)) r_str ->
  GridSetup.loop (augment aero) r_str j0 = Raise IndexError.
Proof.
  intros Hex. revert j0. induction Hex as [r r_str Hr|r r_str Hex IH]; intros j0.
  - cbn [GridSetup.loop].
    rewrite (find_j_exhaust (augment aero) r _ 1 j0)
      by (rewrite ?augment_length; (lia || assumption)).
    rewrite augment_length.
    replace (length aero + 2 - 1)%nat with (S (length aero)) by lia.
    cbn [mbind result_bind].
    replace (1 + S (length aero) - 1)%nat with (length aero + 1)%nat by lia.
    rewrite (index_lookup _ _ _ (augment_last aero)). cbn [mbind result_bind].
    unfold index.
    rewrite (proj2 (lookup_ge_None _ _)) by (rewrite augment_length; lia).
    reflexivity.
  - cbn [GridSetup.loop].
    destruct (GridSetup.find_j _ _ _ _) as [j|e'] eqn:Hj; cbn [mbind result_bind].
    + unfold index.
      destruct (augment aero !! j); cbn [mbind result_bind]; [|reflexivity].
      destruct (augment aero !! (j + 1)%nat); cbn [mbind result_bind]; [|reflexivity].
      rewrite IH. reflexivity.
    + apply find_j_range_error in Hj as ->. reflexivity.
Qed.

Lemma loop_returns (aero r_str : list R) (j0 : option nat) :
  Forall (fun r => r <= 1) r_str ->
  exists jf, GridSetup.loop (augment aero) r_str j0 = Ok jf /\
             length jf = length r_str /\
             Forall (fun p : nat * float => (p.1 <= length aero)%nat) jf.
Proof.
  revert j0. induction r_str as [|r r_str IH]; intros j0 Hb.
  - exists []. repeat split; constructor.
  - inversion Hb as [|? ? Hr Hb']; subst.
    destruct (find_j_Ok (augment aero) r (length (augment aero) - 1) 1 j0)
      as (j & b & Hj & Hb2 & _ & _).
    { rewrite augment_length. lia. }
    { lia. }
    { intros k' x Hk'. lia. }
    { exists (length aero + 1)%nat, 1.0. split; [lia|].
      split; [apply augment_last | lra]. }
    assert (Hlt : (j + 1 < length (augment aero))%nat) by (eapply lookup_lt_Some, Hb2).
    rewrite augment_length in Hlt.
    destruct (lookup_lt_is_Some_2 (augment aero) j) as [a Ha];
      [rewrite augment_length; lia|].
    destruct (IH (Some j) Hb') as (jf & Hjf & Hlen & Hall).
    eexists. split; [|split].
    + cbn [GridSetup.loop]. rewrite Hj. cbn [mbind result_bind].
      rewrite (index_lookup _ _ _ Ha). cbn [mbind result_bind].
      rewrite (index_lookup _ _ _ Hb2). cbn [mbind result_bind].
      rewrite Hjf. reflexivity.
    + simpl. f_equal. exact Hlen.
    + constructor; [simpl; lia | exact Hall].
Qed.

(** X1.  For an aerodynamic grid with no point beyond 1,
    GridSetup.solve_nonlinear returns exactly when no structural point is
    beyond 1, whatever the order of the points and also for points below 0:
    it then gives one index, at most naero, and one fraction for every
    structural point.  A structural point beyond 1 runs the inner loop to
    its end and the read of r_aug[j+1] raises IndexError. *)
Theorem grid_setup_domain (aero r_str : list R) :
  Forall (fun a => a <= 1) aero ->
  (Forall (fun r => r <= 1) r_str ->
   exists u, GridSetup.solve_nonlinear aero r_str = Ok u /\
             length (GridSetup.idxj u) = length r_str /\
             length (GridSetup.fraction u) = length r_str /\
             Forall (fun j => (j <= length aero)%nat) (GridSetup.idxj u)) /\
  (~ Forall (fun r => r <= 1) r_str ->
   GridSetup.solve_nonlinear aero r_str = Raise IndexError).
Proof.
  intros Haero. split.
  - intros Hb. destruct (loop_returns aero r_str None Hb) as (jf & Hjf & Hlen & Hall).
    unfold GridSetup.solve_nonlinear. rewrite Hjf. cbn [mbind result_bind].
    eexists. split; [reflexivity|]. simpl. rewrite !length_fmap.
    repeat split; try assumption.
    rewrite Forall_fmap. exact Hall.
  - intros Hn. unfold GridSetup.solve_nonlinear.
    rewrite loop_beyond; [reflexivity|].
    apply not_Forall_Exists in Hn; [|intros r; apply Rle_dec].
    eapply Exists_impl; [exact Hn|]. simpl. intros r Hr.
    unfold augment. constructor; [lra|].
    apply Forall_app. split.
    + eapply Forall_impl; [exact Haero|]. simpl. intros; lra.
    + constructor; [lra | constructor].
Qed.

Lemma grid_setup_domain_witness :
  (exists u, GridSetup.solve_nonlinear [0.5] [0.25; -1] = Ok u /\
             length (GridSetup.idxj u) = 2%nat) /\
  GridSetup.solve_nonlinear [0.5] [0.25; 2] = Raise IndexError.
Proof.
  assert (Ha : Forall (fun a => a <= 1) [0.5]) by (constructor; [lra | constructor]).
  split.
  - destruct (proj1 (grid_setup_domain [0.5] [0.25; -1] Ha)) as (u & Hu & Hlen & _).
    + constructor; [lra|]. constructor; [lra | constructor].
    + exists u. split; [exact Hu | exact Hlen].
  - apply (proj2 (grid_setup_domain [0.5] [0.25; 2] Ha)).
    intros H. inversion H as [|? ? _ H2]; subst.
    inversion H2 as [|? ? H3 _]; subst. lra.
Defined.

(** ** Grid mapper: fractions and the remapped grid *)

(** What the outer loop stores, when no bracket is degenerate. *)
Lemma mapped_fin (aero : list R) (r : R) (p : nat * float) :
  aero !! 0%nat <> Some 0 -> mapped aero r p ->
  exists a b,
    augment aero !! p.1 = Some a /\ augment aero !! (p.1 + 1)%nat = Some b /\
    (if decide (p.1 = 0%nat) then a <= r else a < r) /\ r <= b /\ a < b /\
    p.2 = fin ((r - a) / (b - a)).
Proof.
  intros H0 (a & b & Ha & Hb & Har & Hrb & Hf).
  exists a, b. do 4 (split; [assumption|]).
  assert (Hw : b - a <> 0).
  { intros Hw. destruct (mapped_width aero r p a b Ha Hb Har Hrb Hw) as [_ E].
    contradiction. }
  split.
  - destruct (decide (p.1 = 0%nat)); lra.
  - rewrite Hf. apply fdiv_fin, Hw.
Qed.

Lemma fraction_bounds (r a b : R) :
  a <= r -> r <= b -> a < b -> 0 <= (r - a) / (b - a) <= 1.
Proof.
  intros H1 H2 H3.
  assert (Hq : (r - a) / (b - a) * (b - a) = r - a) by (field; lra).
  split; apply Rmult_le_reg_r with (b - a); try lra; rewrite Hq; lra.
Qed.



Lemma augment_strict (aero : list R) (i j : nat) (x y : R) :
  StronglySorted Rlt aero -> Forall (fun a => 0 < a < 1) aero -> (i < j)%nat ->
  augment aero !! i = Some x -> augment aero !! j = Some y -> x < y.
Proof.
  intros Hs Hb Hij Hi Hj.
  apply (StronglySorted_lookup_lt Rlt (augment aero) i j x y); try assumption.
  unfold augment. simpl. constructor.
  - clear Hi Hj. induction Hs as [|a l Hs IH Hall]; simpl.
    + constructor; [constructor | constructor].
    + inversion Hb as [|? ? Ha Hb']; subst. constructor.
      * apply IH. exact Hb'.
      * apply Forall_app. split; [exact Hall|].
        constructor; [lra | constructor].
  - apply Forall_app. split.
    + eapply Forall_impl; [exact Hb|]. simpl. intros; lra.
    + constructor; [lra | constructor].
Qed.


Lemma unit_grid_quarters : unit_grid [0.25; 0.75].
Proof.
  split.
  - constructor; [constructor; constructor|].
    constructor; [lra | constructor].
  - constructor; [lra|]. constructor; [lra | constructor].
Qed.

Lemma unit_grid_sixth : unit_grid [0.6].
Proof.
  split.
  - constructor; constructor.
  - constructor; [lra | constructor].
Qed.


(** ** RGrid: where it returns, and its Jacobian *)

Lemma mapM_Raise {A B : Type} (f : A -> result B) (l : list A) (e : exn) :
  (forall x, x ∈ l -> (exists y, f x = Ok y) \/ f x = Raise e) ->
  (exists x, x ∈ l /\ f x = Raise e) ->
  mapM f l = Raise e.
Proof.
  induction l as [|a l IH]; intros Hall (x & Hx & Hfx); [inversion Hx|].
  cbn. destruct (Hall a) as [[y Hy]|Hr]; [left| |].
  - rewrite Hy. cbn. rewrite IH; [reflexivity | |].
    + intros z Hz. apply Hall. right. exact Hz.
    + apply elem_of_cons in Hx as [->|Hx]; [congruence|]. eauto.
  - rewrite Hr. reflexivity.
Qed.

Lemma index_None {A : Type} (l : list A) (i : nat) :
  l !! i = None -> index l i = Raise IndexError.
Proof. unfold index. intros ->. reflexivity. Qed.

(** One turn of the loop of RGrid.solve_nonlinear that returns. *)
Lemma rgrid_turn (aero : list R) (fraction : array) (idxj : list nat) (i : nat)
    (y : float) :
  (j ← index idxj i;
   a ← index (augment aero) j;
   f ← index fraction i;
   b ← index (augment aero) (j + 1);
   Ok (fin a + f * fin (b - a))%fl) = Ok y ->
  exists j a f b,
    idxj !! i = Some j /\ augment aero !! j = Some a /\ fraction !! i = Some f /\
    augment aero !! (j + 1)%nat = Some b /\ y = (fin a + f * fin (b - a))%fl.
Proof.
  unfold index. intros H.
  destruct (idxj !! i) as [j|] eqn:Hj; cbn [mbind result_bind] in H; [|discriminate].
  destruct (augment aero !! j) as [a|] eqn:Ha; cbn [mbind result_bind] in H;
    [|discriminate].
  destruct (fraction !! i) as [f|] eqn:Hf; cbn [mbind result_bind] in H; [|discriminate].
  destruct (augment aero !! (j + 1)%nat) as [b|] eqn:Hb; cbn [mbind result_bind] in H;
    [|discriminate].
  injection H as <-. exists j, a, f, b. auto 10.
Qed.

(** One turn of the loop, by its index. *)
Lemma rgrid_turn_cases (r_aero : list R) (fraction : array) (idxj : list nat)
    (i : nat) :
  (i < length fraction)%nat ->
  ((exists j, idxj !! i = Some j /\ (j <= length r_aero)%nat) ->
   exists y, (j ← index idxj i; a ← index (augment r_aero) j;
              f ← index fraction i; b ← index (augment r_aero) (j + 1);
              Ok (fin a + f * fin (b - a))%fl) = Ok y) /\
  ((forall j, idxj !! i = Some j -> (length r_aero < j)%nat) ->
   (j ← index idxj i; a ← index (augment r_aero) j;
    f ← index fraction i; b ← index (augment r_aero) (j + 1);
    Ok (fin a + f * fin (b - a))%fl) = Raise IndexError).
Proof.
  intros Hi. destruct (lookup_lt_is_Some_2 fraction i Hi) as [f Hf].
  split.
  - intros (j & Hj & Hjn).
    destruct (lookup_lt_is_Some_2 (augment r_aero) j) as [a Ha];
      [rewrite augment_length; lia|].
    destruct (lookup_lt_is_Some_2 (augment r_aero) (j + 1)) as [b Hb];
      [rewrite augment_length; lia|].
    rewrite (index_lookup _ _ _ Hj). cbn [mbind result_bind].
    rewrite (index_lookup _ _ _ Ha). cbn [mbind result_bind].
    rewrite (index_lookup _ _ _ Hf). cbn [mbind result_bind].
    rewrite (index_lookup _ _ _ Hb). cbn [mbind result_bind]. eauto.
  - intros Hn.
    destruct (idxj !! i) as [j|] eqn:Hj;
      [|rewrite (index_None _ _ Hj); reflexivity].
    specialize (Hn j eq_refl).
    rewrite (index_lookup _ _ _ Hj). cbn [mbind result_bind].
    destruct (augment r_aero !! j) as [a|] eqn:Ha;
      [|rewrite (index_None _ _ Ha); reflexivity].
    rewrite (index_lookup _ _ _ Ha). cbn [mbind result_bind].
    rewrite (index_lookup _ _ _ Hf). cbn [mbind result_bind].
    rewrite (index_None (augment r_aero) (j + 1));
      [reflexivity | apply lookup_ge_None; rewrite augment_length; lia].
Qed.

Lemma rgrid_solve_Ok (r_aero : list R) (fraction : array) (idxj : list nat) :
  (forall i, (i < length fraction)%nat ->
     exists j, idxj !! i = Some j /\ (j <= length r_aero)%nat) ->
  exists r_str, RGrid.solve_nonlinear r_aero fraction idxj = Ok r_str /\
                length r_str = length fraction.
Proof.
  unfold RGrid.solve_nonlinear. intros Hv.
  destruct (mapM_Ok_exists
              (fun i : nat => j ← index idxj i; a ← index (augment r_aero) j;
                 f ← index fraction i; b ← index (augment r_aero) (j + 1);
                 Ok (fin a + f * fin (b - a))%fl) (seq 0 (length fraction)))
    as [ys Hys].
  { intros i Hi. apply elem_of_seq in Hi as [_ Hi]. simpl in Hi.
    apply (proj1 (rgrid_turn_cases r_aero fraction idxj i Hi)), Hv, Hi. }
  exists ys. split; [exact Hys|].
  rewrite (mapM_Ok_length _ _ _ Hys), length_seq. reflexivity.
Qed.

(** X4.  RGrid.solve_nonlinear returns, with one value for every fraction,
    when idxj has an index of at most naero for every fraction; when one
    of the first nstr indices is missing or is beyond naero it raises
    IndexError. *)
Theorem rgrid_domain (r_aero : list R) (fraction : array) (idxj : list nat) :
  ((forall i, (i < length fraction)%nat ->
      exists j, idxj !! i = Some j /\ (j <= length r_aero)%nat) ->
   exists r_str, RGrid.solve_nonlinear r_aero fraction idxj = Ok r_str /\
                 length r_str = length fraction) /\
  ((exists i, (i < length fraction)%nat /\
      forall j, idxj !! i = Some j -> (length r_aero < j)%nat) ->
   RGrid.solve_nonlinear r_aero fraction idxj = Raise IndexError).
Proof.
  split; [apply rgrid_solve_Ok|]. unfold RGrid.solve_nonlinear.
  - intros (i & Hi & Hbad). apply mapM_Raise.
    + intros k Hk. apply elem_of_seq in Hk as [_ Hk]. simpl in Hk.
      destruct (idxj !! k) as [j|] eqn:Hj.
      * destruct (decide (j <= length r_aero)%nat) as [Hle|Hgt].
        -- left. apply (proj1 (rgrid_turn_cases r_aero fraction idxj k Hk)). eauto.
        -- right. apply (proj2 (rgrid_turn_cases r_aero fraction idxj k Hk)).
           intros j' Hj'. assert (j' = j) by congruence. lia.
      * right. apply (proj2 (rgrid_turn_cases r_aero fraction idxj k Hk)).
        intros j' Hj'. congruence.
    + exists i. split; [apply elem_of_seq; lia|].
      apply (proj2 (rgrid_turn_cases r_aero fraction idxj i Hi)), Hbad.
Qed.

Lemma rgrid_domain_witness :
  (exists r_str, RGrid.solve_nonlinear [0.5] [fin 1; fin 0.5] [0%nat; 1%nat] = Ok r_str /\
                 length r_str = 2%nat) /\
  RGrid.solve_nonlinear [0.5] [fin 1; fin 0.5] [0%nat; 2%nat] = Raise IndexError.
Proof.
  split.
  - apply (proj1 (rgrid_domain [0.5] [fin 1; fin 0.5] [0%nat; 1%nat])).
    intros i Hi. simpl in Hi.
    destruct i as [|[|i]]; [exists 0%nat | exists 1%nat | lia];
      (split; [reflexivity | simpl; lia]).
  - apply (proj2 (rgrid_domain [0.5] [fin 1; fin 0.5] [0%nat; 2%nat])).
    exists 1%nat. split; [simpl; lia|].
    intros j Hj. injection Hj as <-. simpl. lia.
Defined.

Lemma augment_lookup_inv (aero : list R) (j : nat) (a : R) :
  augment aero !! j = Some a ->
  (j = 0%nat /\ a = 0.0) \/
  (exists k, j = S k /\ aero !! k = Some a) \/
  (j = (length aero + 1)%nat /\ a = 1.0).
Proof.
  intros H. destruct j as [|k].
  - left. injection H as <-. auto.
  - right. unfold augment in H. simpl in H.
    destruct (decide (k < length aero)%nat) as [Hk|Hk].
    + left. exists k. split; [reflexivity|].
      rewrite lookup_app_l in H by exact Hk. exact H.
    + right. rewrite lookup_app_r in H by lia.
      destruct (k - length aero)%nat as [|m] eqn:Hm; simpl in H; [|discriminate].
      injection H as <-. split; [lia | reflexivity].
Qed.

Lemma row_dot_fin (row d : list R) :
  row_dot (fin <$> row) d = fin (Rdot row d).
Proof.
  unfold row_dot, Rdot. rewrite <- np_sum_fin. f_equal.
  revert d. induction row as [|x row IH]; intros [|y d]; simpl; try reflexivity.
  f_equal. apply IH.
Qed.

Lemma Rdot_zeros (n : nat) (d : list R) : Rdot (replicate n 0) d = 0.
Proof.
  unfold Rdot. revert d. induction n as [|n IH]; intros [|y d]; simpl; try reflexivity.
  rewrite IH. lra.
Qed.

Lemma Rdot_insert (row d : list R) (k : nat) (v x y : R) :
  row !! k = Some x -> d !! k = Some y ->
  Rdot (<[k := v]> row) d = Rdot row d + (v - x) * y.
Proof.
  unfold Rdot. revert d k. induction row as [|x0 row IH]; intros [|y0 d] k Hx Hy;
    try discriminate.
  destruct k as [|k]; simpl in *.
  - injection Hx as <-. injection Hy as <-. lra.
  - rewrite (IH d k Hx Hy). lra.
Qed.

(** X5.  RGrid is affine in the aerodynamic grid and RGrid.linearize is
    its Jacobian: whenever solve_nonlinear returns for finite fractions,
    linearize returns a matrix of nstr rows and naero columns, and for any
    other aerodynamic grid of the same length the structural grid changes
    by exactly the product of the Jacobian with the change of the
    aerodynamic grid.  The synthetic end points 0 and 1 are constants: they
    have no column. *)
Theorem rgrid_linearize_exact (aero aero' : list R) (fs : list R)
    (idxj : list nat) (out : array) :
  length aero' = length aero ->
  RGrid.solve_nonlinear aero (fin <$> fs) idxj = Ok out ->
  exists J out',
    RGrid.linearize aero (fin <$> fs) idxj = Ok J /\
    RGrid.solve_nonlinear aero' (fin <$> fs) idxj = Ok out' /\
    length J = length fs /\
    forall i, (i < length fs)%nat ->
      exists row x x',
        J !! i = Some row /\ length row = length aero /\
        out !! i = Some (fin x) /\ out' !! i = Some (fin x') /\
        row_dot row (zip_with Rminus aero' aero) = fin (x' - x).
Proof.
  intros Hlen Hout.
  assert (Hturn : forall i, (i < length fs)%nat ->
            exists j a f b, idxj !! i = Some j /\ augment aero !! j = Some a /\
              fs !! i = Some f /\ augment aero !! (j + 1)%nat = Some b /\
              out !! i = Some (fin (a + f * (b - a)))).
  { intros i Hi. unfold RGrid.solve_nonlinear in Hout.
    destruct (mapM_Ok_lookup _ _ _ i i Hout) as (y & Hy & Hfy).
    { apply lookup_seq. split; [reflexivity|]. rewrite length_fmap. exact Hi. }
    apply rgrid_turn in Hfy as (j & a & f & b & Hj & Ha & Hf & Hb & ->).
    rewrite list_lookup_fmap in Hf. destruct (fs !! i) as [f0|]; [|discriminate].
    injection Hf as <-. exists j, a, f0, b. auto 10. }
  assert (HJ : exists J, RGrid.linearize aero (fin <$> fs) idxj = Ok J).
  { unfold RGrid.linearize. apply mapM_Ok_exists. intros i Hi.
    apply elem_of_seq in Hi as [_ Hi]. rewrite length_fmap in Hi. simpl in Hi.
    destruct (Hturn i Hi) as (j & a & f & b & Hj & _ & Hf & _).
    assert (Hf' : (fin <$> fs) !! i = Some (fin f))
      by (rewrite list_lookup_fmap, Hf; reflexivity).
    rewrite (index_lookup _ _ _ Hj). cbn [mbind result_bind].
    rewrite (index_lookup _ _ _ Hf'). cbn [mbind result_bind].
    destruct (_ && _); cbn [mbind result_bind]; destruct (bool_decide _);
      cbn [mbind result_bind]; eauto. }
  assert (Hout' : exists out', RGrid.solve_nonlinear aero' (fin <$> fs) idxj = Ok out').
  { destruct (rgrid_solve_Ok aero' (fin <$> fs) idxj) as (o & Ho & _); [|eauto].
    intros i Hi. rewrite length_fmap in Hi.
    destruct (Hturn i Hi) as (j & a & f & b & Hj & _ & _ & Hb & _).
    exists j. split; [exact Hj|].
    apply lookup_lt_Some in Hb. rewrite augment_length in Hb. lia. }
  destruct HJ as [J HJ]. destruct Hout' as [out' Hout'].
  exists J, out'. split; [exact HJ|]. split; [exact Hout'|].
  split.
  { unfold RGrid.linearize in HJ.
    rewrite (mapM_Ok_length _ _ _ HJ), length_seq, length_fmap. reflexivity. }
  intros i Hi.
  destruct (Hturn i Hi) as (j & a & f & b & Hj & Ha & Hf & Hb & Hx).
  assert (Hf' : (fin <$> fs) !! i = Some (fin f))
    by (rewrite list_lookup_fmap, Hf; reflexivity).
  assert (Hseq : seq 0 (length (fin <$> fs)) !! i = Some i).
  { apply lookup_seq. split; [reflexivity|]. rewrite length_fmap. exact Hi. }
  (* the new value *)
  unfold RGrid.solve_nonlinear in Hout'.
  destruct (mapM_Ok_lookup _ _ _ i i Hout' Hseq) as (y' & Hy' & Hfy').
  apply rgrid_turn in Hfy' as (j' & a' & f' & b' & Hj' & Ha' & Hf'' & Hb' & ->).
  assert (j' = j) by congruence. subst j'.
  assert (f' = fin f) by congruence. subst f'.
  (* the row *)
  unfold RGrid.linearize in HJ.
  destruct (mapM_Ok_lookup _ _ _ i i HJ Hseq) as (row & Hrow & Hfrow).
  rewrite (index_lookup _ _ _ Hj) in Hfrow. cbn [mbind result_bind] in Hfrow.
  rewrite (index_lookup _ _ _ Hf') in Hfrow.
  set (n := length aero) in *.
  set (d := zip_with Rminus aero' aero).
  assert (Hd : forall k x x', aero !! k = Some x -> aero' !! k = Some x' ->
            d !! k = Some (x' - x)).
  { intros k x x' H1 H2. unfold d. rewrite lookup_zip_with, H2. simpl.
    rewrite H1. reflexivity. }
  assert (Hz : forall k, (k < n)%nat -> replicate n 0 !! k = Some 0).
  { intros k Hk. apply lookup_replicate. auto. }
  exists row, (a + f * (b - a)), (a' + f * (b' - a')).
  split; [exact Hrow|].
  apply augment_lookup_inv in Ha as Hca. apply augment_lookup_inv in Hb as Hcb.
  apply augment_lookup_inv in Ha' as Hca'. apply augment_lookup_inv in Hb' as Hcb'.
  rewrite Hlen in Hca', Hcb'. fold n in Hca, Hcb, Hca', Hcb'.
  destruct (decide (j = 0%nat)) as [->|Hj0].
  - (* the first interval *)
    destruct Hca as [[_ ->]|[(k & ? & _)|[? _]]]; [|lia|lia].
    destruct Hca' as [[_ ->]|[(k & ? & _)|[? _]]]; [|lia|lia].
    simpl in Hfrow.
    destruct (bool_decide_reflect (0 < n)%nat) as [Hn|Hn];
      cbn [mbind result_bind] in Hfrow; injection Hfrow as <-.
    + destruct Hcb as [[? _]|[(k & Hk & Hbk)|[? _]]]; [lia| |lia].
      destruct Hcb' as [[? _]|[(k' & Hk' & Hbk')|[? _]]]; [lia| |lia].
      assert (k = 0%nat) by lia. assert (k' = 0%nat) by lia. subst k k'.
      rewrite length_insert, length_replicate.
      split; [reflexivity|]. split; [exact Hx|]. split; [exact Hy'|].
      rewrite <- (fmap_replicate fin), <- list_fmap_insert.
      rewrite row_dot_fin.
      rewrite (Rdot_insert _ d 0 f 0 (b' - b)), Rdot_zeros;
        [f_equal; lra | apply Hz, Hn | apply Hd; assumption].
    + destruct Hcb as [[? _]|[(k & Hk & Hbk)|[Hk ->]]]; [lia| |].
      { apply lookup_lt_Some in Hbk. fold n in Hbk. lia. }
      destruct Hcb' as [[? _]|[(k' & Hk' & Hbk')|[Hk' ->]]]; [lia| |].
      { apply lookup_lt_Some in Hbk'. rewrite Hlen in Hbk'. fold n in Hbk'. lia. }
      rewrite length_replicate.
      split; [reflexivity|]. split; [exact Hx|]. split; [exact Hy'|].
      rewrite <- (fmap_replicate fin), row_dot_fin, Rdot_zeros. f_equal. lra.
  - (* an interval after the first *)
    assert (Hjn : (j <= n)%nat).
    { apply lookup_lt_Some in Hb. rewrite augment_length in Hb. fold n in Hb. lia. }
    destruct Hca as [[? _]|[(k & Hk & Hak)|[? _]]]; [lia| |lia].
    destruct Hca' as [[? _]|[(k' & Hk' & Hak')|[? _]]]; [lia| |lia].
    assert (k' = k) by lia. subst k'. assert (k = (j - 1)%nat) by lia. subst k.
    rewrite (bool_decide_eq_true_2 (0 < j)%nat) in Hfrow by lia.
    rewrite (bool_decide_eq_true_2 (j < n + 1)%nat) in Hfrow by lia.
    cbn [andb mbind result_bind] in Hfrow.
    destruct (bool_decide_reflect (j < n)%nat) as [Hn|Hn];
      cbn [mbind result_bind] in Hfrow; injection Hfrow as <-.
    + destruct Hcb as [[? _]|[(k & Hkb & Hbk)|[? _]]]; [lia| |lia].
      destruct Hcb' as [[? _]|[(k' & Hkb' & Hbk')|[? _]]]; [lia| |lia].
      assert (k = j) by lia. assert (k' = j) by lia. subst k k'.
      rewrite !length_insert, length_replicate.
      split; [reflexivity|]. split; [exact Hx|]. split; [exact Hy'|].
      change (fin 1 - fin f)%fl with (fin (1 - f)).
      rewrite <- (fmap_replicate fin), <- !list_fmap_insert.
      rewrite row_dot_fin.
      rewrite (Rdot_insert _ d j f 0 (b' - b));
        [| rewrite list_lookup_insert_ne by lia; apply Hz, Hn | apply Hd; assumption].
      rewrite (Rdot_insert _ d (j - 1) (1 - f) 0 (a' - a)), Rdot_zeros;
        [f_equal; lra | apply Hz; lia | apply Hd; assumption].
    + assert (j = n) by lia. subst j.
      destruct Hcb as [[? _]|[(k & Hkb & Hbk)|[_ ->]]]; [lia| |].
      { apply lookup_lt_Some in Hbk. fold n in Hbk. lia. }
      destruct Hcb' as [[? _]|[(k' & Hkb' & Hbk')|[_ ->]]]; [lia| |].
      { apply lookup_lt_Some in Hbk'. rewrite Hlen in Hbk'. fold n in Hbk'. lia. }
      rewrite length_insert, length_replicate.
      split; [reflexivity|]. split; [exact Hx|]. split; [exact Hy'|].
      change (fin 1 - fin f)%fl with (fin (1 - f)).
      rewrite <- (fmap_replicate fin), <- list_fmap_insert.
      rewrite row_dot_fin.
      rewrite (Rdot_insert _ d (n - 1) (1 - f) 0 (a' - a)), Rdot_zeros;
        [f_equal; lra | apply Hz; lia | apply Hd; assumption].
Qed.

Lemma rgrid_linearize_exact_witness :
  exists J out',
    RGrid.linearize [0.5] (fin <$> [1; 0.5]) [0%nat; 1%nat] = Ok J /\
    RGrid.solve_nonlinear [0.6] (fin <$> [1; 0.5]) [0%nat; 1%nat] = Ok out' /\
    length J = 2%nat.
Proof.
  destruct (rgrid_linearize_exact [0.5] [0.6] [1; 0.5] [0%nat; 1%nat] _
              eq_refl eq_refl) as (J & out' & HJ & Hout' & Hlen & _).
  exists J, out'. auto.
Defined.

(** ** Environment: the classes the components know, and their Jacobians *)


(** X7.  GustETM.solve_nonlinear raises UnboundLocalError for a turbulence
    class other than A, B and C.  When it returns, the gust speed is affine
    in V_mean and in V_hub separately, and GustETM.linearize gives the two
    slopes exactly: a change d of one input changes V_gust by the entry of
    the Jacobian times d, and the entries are the partial derivatives. *)
Theorem gust_linearize_exact (V_mean V_hub std : R) (turbulence_class : string) :
  (turbulence_class ∉ ["A"; "B"; "C"] ->
   GustETM.solve_nonlinear V_mean V_hub turbulence_class std = Raise UnboundLocalError) /\
  forall s, GustETM.solve_nonlinear V_mean V_hub turbulence_class std = Ok s ->
    let J := GustETM.linearize s V_mean V_hub std in
    turbulence_class ∈ ["A"; "B"; "C"] /\
    (forall d, GustETM.V_gust <$>
                 GustETM.solve_nonlinear (V_mean + d) V_hub turbulence_class std
               = Ok (GustETM.V_gust s + GustETM.dV_gust_dV_mean J * d)) /\
    (forall d, GustETM.V_gust <$>
                 GustETM.solve_nonlinear V_mean (V_hub + d) turbulence_class std
               = Ok (GustETM.V_gust s + GustETM.dV_gust_dV_hub J * d)) /\
    derivable_pt_lim
      (fun x => match GustETM.solve_nonlinear x V_hub turbulence_class std with
                | Ok s' => GustETM.V_gust s' | Raise _ => 0 end)
      V_mean (GustETM.dV_gust_dV_mean J) /\
    derivable_pt_lim
      (fun x => match GustETM.solve_nonlinear V_mean x turbulence_class std with
                | Ok s' => GustETM.V_gust s' | Raise _ => 0 end)
      V_hub (GustETM.dV_gust_dV_hub J).
Proof.
  unfold GustETM.solve_nonlinear.
  split.
  - intros Hn. unfold GustETM.Iref_of.
    destruct (String.eqb_spec turbulence_class "A") as [->|_].
    { exfalso. apply Hn. set_solver. }
    destruct (String.eqb_spec turbulence_class "B") as [->|_].
    { exfalso. apply Hn. set_solver. }
    destruct (String.eqb_spec turbulence_class "C") as [->|_].
    { exfalso. apply Hn. set_solver. }
    reflexivity.
  - intros s Hs.
    destruct (GustETM.Iref_of turbulence_class) as [Iref|] eqn:HI; [|discriminate].
    cbn [mbind result_bind] in *. injection Hs as <-.
    cbn [GustETM.linearize GustETM.self_Iref GustETM.self_c GustETM.V_gust
         GustETM.self_V_gust GustETM.dV_gust_dV_mean GustETM.dV_gust_dV_hub
         fmap result_fmap].
    split; [|split; [|split; [|split]]].
    + unfold GustETM.Iref_of in HI.
      destruct (String.eqb_spec turbulence_class "A") as [->|_]; [set_solver|].
      destruct (String.eqb_spec turbulence_class "B") as [->|_]; [set_solver|].
      destruct (String.eqb_spec turbulence_class "C") as [->|_]; [set_solver|].
      discriminate.
    + intros d. f_equal. field. lra.
    + intros d. f_equal. replace 1.0 with 1 by lra. field. lra.
    + intros eps Heps. exists (mkposreal 1 Rlt_0_1). intros h Hh _.
      match goal with |- Rabs ?e < _ => replace e with 0 by (field; split; [lra | exact Hh]) end.
      rewrite Rabs_R0. exact Heps.
    + intros eps Heps. exists (mkposreal 1 Rlt_0_1). intros h Hh _.
      replace 1.0 with 1 by lra.
      match goal with |- Rabs ?e < _ => replace e with 0 by (field; split; [lra | exact Hh]) end.
      rewrite Rabs_R0. exact Heps.
Qed.


Section PowerCurveSetup.

Import SetupPCModVarSpeed.

Lemma setup_pc_Omega (RS2RPM : R) (p : params) :
  R_rotor p <> 0 ->
  Omega (solve_nonlinear RS2RPM p)
  = fin (control_tsr p * (Vfactor p * Vrated p) / R_rotor p * RS2RPM).
Proof.
  intros HR. unfold solve_nonlinear. cbn [Omega].
  rewrite fdiv_fin by exact HR. reflexivity.
Qed.

(** X9.  For a rotor radius other than 0, SetupPCModVarSpeed gives the
    rotor speed Omega = tsr * Uhub / R * RS2RPM as a number, and linearize
    gives its exact slopes: Omega is linear in the tip-speed ratio and in
    the rated speed, with the increments the Jacobian tells, Uhub changes
    by Vfactor times the change of the rated speed, and the entry for the
    radius is the derivative of Omega with respect to the radius. *)
Theorem setup_pc_linearize_exact (RS2RPM : R) (p : params) :
  R_rotor p <> 0 ->
  let s := solve_nonlinear RS2RPM p in
  let J := linearize RS2RPM s p in
  exists omega j_tsr j_V j_R,
    Omega s = fin omega /\ omega * R_rotor p = control_tsr p * Uhub s * RS2RPM /\
    dOmega_dtsr J = fin j_tsr /\ dOmega_dVrated J = fin j_V /\ dOmega_dR J = fin j_R /\
    (forall d, Omega (solve_nonlinear RS2RPM (with_tsr p (control_tsr p + d)))
               = fin (omega + j_tsr * d)) /\
    (forall d, Omega (solve_nonlinear RS2RPM (with_Vrated p (Vrated p + d)))
               = fin (omega + j_V * d)) /\
    (forall d, Uhub (solve_nonlinear RS2RPM (with_Vrated p (Vrated p + d)))
               = Uhub s + dUhub_dVrated J * d) /\
    derivable_pt_lim
      (fun x => real_of (Omega (solve_nonlinear RS2RPM (with_R p x))))
      (R_rotor p) j_R.
Proof.
  intros HR s J.
  assert (HR2 : R_rotor p ^ 2 <> 0) by (apply pow_nonzero, HR).
  exists (control_tsr p * (Vfactor p * Vrated p) / R_rotor p * RS2RPM),
         (Vfactor p * Vrated p / R_rotor p * RS2RPM),
         (control_tsr p * Vfactor p / R_rotor p * RS2RPM),
         (- control_tsr p * (Vfactor p * Vrated p) / R_rotor p ^ 2 * RS2RPM).
  split; [apply setup_pc_Omega, HR|].
  split; [unfold s, solve_nonlinear; cbn [Uhub]; field; exact HR|].
  do 3 (split; [unfold J, s, linearize, solve_nonlinear;
                cbn [dOmega_dtsr dOmega_dVrated dOmega_dR Uhub self_R self_Vfactor];
                rewrite !fdiv_fin by assumption; reflexivity|]).
  split.
  { intros d. rewrite setup_pc_Omega by exact HR. cbn [with_tsr control_tsr Vfactor Vrated R_rotor].
    unfold fin. f_equal. field. exact HR. }
  split.
  { intros d. rewrite setup_pc_Omega by exact HR. cbn [with_Vrated control_tsr Vfactor Vrated R_rotor].
    unfold fin. f_equal. field. exact HR. }
  split.
  { intros d. unfold J, s, linearize, solve_nonlinear.
    cbn [with_Vrated control_tsr Vfactor Vrated R_rotor Uhub dUhub_dVrated self_Vfactor].
    ring. }
  set (c := control_tsr p * (Vfactor p * Vrated p)).
  assert (Hd : derivable_pt_lim (fct_cte (c * RS2RPM) / id) (R_rotor p)
                 ((0 * id (R_rotor p) - 1 * fct_cte (c * RS2RPM) (R_rotor p))
                  / (id (R_rotor p))²)).
  { apply derivable_pt_lim_div;
      [apply derivable_pt_lim_const | apply derivable_pt_lim_id | exact HR]. }
  assert (Hpos : 0 < Rabs (R_rotor p)) by (apply Rabs_pos_lt, HR).
  eapply (derivable_pt_lim_locally_ext _ _ _ (R_rotor p - Rabs (R_rotor p))
            (R_rotor p + Rabs (R_rotor p))); [lra | | ].
  2:{ replace (- control_tsr p * (Vfactor p * Vrated p) / R_rotor p ^ 2 * RS2RPM)
        with ((0 * id (R_rotor p) - 1 * fct_cte (c * RS2RPM) (R_rotor p)) / (id (R_rotor p))²).
      - exact Hd.
      - unfold id, fct_cte, Rsqr, c. field. exact HR. }
  intros z Hz. unfold div_fct, fct_cte, id.
  assert (Hz0 : z <> 0).
  { intros ->. destruct (Rcase_abs (R_rotor p)) as [Hn|Hn].
    - rewrite (Rabs_left _ Hn) in Hz. lra.
    - rewrite (Rabs_right _ Hn) in Hz. lra. }
  rewrite setup_pc_Omega by exact Hz0.
  cbn [with_R control_tsr Vfactor Vrated R_rotor real_of fin].
  unfold c. field. exact Hz0.
Qed.

End PowerCurveSetup.


Lemma setup_pc_linearize_exact_witness :
  exists omega,
    SetupPCModVarSpeed.Omega (SetupPCModVarSpeed.solve_nonlinear (30 / PI) p_setup)
    = fin omega.
Proof.
  destruct (setup_pc_linearize_exact (30 / PI) p_setup)
    as (omega & _ & _ & _ & H & _); [simpl; lra|].
  exists omega. exact H.
Defined.

(** ** GeometrySpline: the grids, the twist of the cylinder, the precurve *)

(** What a run of GeometrySpline.solve_nonlinear that returns has gone through. *)
Lemma geometry_spline_Ok (spline : Type)
    (Akima : list R -> list R -> result spline)
    (interp : spline -> list R -> result (list R))
    (p : GeometrySpline.params) (u : GeometrySpline.unknowns) :
  GeometrySpline.solve_nonlinear spline Akima interp p = Ok u ->
  let Rhub := GeometrySpline.hubFraction p * GeometrySpline.bladeLength p in
  let Rtip := Rhub + GeometrySpline.bladeLength p in
  exists k x0 theta_outer_aero theta_outer_str ta0 ts0,
    length (GeometrySpline.chord_sub p) = S k /\
    GeometrySpline.r_aero_unit p !! GeometrySpline.idx_cylinder_aero p = Some x0 /\
    theta_outer_aero !! 0%nat = Some ta0 /\
    theta_outer_str !! 0%nat = Some ts0 /\
    GeometrySpline.Rhub u = Rhub /\ GeometrySpline.Rtip u = Rtip /\
    GeometrySpline.r_aero u
      = (fun x => Rhub + (Rtip - Rhub) * x) <$> GeometrySpline.r_aero_unit p /\
    GeometrySpline.r_str u
      = (fun x => Rhub + (Rtip - Rhub) * x) <$> GeometrySpline.r_str_unit p /\
    GeometrySpline.theta_aero u
      = replicate (GeometrySpline.idx_cylinder_aero p) (ta0 * 1) ++ theta_outer_aero /\
    GeometrySpline.theta_str u
      = replicate (GeometrySpline.idx_cylinder_str p) (ts0 * 1) ++ theta_outer_str /\
    GeometrySpline.presweep_str u
      = replicate (length (GeometrySpline.precurve_str u)) 0 /\
    GeometrySpline.r_sub_precurve u
      = np_linspace (Rhub + (Rtip - Rhub) * GeometrySpline.r_max_chord p) Rtip k.
Proof.
  unfold GeometrySpline.solve_nonlinear. intros H.
  destruct (length (GeometrySpline.chord_sub p)) as [|k] eqn:Hk;
    cbn [mbind result_bind] in H; [discriminate|].
  repeat match type of H with
  | (mbind _ ?m) = Ok _ =>
      let E := fresh "E" in destruct m eqn:E; cbn [mbind result_bind] in H; [|discriminate]
  end.
  injection H as <-. cbn.
  match goal with
  | H1 : index (GeometrySpline.r_aero_unit p) _ = Ok ?x0,
    H2 : interp _ (drop (GeometrySpline.idx_cylinder_aero p) _) = Ok ?toa,
    H3 : interp _ (drop (GeometrySpline.idx_cylinder_str p) _) = Ok ?tos |- _ =>
      match goal with
      | H4 : index toa 0 = Ok ?ta0, H5 : index tos 0 = Ok ?ts0 |- _ =>
          apply index_Ok in H1, H4, H5;
          exists k, x0, toa, tos, ta0, ts0
      end
  end.
  repeat split; assumption.
Qed.

Lemma np_linspace_length (a b : R) (n : nat) : length (np_linspace a b n) = n.
Proof.
  destruct n as [|[|n]]; [reflexivity | reflexivity |].
  unfold np_linspace. rewrite length_fmap, length_seq. reflexivity.
Qed.

Lemma np_linspace_lookup (a b : R) (n i : nat) :
  (i < n)%nat -> (2 <= n)%nat ->
  np_linspace a b n !! i = Some (a + INR i * ((b - a) / INR (n - 1))).
Proof.
  intros Hi Hn. destruct n as [|[|n]]; [lia | lia |].
  unfold np_linspace. rewrite list_lookup_fmap, lookup_seq_lt by lia.
  replace (S (S n) - 1)%nat with (S n) by lia. reflexivity.
Qed.

(** X10.  When GeometrySpline.solve_nonlinear returns for a positive blade
    length, the dimensional grids r_aero and r_str have the lengths of the
    unit grids, every point is Rhub + bladeLength * x, a unit point in
    [0, 1] lands in [Rhub, Rtip], only x = 0 lands on Rhub and only x = 1
    on Rtip, and a strictly increasing unit grid stays strictly
    increasing. *)
Theorem geometry_spline_grids (spline : Type)
    (Akima : list R -> list R -> result spline)
    (interp : spline -> list R -> result (list R))
    (p : GeometrySpline.params) (u : GeometrySpline.unknowns) :
  GeometrySpline.solve_nonlinear spline Akima interp p = Ok u ->
  0 < GeometrySpline.bladeLength p ->
  (forall i x, GeometrySpline.r_aero_unit p !! i = Some x ->
     exists y, GeometrySpline.r_aero u !! i = Some y /\
       y = GeometrySpline.Rhub u + GeometrySpline.bladeLength p * x /\
       (0 <= x <= 1 -> GeometrySpline.Rhub u <= y <= GeometrySpline.Rtip u) /\
       (y = GeometrySpline.Rhub u <-> x = 0) /\
       (y = GeometrySpline.Rtip u <-> x = 1)) /\
  (forall i x, GeometrySpline.r_str_unit p !! i = Some x ->
     exists y, GeometrySpline.r_str u !! i = Some y /\
       y = GeometrySpline.Rhub u + GeometrySpline.bladeLength p * x /\
       (0 <= x <= 1 -> GeometrySpline.Rhub u <= y <= GeometrySpline.Rtip u) /\
       (y = GeometrySpline.Rhub u <-> x = 0) /\
       (y = GeometrySpline.Rtip u <-> x = 1)) /\
  length (GeometrySpline.r_aero u) = length (GeometrySpline.r_aero_unit p) /\
  length (GeometrySpline.r_str u) = length (GeometrySpline.r_str_unit p) /\
  (StronglySorted Rlt (GeometrySpline.r_aero_unit p) ->
   StronglySorted Rlt (GeometrySpline.r_aero u)) /\
  (StronglySorted Rlt (GeometrySpline.r_str_unit p) ->
   StronglySorted Rlt (GeometrySpline.r_str u)).
Proof.
  intros H HL.
  destruct (geometry_spline_Ok _ _ _ _ _ H)
    as (k & x0 & toa & tos & ta0 & ts0 & _ & _ & _ & _ & Hhub & Htip & Ha & Hs & _).
  rewrite Ha, Hs, Hhub, Htip.
  set (Rhub := GeometrySpline.hubFraction p * GeometrySpline.bladeLength p) in *.
  set (L := GeometrySpline.bladeLength p) in *.
  assert (Hpt : forall (l : list R) i x, l !! i = Some x ->
            exists y, ((fun x => Rhub + (Rhub + L - Rhub) * x) <$> l) !! i = Some y /\
              y = Rhub + L * x /\
              (0 <= x <= 1 -> Rhub <= y <= Rhub + L) /\
              (y = Rhub <-> x = 0) /\ (y = Rhub + L <-> x = 1)).
  { intros l i x Hx. eexists. rewrite list_lookup_fmap, Hx. split; [reflexivity|].
    split; [ring|]. split; [intros; nra|].
    split; split; intros; nra. }
  assert (Hsort : forall l : list R, StronglySorted Rlt l ->
            StronglySorted Rlt ((fun x => Rhub + (Rhub + L - Rhub) * x) <$> l)).
  { intros l Hl. induction Hl as [|a l Hl IH Hall]; [constructor|].
    rewrite fmap_cons. constructor; [exact IH|].
    rewrite Forall_fmap. eapply Forall_impl; [exact Hall|]. simpl. intros; nra. }
  split; [apply Hpt|]. split; [apply Hpt|].
  rewrite !length_fmap. do 2 (split; [reflexivity|]).
  split; apply Hsort.
Qed.

(** X11.  GeometrySpline.solve_nonlinear cannot return when
    idx_cylinder_aero is not an index of r_aero_unit.  When it returns, the
    twist of every station up to and including the cylinder index equals
    the twist at the cylinder index, on the aerodynamic grid and on the
    structural grid: the root cylinder has one constant twist. *)
Theorem geometry_spline_twist (spline : Type)
    (Akima : list R -> list R -> result spline)
    (interp : spline -> list R -> result (list R))
    (p : GeometrySpline.params) :
  ((length (GeometrySpline.r_aero_unit p) <= GeometrySpline.idx_cylinder_aero p)%nat ->
   forall u, GeometrySpline.solve_nonlinear spline Akima interp p <> Ok u) /\
  forall u, GeometrySpline.solve_nonlinear spline Akima interp p = Ok u ->
    (GeometrySpline.idx_cylinder_aero p < length (GeometrySpline.r_aero_unit p))%nat /\
    exists ta ts,
      GeometrySpline.theta_aero u !! GeometrySpline.idx_cylinder_aero p = Some ta /\
      GeometrySpline.theta_str u !! GeometrySpline.idx_cylinder_str p = Some ts /\
      (forall i, (i <= GeometrySpline.idx_cylinder_aero p)%nat ->
         GeometrySpline.theta_aero u !! i = Some ta) /\
      (forall i, (i <= GeometrySpline.idx_cylinder_str p)%nat ->
         GeometrySpline.theta_str u !! i = Some ts).
Proof.
  assert (Hmain : forall u, GeometrySpline.solve_nonlinear spline Akima interp p = Ok u ->
    (GeometrySpline.idx_cylinder_aero p < length (GeometrySpline.r_aero_unit p))%nat /\
    exists ta ts,
      GeometrySpline.theta_aero u !! GeometrySpline.idx_cylinder_aero p = Some ta /\
      GeometrySpline.theta_str u !! GeometrySpline.idx_cylinder_str p = Some ts /\
      (forall i, (i <= GeometrySpline.idx_cylinder_aero p)%nat ->
         GeometrySpline.theta_aero u !! i = Some ta) /\
      (forall i, (i <= GeometrySpline.idx_cylinder_str p)%nat ->
         GeometrySpline.theta_str u !! i = Some ts)).
  { intros u H.
    destruct (geometry_spline_Ok _ _ _ _ _ H)
      as (k & x0 & toa & tos & ta0 & ts0 & _ & Hx0 & Hta & Hts & _ & _ & _ & _ & Ha & Hs & _).
    split; [eapply lookup_lt_Some, Hx0|].
    assert (Hrep : forall n (v : R) (l : list R) i, l !! 0%nat = Some v -> (i <= n)%nat ->
              (replicate n (v * 1) ++ l) !! i = Some v).
    { intros n v l i Hv Hi. destruct (decide (i = n)) as [->|Hne].
      - rewrite lookup_app_r by (rewrite length_replicate; lia).
        rewrite length_replicate, Nat.sub_diag. exact Hv.
      - rewrite lookup_app_l by (rewrite length_replicate; lia).
        rewrite lookup_replicate_2 by lia. f_equal. ring. }
    exists ta0, ts0. rewrite Ha, Hs.
    split; [apply Hrep; [exact Hta | lia]|].
    split; [apply Hrep; [exact Hts | lia]|].
    split; intros i Hi; apply Hrep; assumption. }
  split; [|exact Hmain].
  intros Hge u H. destruct (Hmain u H) as [Hlt _]. lia.
Qed.

(** X12.  When GeometrySpline.solve_nonlinear returns, chord_sub is not
    empty, r_sub_precurve has one point fewer than chord_sub, with at
    least three chord points it starts at the radius of maximum chord,
    Rhub + bladeLength * r_max_chord, and ends at Rtip, and the presweep on
    the structural grid is zero at every station. *)
Theorem geometry_spline_precurve (spline : Type)
    (Akima : list R -> list R -> result spline)
    (interp : spline -> list R -> result (list R))
    (p : GeometrySpline.params) (u : GeometrySpline.unknowns) :
  GeometrySpline.solve_nonlinear spline Akima interp p = Ok u ->
  GeometrySpline.chord_sub p <> [] /\
  length (GeometrySpline.r_sub_precurve u) = (length (GeometrySpline.chord_sub p) - 1)%nat /\
  ((3 <= length (GeometrySpline.chord_sub p))%nat ->
   GeometrySpline.r_sub_precurve u !! 0%nat
     = Some (GeometrySpline.Rhub u
             + GeometrySpline.bladeLength p * GeometrySpline.r_max_chord p) /\
   last (GeometrySpline.r_sub_precurve u) = Some (GeometrySpline.Rtip u)) /\
  GeometrySpline.presweep_str u = replicate (length (GeometrySpline.precurve_str u)) 0.
Proof.
  intros H.
  destruct (geometry_spline_Ok _ _ _ _ _ H)
    as (k & x0 & toa & tos & ta0 & ts0 & Hk & _ & _ & _ & Hhub & Htip & _ & _ & _ & _ & Hps & Hsub).
  split; [intros E; rewrite E in Hk; discriminate|].
  rewrite Hsub, np_linspace_length, Hk.
  split; [lia|]. split; [|exact Hps].
  intros Hn. rewrite Hhub, Htip.
  set (Rhub := GeometrySpline.hubFraction p * GeometrySpline.bladeLength p) in *.
  set (L := GeometrySpline.bladeLength p) in *.
  split.
  - rewrite np_linspace_lookup by lia. f_equal. simpl. ring.
  - rewrite last_lookup, np_linspace_length.
    replace (Init.Nat.pred k) with (k - 1)%nat by lia.
    rewrite np_linspace_lookup by lia. f_equal.
    assert (Hk1 : INR (k - 1) <> 0) by (apply not_0_INR; lia).
    field. exact Hk1.
Qed.

Lemma geometry_spline_grids_witness :
  exists u,
    GeometrySpline.solve_nonlinear (list R) const_Akima const_interp
      nrel_like_params = Ok u /\
    length (GeometrySpline.r_str u) = 3%nat /\
    StronglySorted Rlt (GeometrySpline.r_str u).
Proof.
  eexists. split; [reflexivity|].
  destruct (geometry_spline_grids (list R) const_Akima const_interp
              nrel_like_params _ eq_refl) as (_ & _ & _ & Hlen & _ & Hsort);
    [simpl; lra|].
  split; [exact Hlen|]. apply Hsort. simpl.
  repeat constructor; lra.
Defined.

Lemma geometry_spline_twist_witness :
  exists u ta,
    GeometrySpline.solve_nonlinear (list R) const_Akima const_interp
      nrel_like_params = Ok u /\
    GeometrySpline.theta_aero u !! 0%nat = Some ta /\
    GeometrySpline.theta_aero u !! 1%nat = Some ta.
Proof.
  eexists.
  destruct (proj2 (geometry_spline_twist (list R) const_Akima const_interp
                     nrel_like_params) _ eq_refl)
    as (_ & ta & ts & _ & _ & Ha & _).
  exists ta. split; [reflexivity|].
  split; apply Ha; simpl; lia.
Defined.

Lemma geometry_spline_precurve_witness :
  exists u,
    GeometrySpline.solve_nonlinear (list R) const_Akima const_interp
      nrel_like_params = Ok u /\
    length (GeometrySpline.r_sub_precurve u) = 3%nat /\
    last (GeometrySpline.r_sub_precurve u) = Some (GeometrySpline.Rtip u).
Proof.
  eexists. split; [reflexivity|].
  destruct (geometry_spline_precurve (list R) const_Akima const_interp
              nrel_like_params _ eq_refl) as (_ & Hlen & Hends & _).
  split; [exact Hlen|]. apply Hends. simpl. lia.
Defined.

(** ** PreCompSections: panel buckling and the probe points *)

Lemma fdiv_any_zero (a : float) : fdiv a (fin 0) = None.
Proof.
  destruct a as [x|]; [|reflexivity]. unfold fdiv, fin.
  destruct (Req_dec_T 0 0); [reflexivity | contradiction].
Qed.

(** The value of one turn of the loop of panelBucklingStrain, once every
    index is in range. *)
Lemma eps_crit_at_run
    (compositeMatrices : CompositeSection -> nat -> result (matrix * matrix * matrix * R))
    (effectiveEAxial : CompositeSection -> nat -> result R)
    (chord : list R) (upperCS : list CompositeSection) (sector_idx_strain : list nat)
    (i idx : nat) (cs : CompositeSection) (c l0 l1 : R)
    (A B D : matrix) (totalHeight E D00 D11 D01 D22 : R) :
  chord !! i = Some c ->
  upperCS !! i = Some cs ->
  sector_idx_strain !! i = Some idx ->
  loc cs !! idx = Some l0 ->
  loc cs !! (idx + 1)%nat = Some l1 ->
  compositeMatrices cs idx = Ok (A, B, D, totalHeight) ->
  effectiveEAxial cs idx = Ok E ->
  index2 D 0 0 = Ok D00 -> index2 D 1 1 = Ok D11 ->
  index2 D 0 1 = Ok D01 -> index2 D 2 2 = Ok D22 ->
  PreCompSections.eps_crit_at compositeMatrices effectiveEAxial chord upperCS
    sector_idx_strain i
  = (s ← math_sqrt (D00 * D11);
     let q := (fin PI / fin (c * (l1 - l0)))%fl in
     Ok (- (fin 2 * (q * q) * fin (s + (D01 + 2 * D22))) / fin totalHeight / fin E)%fl).
Proof.
  intros Hc Hcs Hidx Hl0 Hl1 HM HE H00 H11 H01 H22.
  unfold PreCompSections.eps_crit_at.
  rewrite (index_lookup _ _ _ Hcs); cbn [mbind result_bind].
  rewrite (index_lookup _ _ _ Hidx); cbn [mbind result_bind].
  rewrite (index_lookup _ _ _ Hc); cbn [mbind result_bind].
  rewrite (index_lookup _ _ _ Hl1); cbn [mbind result_bind].
  rewrite (index_lookup _ _ _ Hl0); cbn [mbind result_bind].
  rewrite HM. cbn [mbind result_bind]. rewrite HE. cbn [mbind result_bind].
  rewrite H00. cbn [mbind result_bind]. rewrite H11. cbn [mbind result_bind].
  rewrite H01. cbn [mbind result_bind]. rewrite H22. cbn [mbind result_bind].
  reflexivity.
Qed.


(** X14.  The edge cases of one station of panelBucklingStrain, once its
    indices are in range: a negative product D1 D2 makes math.sqrt raise
    ValueError; with D1 D2 >= 0, a zero chord, a sector of zero width, a
    zero laminate height or a zero modulus gives a strain that is no
    number, without an exception; otherwise the strain is a number. *)
Theorem panel_buckling_edge
    (compositeMatrices : CompositeSection -> nat -> result (matrix * matrix * matrix * R))
    (effectiveEAxial : CompositeSection -> nat -> result R)
    (chord : list R) (upperCS : list CompositeSection) (sector_idx_strain : list nat)
    (i idx : nat) (cs : CompositeSection) (c l0 l1 : R)
    (A B D : matrix) (totalHeight E D00 D11 D01 D22 : R) :
  chord !! i = Some c ->
  upperCS !! i = Some cs ->
  sector_idx_strain !! i = Some idx ->
  loc cs !! idx = Some l0 ->
  loc cs !! (idx + 1)%nat = Some l1 ->
  compositeMatrices cs idx = Ok (A, B, D, totalHeight) ->
  effectiveEAxial cs idx = Ok E ->
  index2 D 0 0 = Ok D00 -> index2 D 1 1 = Ok D11 ->
  index2 D 0 1 = Ok D01 -> index2 D 2 2 = Ok D22 ->
  let at_i := PreCompSections.eps_crit_at compositeMatrices effectiveEAxial chord
                upperCS sector_idx_strain i in
  (D00 * D11 < 0 -> at_i = Raise ValueError) /\
  (0 <= D00 * D11 -> c = 0 \/ l0 = l1 \/ totalHeight = 0 \/ E = 0 -> at_i = Ok None) /\
  (0 <= D00 * D11 -> c <> 0 -> l0 <> l1 -> totalHeight <> 0 -> E <> 0 ->
   exists e, at_i = Ok (fin e)).
Proof.
  intros Hc Hcs Hidx Hl0 Hl1 HM HE H00 H11 H01 H22 at_i. unfold at_i.
  rewrite (eps_crit_at_run _ _ chord _ _ i idx cs c l0 l1 A B D totalHeight E
             D00 D11 D01 D22) by assumption.
  unfold math_sqrt.
  split; [|split].
  - intros Hn. destruct (Rle_dec 0 (D00 * D11)) as [H|_]; [lra | reflexivity].
  - intros Hs Hz. destruct (Rle_dec 0 (D00 * D11)) as [_|H]; [|contradiction].
    cbn [mbind result_bind]. f_equal.
    destruct (Req_dec_T (c * (l1 - l0)) 0) as [HL|HL].
    + rewrite HL, fdiv_zero. reflexivity.
    + rewrite (fdiv_fin _ _ HL).
      destruct Hz as [-> | [-> | [-> | ->]]]; try (exfalso; lra).
      * rewrite fdiv_any_zero. reflexivity.
      * apply fdiv_any_zero.
  - intros Hs Hc0 Hl HT HE0. destruct (Rle_dec 0 (D00 * D11)) as [_|H]; [|contradiction].
    cbn [mbind result_bind].
    assert (HL : c * (l1 - l0) <> 0).
    { intros E0. apply Rmult_integral in E0 as [?|?]; [contradiction|lra]. }
    rewrite (fdiv_fin _ _ HL). cbn [fmul fneg lift1 lift2 fin].
    change (Some ?x) with (fin x). rewrite !fdiv_fin by assumption.
    eexists. reflexivity.
Qed.


Lemma panel_buckling_edge_witness :
  PreCompSections.eps_crit_at matrices_ex E_ex [0] [lam_two] [0%nat] 0 = Ok None.
Proof.
  destruct (panel_buckling_edge matrices_ex E_ex [0] [lam_two] [0%nat]
              0 0 lam_two 0 0 0.5 D_ex D_ex D_ex 0.05 10 1 4 0.5 1)
    as (_ & H & _); try reflexivity.
  apply H; [lra | left; reflexivity].
Defined.

(** X15.  When criticalStrainLocations returns, the probe point of a
    station sits at the midpoint of the chosen sector: the returned yu is
    (loc[idx] + loc[idx+1]) / 2 * chord - x_ec_nose, strictly between the
    two sector edges for a positive chord and a sector of positive width,
    and the returned xu is the profile ordinate interpolated at that
    midpoint times the chord, minus y_ec_nose.  The two coordinates are
    returned swapped with respect to the names of the elastic-centre
    offsets, and upper and lower laminates with the same sector edges have
    the same yu and yl. *)
Theorem strain_locations_midpoint (Profile : Type)
    (pf_x pf_yu pf_yl : Profile -> list R)
    (np_interp : R -> list R -> list R -> result R)
    (chord : list R) (upperCS lowerCS : list CompositeSection)
    (profile : list Profile) (sector_idx_strain : list nat)
    (x_ec_nose y_ec_nose : list R) (xu xl yu yl : list R)
    (i idx : nat) (csU csL : CompositeSection) (pf : Profile)
    (c ex ey : R) :
  PreCompSections.criticalStrainLocations Profile pf_x pf_yu pf_yl np_interp
    chord upperCS lowerCS profile sector_idx_strain x_ec_nose y_ec_nose
  = Ok (xu, xl, yu, yl) ->
  sector_idx_strain !! i = Some idx ->
  upperCS !! i = Some csU -> lowerCS !! i = Some csL -> profile !! i = Some pf ->
  chord !! i = Some c -> x_ec_nose !! i = Some ex -> y_ec_nose !! i = Some ey ->
  exists u0 u1 l0 l1 yun yln,
    loc csU !! idx = Some u0 /\ loc csU !! (idx + 1)%nat = Some u1 /\
    loc csL !! idx = Some l0 /\ loc csL !! (idx + 1)%nat = Some l1 /\
    np_interp (0.5 * (u0 + u1)) (pf_x pf) (pf_yu pf) = Ok yun /\
    np_interp (0.5 * (l0 + l1)) (pf_x pf) (pf_yl pf) = Ok yln /\
    xu !! i = Some (yun * c - ey) /\
    xl !! i = Some (yln * c - ey) /\
    yu !! i = Some ((u0 + u1) / 2 * c - ex) /\
    yl !! i = Some ((l0 + l1) / 2 * c - ex) /\
    (0 < c -> u0 < u1 ->
     forall y, yu !! i = Some y -> u0 * c - ex < y < u1 * c - ex) /\
    (loc csU = loc csL -> yu !! i = yl !! i).
Proof.
  intros H Hidx HU HL Hpf Hc Hex Hey.
  unfold PreCompSections.criticalStrainLocations in H.
  destruct (mapM _ _) as [pts|] eqn:Hpts; cbn [mbind result_bind] in H; [|discriminate].
  injection H as <- <- <- <-.
  destruct (mapM_Ok_lookup _ _ _ i i Hpts) as (q & Hq & Hat).
  { apply lookup_seq. split; [reflexivity|]. eapply lookup_lt_Some, Hidx. }
  unfold PreCompSections.strain_location_at in Hat.
  rewrite (index_lookup _ _ _ HU) in Hat; cbn [mbind result_bind] in Hat.
  rewrite (index_lookup _ _ _ HL) in Hat; cbn [mbind result_bind] in Hat.
  rewrite (index_lookup _ _ _ Hpf) in Hat; cbn [mbind result_bind] in Hat.
  rewrite (index_lookup _ _ _ Hidx) in Hat; cbn [mbind result_bind] in Hat.
  destruct (index (loc csU) idx) as [u0|] eqn:Hu0; cbn [mbind result_bind] in Hat; [|discriminate].
  destruct (index (loc csU) (idx + 1)) as [u1|] eqn:Hu1; cbn [mbind result_bind] in Hat; [|discriminate].
  destruct (index (loc csL) idx) as [l0|] eqn:Hl0; cbn [mbind result_bind] in Hat; [|discriminate].
  destruct (index (loc csL) (idx + 1)) as [l1|] eqn:Hl1; cbn [mbind result_bind] in Hat; [|discriminate].
  destruct (np_interp (0.5 * (u0 + u1)) _ _) as [yun|] eqn:Hyu; cbn [mbind result_bind] in Hat; [|discriminate].
  destruct (np_interp (0.5 * (l0 + l1)) _ _) as [yln|] eqn:Hyl; cbn [mbind result_bind] in Hat; [|discriminate].
  injection Hat as <-.
  apply index_Ok in Hu0, Hu1, Hl0, Hl1.
  exists u0, u1, l0, l1, yun, yln.
  do 6 (split; [assumption|]).
  assert (Hget : forall (g : R * R * R * R -> R) (e : list R) (x : R),
            e !! i = Some x ->
            zip_with Rminus (zip_with Rmult (g <$> pts) chord) e !! i
            = Some (g (0.5 * (u0 + u1), 0.5 * (l0 + l1), yun, yln) * c - x)).
  { intros g e x Hx. rewrite !lookup_zip_with, list_lookup_fmap, Hq. simpl.
    rewrite Hc. simpl. rewrite Hx. reflexivity. }
  rewrite (Hget (fun q => q.1.2) _ _ Hey), (Hget (fun q => q.2) _ _ Hey),
          (Hget (fun q => q.1.1.1) _ _ Hex), (Hget (fun q => q.1.1.2) _ _ Hex).
  cbn [fst snd].
  split; [reflexivity|]. split; [reflexivity|].
  split; [f_equal; lra|]. split; [f_equal; lra|].
  split.
  - intros Hcp Hw y Hy. injection Hy as <-. nra.
  - intros Hloc. rewrite Hloc in Hu0, Hu1.
    assert (u0 = l0) by congruence. assert (u1 = l1) by congruence. subst.
    reflexivity.
Qed.

Lemma strain_locations_midpoint_witness :
  exists xu xl yu yl,
    PreCompSections.criticalStrainLocations unit flat_x flat_y flat_y interp_zero
      [2] [lam_two] [lam_two] [tt] [0%nat] [0.1] [0.2] = Ok (xu, xl, yu, yl) /\
    yu !! 0%nat = Some ((0 + 0.5) / 2 * 2 - 0.1) /\
    xu !! 0%nat = Some (0 * 2 - 0.2).
Proof.
  eexists _, _, _, _. split; [reflexivity|].
  destruct (strain_locations_midpoint unit flat_x flat_y flat_y interp_zero
              [2] [lam_two] [lam_two] [tt] [0%nat] [0.1] [0.2] _ _ _ _
              0 0 lam_two lam_two tt 2 0.1 0.2 eq_refl eq_refl eq_refl eq_refl
              eq_refl eq_refl eq_refl eq_refl)
    as (u0 & u1 & l0 & l1 & yun & yln & Hu0 & Hu1 & _ & _ & Hyu & _ & Hxu & _
        & Hyv & _).
  injection Hu0 as <-. injection Hu1 as <-. injection Hyu as <-.
  split; [exact Hyv | exact Hxu].
Defined.

(** ** RotorWithpBEAM: principal axes, strain and damage *)

Lemma np_tan_PI4 : np_tan (fin (PI / 4)) = fin 1.
Proof.
  unfold np_tan, fin. rewrite cos_PI4.
  assert (0 < sqrt 2) by (apply sqrt_lt_R0; lra).
  destruct (Req_dec_T (1 / sqrt 2) 0) as [E|_].
  - exfalso. assert (0 < 1 / sqrt 2) by (apply Rdiv_lt_0_compat; lra). lra.
  - rewrite tan_PI4. reflexivity.
Qed.

Lemma np_tan_neg_PI4 : np_tan (fin (- (PI / 4))) = fin (- 1).
Proof.
  unfold np_tan, fin. rewrite cos_neg, cos_PI4.
  assert (0 < sqrt 2) by (apply sqrt_lt_R0; lra).
  destruct (Req_dec_T (1 / sqrt 2) 0) as [E|_].
  - exfalso. assert (0 < 1 / sqrt 2) by (apply Rdiv_lt_0_compat; lra). lra.
  - rewrite tan_neg, tan_PI4. reflexivity.
Qed.

Lemma np_tan_0 : np_tan (fin 0) = fin 0.
Proof.
  unfold np_tan, fin. rewrite cos_0.
  destruct (Req_dec_T 1 0) as [E|_]; [lra|]. rewrite tan_0. reflexivity.
Qed.



Lemma zip_replicate_fdiv (z : float) (EA : array) :
  adiv (replicate (length EA) z) EA = sdiv z EA.
Proof.
  unfold adiv, sdiv. induction EA as [|a EA IH]; [reflexivity|].
  simpl. f_equal. exact IH.
Qed.

(** [damage] is the logarithmic damage of the strains of [strain] under
    the same moments and no axial force. *)
Lemma damage_log_strain (np_power : float -> R -> float)
    (Vx Vy Tz Mx My xu yu xl yl EI11 EI22 EA ca sa : array) (emax eta m N : R) :
  0 < N -> 0 < emax -> 0 < eta ->
  RotorWithpBEAM.damage np_power Mx My xu yu xl yl EI11 EI22 EA ca sa emax eta m N
  = Ok (log_damage N m emax eta <$>
          (RotorWithpBEAM.strain (Vx, Vy, replicate (length EA) (fin 0), Mx, My, Tz)
             xu yu xl yl EI11 EI22 EA ca sa).1,
        log_damage N m emax eta <$>
          (RotorWithpBEAM.strain (Vx, Vy, replicate (length EA) (fin 0), Mx, My, Tz)
             xu yu xl yl EI11 EI22 EA ca sa).2).
Proof.
  intros HN He Heta.
  unfold RotorWithpBEAM.strain, RotorWithpBEAM.damage, RotorWithpBEAM.damage_body.
  rewrite !(math_log_pos N), !(math_log_pos emax), !(math_log_pos eta) by assumption.
  cbn [mbind result_bind RotorWithpBEAM.damageU RotorWithpBEAM.damageL fst snd].
  unfold RotorWithpBEAM.probe_strain.
  rewrite zip_replicate_fdiv.
  replace 0.0 with 0 by lra.
  unfold ssub, smul, log_damage. rewrite <- !list_fmap_compose.
  reflexivity.
Qed.

(** X17.  damage composes with strain: for positive N, emax and eta, the
    damage arrays are the logarithmic damage ln N - m (ln emax - ln eta -
    ln |strain|), taken element by element, of the two strain arrays that
    strain gives for the same moments and a zero axial force.  The shear
    forces and the torsion of the loads play no part. *)
Theorem damage_of_strain (np_power : float -> R -> float)
    (Vx Vy Tz Mx My xu yu xl yl EI11 EI22 EA ca sa : array) (emax eta m N : R) :
  0 < N -> 0 < emax -> 0 < eta ->
  let '(sU, sL) :=
    RotorWithpBEAM.strain (Vx, Vy, replicate (length EA) (fin 0), Mx, My, Tz)
      xu yu xl yl EI11 EI22 EA ca sa in
  RotorWithpBEAM.damage np_power Mx My xu yu xl yl EI11 EI22 EA ca sa emax eta m N
  = Ok (log_damage N m emax eta <$> sU, log_damage N m emax eta <$> sL).
Proof.
  intros HN He Heta.
  rewrite (damage_log_strain np_power Vx Vy Tz Mx My xu yu xl yl EI11 EI22 EA
             ca sa emax eta m N HN He Heta).
  destruct (RotorWithpBEAM.strain _ _ _ _ _ _ _ _ _ _) as [sU sL]. reflexivity.
Qed.

Lemma damage_of_strain_witness :
  RotorWithpBEAM.damage (fun _ _ => None)
    [fin 0] [fin 3] [fin 1] [fin 0] [fin (-1)] [fin 0]
    [fin 1] [fin 1] [fin 1] [fin 1] [fin 0] 0.01 1.755 10 630720000
  = Ok (log_damage 630720000 10 0.01 1.755 <$>
          (RotorWithpBEAM.strain ([], [], [fin 0], [fin 0], [fin 3], [])
             [fin 1] [fin 0] [fin (-1)] [fin 0] [fin 1] [fin 1] [fin 1]
             [fin 1] [fin 0]).1,
        log_damage 630720000 10 0.01 1.755 <$>
          (RotorWithpBEAM.strain ([], [], [fin 0], [fin 0], [fin 3], [])
             [fin 1] [fin 0] [fin (-1)] [fin 0] [fin 1] [fin 1] [fin 1]
             [fin 1] [fin 0]).2).
Proof.
  exact (damage_of_strain (fun _ _ => None) [] [] []
           [fin 0] [fin 3] [fin 1] [fin 0] [fin (-1)] [fin 0]
           [fin 1] [fin 1] [fin 1] [fin 1] [fin 0] 0.01 1.755 10 630720000
           ltac:(lra) ltac:(lra) ltac:(lra)).
Defined.

Lemma strain_lookup (Vx Vy Fz Mx My Tz xu yu xl yl EI11 EI22 EA ca sa : array)
    (i : nat) (fz mx my xu_i yu_i xl_i yl_i ei11 ei22 ea c s : R) :
  Fz !! i = Some (fin fz) -> Mx !! i = Some (fin mx) -> My !! i = Some (fin my) ->
  xu !! i = Some (fin xu_i) -> yu !! i = Some (fin yu_i) ->
  xl !! i = Some (fin xl_i) -> yl !! i = Some (fin yl_i) ->
  EI11 !! i = Some (fin ei11) -> EI22 !! i = Some (fin ei22) ->
  EA !! i = Some (fin ea) ->
  ca !! i = Some (fin c) -> sa !! i = Some (fin s) ->
  ei11 <> 0 -> ei22 <> 0 -> ea <> 0 ->
  let '(sU, sL) :=
    RotorWithpBEAM.strain (Vx, Vy, Fz, Mx, My, Tz) xu yu xl yl EI11 EI22 EA ca sa in
  sU !! i = Some (fin (strain_at fz mx my xu_i yu_i ei11 ei22 ea c s)) /\
  sL !! i = Some (fin (strain_at fz mx my xl_i yl_i ei11 ei22 ea c s)).
Proof.
  intros HFz HMx HMy Hxu Hyu Hxl Hyl H11 H22 HEA Hca Hsa N11 N22 NEA.
  unfold RotorWithpBEAM.strain, aneg, aadd, asub, amul, adiv.
  split.
  - rewrite !list_lookup_fmap, !lookup_zip_with, !list_lookup_fmap.
    rewrite HFz, HMx, HMy, Hxu, Hyu, H11, H22, HEA, Hca, Hsa.
    cbn [mbind option_bind fmap option_fmap option_map].
    cbn [fmul fadd fsub fneg lift1 lift2 fin fdiv].
    destruct (Req_dec_T ei11 0) as [?|_]; [contradiction|].
    destruct (Req_dec_T ei22 0) as [?|_]; [contradiction|].
    destruct (Req_dec_T ea 0) as [?|_]; [contradiction|].
    reflexivity.
  - rewrite !list_lookup_fmap, !lookup_zip_with, !list_lookup_fmap.
    rewrite HFz, HMx, HMy, Hxl, Hyl, H11, H22, HEA, Hca, Hsa.
    cbn [mbind option_bind fmap option_fmap option_map].
    cbn [fmul fadd fsub fneg lift1 lift2 fin fdiv].
    destruct (Req_dec_T ei11 0) as [?|_]; [contradiction|].
    destruct (Req_dec_T ei22 0) as [?|_]; [contradiction|].
    destruct (Req_dec_T ea 0) as [?|_]; [contradiction|].
    reflexivity.
Qed.

Lemma log_damage_zero (N m emax eta : R) : log_damage N m emax eta (fin 0) = None.
Proof.
  unfold log_damage, fabs, lift1, fin, np_log. rewrite Rabs_R0.
  destruct (Rlt_dec 0 0) as [H|_]; [lra|]. reflexivity.
Qed.



(** X19.  strain is linear in the loads: at a station with finite, non-zero
    stiffnesses, the strains under the loads a L1 + b L2 (axial force and
    the two bending moments combined with the weights a and b) are a times
    the strains under L1 plus b times the strains under L2, at the upper
    and at the lower probe point. *)
Theorem strain_superposition
    (Vx1 Vy1 Fz1 Mx1 My1 Tz1 Vx2 Vy2 Fz2 Mx2 My2 Tz2 Vx3 Vy3 Fz3 Mx3 My3 Tz3 : array)
    (xu yu xl yl EI11 EI22 EA ca sa : array) (i : nat) (a b : R)
    (fz1 mx1 my1 fz2 mx2 my2 xu_i yu_i xl_i yl_i ei11 ei22 ea c s : R) :
  Fz1 !! i = Some (fin fz1) -> Mx1 !! i = Some (fin mx1) ->
  My1 !! i = Some (fin my1) ->
  Fz2 !! i = Some (fin fz2) -> Mx2 !! i = Some (fin mx2) ->
  My2 !! i = Some (fin my2) ->
  Fz3 !! i = Some (fin (a * fz1 + b * fz2)) ->
  Mx3 !! i = Some (fin (a * mx1 + b * mx2)) ->
  My3 !! i = Some (fin (a * my1 + b * my2)) ->
  xu !! i = Some (fin xu_i) -> yu !! i = Some (fin yu_i) ->
  xl !! i = Some (fin xl_i) -> yl !! i = Some (fin yl_i) ->
  EI11 !! i = Some (fin ei11) -> EI22 !! i = Some (fin ei22) ->
  EA !! i = Some (fin ea) ->
  ca !! i = Some (fin c) -> sa !! i = Some (fin s) ->
  ei11 <> 0 -> ei22 <> 0 -> ea <> 0 ->
  let s1 := RotorWithpBEAM.strain (Vx1, Vy1, Fz1, Mx1, My1, Tz1)
              xu yu xl yl EI11 EI22 EA ca sa in
  let s2 := RotorWithpBEAM.strain (Vx2, Vy2, Fz2, Mx2, My2, Tz2)
              xu yu xl yl EI11 EI22 EA ca sa in
  let s3 := RotorWithpBEAM.strain (Vx3, Vy3, Fz3, Mx3, My3, Tz3)
              xu yu xl yl EI11 EI22 EA ca sa in
  exists u1 l1 u2 l2,
    s1.1 !! i = Some (fin u1) /\ s1.2 !! i = Some (fin l1) /\
    s2.1 !! i = Some (fin u2) /\ s2.2 !! i = Some (fin l2) /\
    s3.1 !! i = Some (fin (a * u1 + b * u2)) /\
    s3.2 !! i = Some (fin (a * l1 + b * l2)).
Proof.
  intros HF1 HM1 HY1 HF2 HM2 HY2 HF3 HM3 HY3 Hxu Hyu Hxl Hyl H11 H22 HEA Hca Hsa
    N11 N22 NEA s1 s2 s3.
  pose proof (strain_lookup Vx1 Vy1 Fz1 Mx1 My1 Tz1 xu yu xl yl EI11 EI22 EA ca sa i
                _ _ _ _ _ _ _ _ _ _ _ _ HF1 HM1 HY1 Hxu Hyu Hxl Hyl H11 H22 HEA Hca Hsa
                N11 N22 NEA) as S1.
  pose proof (strain_lookup Vx2 Vy2 Fz2 Mx2 My2 Tz2 xu yu xl yl EI11 EI22 EA ca sa i
                _ _ _ _ _ _ _ _ _ _ _ _ HF2 HM2 HY2 Hxu Hyu Hxl Hyl H11 H22 HEA Hca Hsa
                N11 N22 NEA) as S2.
  pose proof (strain_lookup Vx3 Vy3 Fz3 Mx3 My3 Tz3 xu yu xl yl EI11 EI22 EA ca sa i
                _ _ _ _ _ _ _ _ _ _ _ _ HF3 HM3 HY3 Hxu Hyu Hxl Hyl H11 H22 HEA Hca Hsa
                N11 N22 NEA) as S3.
  fold s1 in S1. fold s2 in S2. fold s3 in S3.
  destruct s1 as [sU1 sL1], s2 as [sU2 sL2], s3 as [sU3 sL3].
  destruct S1 as [S1u S1l], S2 as [S2u S2l], S3 as [S3u S3l]. cbn [fst snd].
  do 4 eexists.
  do 4 (split; [eassumption|]).
  rewrite S3u, S3l. unfold strain_at, fin.
  split; do 2 f_equal; field; repeat split; assumption.
Qed.

Lemma strain_superposition_witness :
  exists u1 u2,
    (RotorWithpBEAM.strain ([], [], [fin 1], [fin 2], [fin 3], [])
       [fin 1] [fin 0] [fin (-1)] [fin 0] [fin 1] [fin 1] [fin 1]
       [fin 1] [fin 0]).1 !! 0%nat = Some (fin u1) /\
    (RotorWithpBEAM.strain ([], [], [fin 0], [fin 1], [fin 1], [])
       [fin 1] [fin 0] [fin (-1)] [fin 0] [fin 1] [fin 1] [fin 1]
       [fin 1] [fin 0]).1 !! 0%nat = Some (fin u2) /\
    (RotorWithpBEAM.strain
       ([], [], [fin (2 * 1 + 3 * 0)], [fin (2 * 2 + 3 * 1)],
        [fin (2 * 3 + 3 * 1)], [])
       [fin 1] [fin 0] [fin (-1)] [fin 0] [fin 1] [fin 1] [fin 1]
       [fin 1] [fin 0]).1 !! 0%nat = Some (fin (2 * u1 + 3 * u2)).
Proof.
  destruct (strain_superposition [] [] [fin 1] [fin 2] [fin 3] []
              [] [] [fin 0] [fin 1] [fin 1] []
              [] [] [fin (2 * 1 + 3 * 0)] [fin (2 * 2 + 3 * 1)]
              [fin (2 * 3 + 3 * 1)] []
              [fin 1] [fin 0] [fin (-1)] [fin 0] [fin 1] [fin 1] [fin 1]
              [fin 1] [fin 0] 0 2 3 1 2 3 0 1 1 1 0 (-1) 0 1 1 1 1 0
              eq_refl eq_refl eq_refl eq_refl eq_refl eq_refl eq_refl eq_refl
              eq_refl eq_refl eq_refl eq_refl eq_refl eq_refl eq_refl eq_refl
              eq_refl eq_refl ltac:(lra) ltac:(lra) ltac:(lra))
    as (u1 & l1 & u2 & l2 & H1 & _ & H2 & _ & H3 & _).
  exists u1, u2. auto.
Defined.

(** X20.  With equal principal stiffnesses EI11 = EI22 = EI the strain does
    not depend on the principal-axis angle: for any unit vector (ca, sa)
    the strain at a probe point (x, y) is
    - ((My x - Mx y) / EI + Fz / EA). *)
Theorem strain_isotropic
    (Vx Vy Fz Mx My Tz : array)
    (xu yu xl yl EI11 EI22 EA ca sa : array) (i : nat)
    (fz mx my xu_i yu_i xl_i yl_i ei ea c s : R) :
  Fz !! i = Some (fin fz) -> Mx !! i = Some (fin mx) ->
  My !! i = Some (fin my) ->
  xu !! i = Some (fin xu_i) -> yu !! i = Some (fin yu_i) ->
  xl !! i = Some (fin xl_i) -> yl !! i = Some (fin yl_i) ->
  EI11 !! i = Some (fin ei) -> EI22 !! i = Some (fin ei) ->
  EA !! i = Some (fin ea) ->
  ca !! i = Some (fin c) -> sa !! i = Some (fin s) ->
  ei <> 0 -> ea <> 0 -> c ^ 2 + s ^ 2 = 1 ->
  (RotorWithpBEAM.strain (Vx, Vy, Fz, Mx, My, Tz) xu yu xl yl EI11 EI22 EA ca sa).1 !! i
    = Some (fin (- ((my * xu_i - mx * yu_i) / ei + fz / ea))) /\
  (RotorWithpBEAM.strain (Vx, Vy, Fz, Mx, My, Tz) xu yu xl yl EI11 EI22 EA ca sa).2 !! i
    = Some (fin (- ((my * xl_i - mx * yl_i) / ei + fz / ea))).
Proof.
  intros HF HM HY Hxu Hyu Hxl Hyl H11 H22 HEA Hca Hsa Nei NEA Hcs.
  pose proof (strain_lookup Vx Vy Fz Mx My Tz xu yu xl yl EI11 EI22 EA ca sa i
                _ _ _ _ _ _ _ _ _ _ _ _ HF HM HY Hxu Hyu Hxl Hyl H11 H22 HEA Hca Hsa
                Nei Nei NEA) as S1.
  destruct (RotorWithpBEAM.strain _ _ _ _ _ _ _ _ _ _) as [sU sL].
  destruct S1 as [Su Sl]. cbn [fst snd]. rewrite Su, Sl.
  unfold strain_at, fin.
  assert (Hid : forall x0 y0,
            (my * c + mx * s) / ei * (- y0 * s + x0 * c)
            - (- my * s + mx * c) / ei * (y0 * c + x0 * s)
            = (my * x0 - mx * y0) / ei * (c ^ 2 + s ^ 2)).
  { intros x0 y0. field. exact Nei. }
  split; do 2 f_equal; rewrite Hid, Hcs; field; split; assumption.
Qed.

Lemma strain_isotropic_witness :
  (RotorWithpBEAM.strain ([], [], [fin 1], [fin 2], [fin 3], [])
     [fin 1] [fin 0] [fin (-1)] [fin 0] [fin 1] [fin 1] [fin 1]
     [fin 0] [fin 1]).1 !! 0%nat
  = Some (fin (- ((3 * 1 - 2 * 0) / 1 + 1 / 1))).
Proof.
  apply (strain_isotropic [] [] [fin 1] [fin 2] [fin 3] []
           [fin 1] [fin 0] [fin (-1)] [fin 0] [fin 1] [fin 1] [fin 1]
           [fin 0] [fin 1] 0 1 2 3 1 0 (-1) 0 1 1 0 1
           eq_refl eq_refl eq_refl eq_refl eq_refl eq_refl eq_refl eq_refl
           eq_refl eq_refl eq_refl eq_refl ltac:(lra) ltac:(lra) ltac:(lra)).
Defined.

(** ** ResizeCompositeSection: the webs and the lower surface *)

(** The third loop writes the upper and the lower laminate of its station
    only. *)
Lemma writes_target_surfaces (p : params) (out : unknowns) (k : nat) :
  writes (fun a => upperCSOut out !! k = Some a \/ lowerCSOut out !! k = Some a)
    (target_station p out k).
Proof.
  unfold target_station.
  apply writes_lift_bind. intros idx_spar _.
  apply writes_lift_bind. intros idx_te _.
  apply writes_lift_bind. intros upper Hu. apply index_Ok in Hu.
  apply writes_lift_bind. intros lower Hl. apply index_Ok in Hl.
  apply writes_bind; [apply writes_deref|]. intros ucs.
  apply writes_lift_bind. intros t_spar _.
  apply writes_lift_bind. intros t_te _.
  apply writes_lift_bind. intros sp _.
  apply writes_bind.
  { eapply writes_weaken; [|apply writes_scale_sector]. intros a <-. left. exact Hu. }
  intros _. apply writes_bind.
  { eapply writes_weaken; [|apply writes_scale_sector]. intros a <-. right. exact Hl. }
  intros _. apply writes_lift_bind. intros te _.
  apply writes_bind.
  { eapply writes_weaken; [|apply writes_scale_sector]. intros a <-. left. exact Hu. }
  intros _.
  eapply writes_weaken; [|apply writes_scale_sector]. intros a <-. right. exact Hl.
Qed.

Lemma separate_webs (out : unknowns) (i k : nat) (a b : addr) :
  separate out -> websCSOut out !! i = Some a ->
  (upperCSOut out !! k = Some b \/ lowerCSOut out !! k = Some b) -> a <> b.
Proof.
  unfold separate. rewrite !NoDup_app. intros (_ & Hul & _ & Hlw & _) Ha [Hb|Hb] ->.
  - apply (Hul b); [eapply list_elem_of_lookup_2, Hb|].
    rewrite elem_of_app. right. eapply list_elem_of_lookup_2, Ha.
  - apply (Hlw b); eapply list_elem_of_lookup_2; eassumption.
Qed.

Lemma separate_webs_station (out : unknowns) (i k : nat) (a : addr) :
  separate out -> websCSOut out !! i = Some a -> k <> i ->
  ~ station_objects out k a.
Proof.
  intros Hsep Ha Hk [H|[H|H]].
  - eapply (separate_webs out i k a a); eauto.
  - eapply (separate_webs out i k a a); eauto.
  - apply Hk. unfold separate in Hsep. rewrite !NoDup_app in Hsep.
    destruct Hsep as (_ & _ & _ & _ & Hw). eapply NoDup_lookup; eauto.
Qed.

Lemma separate_lower_station (out : unknowns) (i k : nat) (a : addr) :
  separate out -> lowerCSOut out !! i = Some a -> k <> i ->
  ~ station_objects out k a.
Proof.
  unfold separate. rewrite !NoDup_app. intros (_ & Hul & Hl & Hlw & _) Ha Hk [H|[H|H]].
  - apply (Hul a); [eapply list_elem_of_lookup_2, H|].
    rewrite elem_of_app. left. eapply list_elem_of_lookup_2, Ha.
  - apply Hk. eapply NoDup_lookup; eauto.
  - apply (Hlw a); eapply list_elem_of_lookup_2; eassumption.
Qed.

Lemma separate_lower_webs (out : unknowns) (i k : nat) (a b : addr) :
  separate out -> lowerCSOut out !! i = Some a -> websCSOut out !! k = Some b ->
  a <> b.
Proof.
  unfold separate. rewrite !NoDup_app. intros (_ & _ & _ & Hlw & _) Ha Hb ->.
  apply (Hlw b); eapply list_elem_of_lookup_2; eassumption.
Qed.

(** The turn of one station in the second loop, seen from the web and from
    the lower laminate. *)
Lemma scale_station_webs (p : params) (out : unknowns) (i : nat) (h : heap)
    (x : unit) (h' : heap) (a : addr) (cs : CompositeSection) :
  separate out -> websCSOut out !! i = Some a -> h !! a = Some cs ->
  scale_station p out i h = Ok (x, h') ->
  exists c cref,
    chord_str p !! i = Some c /\ chord_str_ref p !! i = Some cref /\
    h' !! a = Some (scale_cs (fin c / fin cref)%fl cs).
Proof.
  intros Hsep Ha Hcs H. unfold scale_station in H. run_inv H.
  apply lift_Ok in Hrun as [Hu ->]. apply index_Ok in Hu.
  apply lift_Ok in Hrun0 as [Hl ->]. apply index_Ok in Hl.
  apply lift_Ok in Hrun1 as [Hw ->]. apply index_Ok in Hw.
  apply lift_Ok in Hrun2 as [Hc ->]. apply index_Ok in Hc.
  apply lift_Ok in Hrun3 as [Hcref ->]. apply index_Ok in Hcref.
  assert (x2 = a) by congruence. subst x2.
  exists x3, x4. split; [exact Hc|]. split; [exact Hcref|].
  assert (Hcs2 : h6 !! a = Some cs).
  { rewrite (writes_scale_all _ _ _ _ _ Hrun5 a)
      by (intros E; apply (separate_webs out i i a x1 Hsep Ha); [right; exact Hl | symmetry; exact E]).
    rewrite (writes_scale_all _ _ _ _ _ Hrun4 a)
      by (intros E; apply (separate_webs out i i a x0 Hsep Ha); [left; exact Hu | symmetry; exact E]).
    exact Hcs. }
  rewrite (scale_all_run _ _ _ _ Hcs2) in H. injection H as _ <-.
  apply lookup_insert_eq.
Qed.

Lemma scale_station_lower (p : params) (out : unknowns) (i : nat) (h : heap)
    (x : unit) (h' : heap) (a : addr) (cs : CompositeSection) :
  separate out -> lowerCSOut out !! i = Some a -> h !! a = Some cs ->
  scale_station p out i h = Ok (x, h') ->
  exists c cref,
    chord_str p !! i = Some c /\ chord_str_ref p !! i = Some cref /\
    h' !! a = Some (scale_cs (fin c / fin cref)%fl cs).
Proof.
  intros Hsep Ha Hcs H. unfold scale_station in H. run_inv H.
  apply lift_Ok in Hrun as [Hu ->]. apply index_Ok in Hu.
  apply lift_Ok in Hrun0 as [Hl ->]. apply index_Ok in Hl.
  apply lift_Ok in Hrun1 as [Hw ->]. apply index_Ok in Hw.
  apply lift_Ok in Hrun2 as [Hc ->]. apply index_Ok in Hc.
  apply lift_Ok in Hrun3 as [Hcref ->]. apply index_Ok in Hcref.
  assert (x1 = a) by congruence. subst x1.
  exists x3, x4. split; [exact Hc|]. split; [exact Hcref|].
  assert (Hcs2 : h5 !! a = Some cs).
  { rewrite (writes_scale_all _ _ _ _ _ Hrun4 a)
      by (intros E; apply (separate_upper_lower out i i x0 a Hsep Hu Ha); exact E).
    exact Hcs. }
  rewrite (scale_all_run _ _ _ _ Hcs2) in Hrun5. injection Hrun5 as _ <-.
  rewrite (writes_scale_all _ _ _ _ _ H a)
    by (intros E; apply (separate_lower_webs out i i a x2 Hsep Ha Hw); symmetry; exact E).
  apply lookup_insert_eq.
Qed.

Lemma target_station_lower (p : params) (out : unknowns) (i : nat) (h : heap)
    (x : unit) (h' : heap) (a b : addr) (ucs cs : CompositeSection) :
  separate out -> upperCSOut out !! i = Some a -> lowerCSOut out !! i = Some b ->
  h !! a = Some ucs -> h !! b = Some cs ->
  target_station p out i h = Ok (x, h') ->
  exists sp te js jt,
    sparT_str p !! i = Some sp /\ teT_str p !! i = Some te /\
    sector_idx_strain_spar p !! i = Some js /\
    sector_idx_strain_te p !! i = Some jt /\
    is_Some (t ucs !! js) /\ is_Some (t ucs !! jt) /\
    is_Some (t cs !! js) /\ is_Some (t cs !! jt) /\
    h' !! b = Some (target_lower sp te js jt ucs cs).
Proof.
  intros Hsep Ha Hb Hucs Hcs H. unfold target_station in H. run_inv H.
  apply lift_Ok in Hrun as [Hjs ->]. apply index_Ok in Hjs.
  apply lift_Ok in Hrun0 as [Hjt ->]. apply index_Ok in Hjt.
  apply lift_Ok in Hrun1 as [Hu ->]. apply index_Ok in Hu.
  apply lift_Ok in Hrun2 as [Hl ->]. apply index_Ok in Hl.
  apply deref_Ok in Hrun3 as [Hucs' ->].
  apply lift_Ok in Hrun4 as [Htsp ->]. apply index_Ok in Htsp.
  apply lift_Ok in Hrun5 as [Htte ->]. apply index_Ok in Htte.
  apply lift_Ok in Hrun6 as [Hsp ->]. apply index_Ok in Hsp.
  apply lift_Ok in Hrun9 as [Hte ->]. apply index_Ok in Hte.
  assert (x2 = a) by congruence. subst x2.
  assert (x3 = b) by congruence. subst x3.
  assert (x4 = ucs) by congruence. subst x4.
  assert (Hne : a <> b) by (eapply separate_upper_lower; eauto).
  exists x7, x10, x0, x1.
  do 4 (split; [assumption|]). split; [eauto|]. split; [eauto|].
  apply scale_sector_Ok in Hrun7 as (cs1 & Hcs1 & _ & ->).
  apply scale_sector_Ok in Hrun8 as (cs2 & Hcs2 & Hs2 & ->).
  apply scale_sector_Ok in Hrun10 as (cs3 & Hcs3 & _ & ->).
  apply scale_sector_Ok in H as (cs4 & Hcs4 & Hs4 & ->).
  rewrite lookup_insert_ne in Hcs2 by exact Hne.
  assert (cs2 = cs) by congruence. subst cs2.
  rewrite lookup_insert_ne in Hcs4 by exact Hne.
  rewrite lookup_insert_eq in Hcs4. injection Hcs4 as <-.
  rewrite lookup_insert_eq.
  split; [exact Hs2|].
  split.
  { unfold scale_sector_cs in Hs4. destruct Hs2 as [tj Htj]. rewrite Htj in Hs4.
    cbn [t set_t] in Hs4. destruct Hs4 as [tk Htk].
    apply lookup_lt_Some in Htk. rewrite length_insert in Htk.
    apply lookup_lt_is_Some_2. exact Htk. }
  unfold target_lower. rewrite Htsp, Htte. reflexivity.
Qed.

(** The web and the lower laminate of station [i] in the store that
    [solve_nonlinear] returns. *)
Lemma solve_webs (p : params) (h : heap) (u : unknowns) (h' : heap)
    (i : nat) (win : addr) (cs : CompositeSection) :
  solve_nonlinear p h = Ok (u, h') ->
  (i < length (chord_str_ref p))%nat ->
  websCSIn p !! i = Some win -> h !! win = Some cs ->
  exists a c cref,
    websCSOut u !! i = Some a /\ h !! a = None /\
    chord_str p !! i = Some c /\ chord_str_ref p !! i = Some cref /\
    h' !! a = Some (scale_cs (fin c / fin cref)%fl cs).
Proof.
  intros H Hi Hwin Hcs. unfold solve_nonlinear in H.
  apply bind_Ok in H as ([[us ls] ws] & h1 & Hcopy & H).
  set (out := {| upperCSOut := us; lowerCSOut := ls; websCSOut := ws |}) in *.
  apply bind_Ok in H as ([] & h2 & Hscale & H).
  apply bind_Ok in H as ([] & h3 & Htarget & H).
  injection H as <- <-.
  destruct (copy_loop_Ok _ _ _ _ _ _ _ Hcopy)
    as (Hlu & Hll & Hlw & Hsub & Hfresh & Hnd & Hk).
  destruct (Hk i i) as (uin & lin & win' & u' & l' & a & _ & _ & Hw1 & _ & _ & Ha & _ & _ & Hcw).
  { apply lookup_seq. split; [reflexivity | exact Hi]. }
  assert (win' = win) by congruence. subst win'.
  assert (Hsep : separate out) by exact Hnd.
  assert (Hmine : forall k, k <> i -> ~ station_objects out k a).
  { intros k Hk'. apply (separate_webs_station out i k a Hsep Ha Hk'). }
  destruct (for_each_station _ _ _ i _ _ _ (writes_scale_station p out) Hi Hscale)
    as (ha & hb & Hbody2 & Hfr2).
  destruct (Hfr2 a Hmine) as [Hha Hh2].
  destruct (scale_station_webs p out i ha () hb a cs Hsep Ha) as (c & cref & Hc & Hcref & Hhb);
    [rewrite Hha; apply Hcw, Hcs | exact Hbody2 |].
  exists a, c, cref.
  split; [exact Ha|]. split.
  { apply Hfresh. rewrite !elem_of_app. right. right. eapply list_elem_of_lookup_2, Ha. }
  do 2 (split; [assumption|]).
  rewrite <- Hhb, <- Hh2.
  refine (writes_for_each
            (fun b => exists k, upperCSOut out !! k = Some b \/ lowerCSOut out !! k = Some b)
            _ _ _ h2 () h3 Htarget a _).
  - intros k _. eapply writes_weaken; [|apply writes_target_surfaces].
    intros b Hb. exists k. exact Hb.
  - intros (k & Hb). eapply (separate_webs out i k a a); eauto.
Qed.

Lemma solve_lower (p : params) (h : heap) (u : unknowns) (h' : heap)
    (i : nat) (uin lin : addr) (ucs cs : CompositeSection) :
  solve_nonlinear p h = Ok (u, h') ->
  (i < length (chord_str_ref p))%nat ->
  upperCSIn p !! i = Some uin -> h !! uin = Some ucs ->
  lowerCSIn p !! i = Some lin -> h !! lin = Some cs ->
  exists b c cref sp te js jt,
    lowerCSOut u !! i = Some b /\ h !! b = None /\
    chord_str p !! i = Some c /\ chord_str_ref p !! i = Some cref /\
    sparT_str p !! i = Some sp /\ teT_str p !! i = Some te /\
    sector_idx_strain_spar p !! i = Some js /\
    sector_idx_strain_te p !! i = Some jt /\
    h' !! b = Some (target_lower sp te js jt
                      (scale_cs (fin c / fin cref)%fl ucs)
                      (scale_cs (fin c / fin cref)%fl cs)).
Proof.
  intros H Hi Huin Hucs Hlin Hcs. unfold solve_nonlinear in H.
  apply bind_Ok in H as ([[us ls] ws] & h1 & Hcopy & H).
  set (out := {| upperCSOut := us; lowerCSOut := ls; websCSOut := ws |}) in *.
  apply bind_Ok in H as ([] & h2 & Hscale & H).
  apply bind_Ok in H as ([] & h3 & Htarget & H).
  injection H as <- <-.
  destruct (copy_loop_Ok _ _ _ _ _ _ _ Hcopy)
    as (Hlu & Hll & Hlw & Hsub & Hfresh & Hnd & Hk).
  destruct (Hk i i) as (uin' & lin' & win & a & b & w' & Hu1 & Hl1 & _ & Ha & Hb & _ & Hcu & Hcl & _).
  { apply lookup_seq. split; [reflexivity | exact Hi]. }
  assert (uin' = uin) by congruence. subst uin'.
  assert (lin' = lin) by congruence. subst lin'.
  assert (Hsep : separate out) by exact Hnd.
  assert (Hmine_a : forall k, k <> i -> ~ station_objects out k a).
  { intros k Hk'. apply (separate_upper out i k a Hsep Ha Hk'). }
  assert (Hmine_b : forall k, k <> i -> ~ station_objects out k b).
  { intros k Hk'. apply (separate_lower_station out i k b Hsep Hb Hk'). }
  destruct (for_each_station _ _ _ i _ _ _ (writes_scale_station p out) Hi Hscale)
    as (ha & hb & Hbody2 & Hfr2).
  destruct (Hfr2 a Hmine_a) as [Hha_a Hh2_a].
  destruct (Hfr2 b Hmine_b) as [Hha_b Hh2_b].
  destruct (scale_station_upper p out i ha () hb a ucs Hsep Ha)
    as (c & cref & Hc & Hcref & Hhb_a);
    [rewrite Hha_a; apply Hcu, Hucs | exact Hbody2 |].
  destruct (scale_station_lower p out i ha () hb b cs Hsep Hb)
    as (c' & cref' & Hc' & Hcref' & Hhb_b);
    [rewrite Hha_b; apply Hcl, Hcs | exact Hbody2 |].
  assert (c' = c) by congruence. assert (cref' = cref) by congruence. subst c' cref'.
  destruct (for_each_station _ _ _ i _ _ _ (writes_target_station p out) Hi Htarget)
    as (hc & hd & Hbody3 & Hfr3).
  destruct (Hfr3 a Hmine_a) as [Hhc_a Hh3_a].
  destruct (Hfr3 b Hmine_b) as [Hhc_b Hh3_b].
  destruct (target_station_lower p out i hc () hd a b
              (scale_cs (fin c / fin cref)%fl ucs) (scale_cs (fin c / fin cref)%fl cs)
              Hsep Ha Hb)
    as (sp & te & js & jt & Hsp & Hte & Hjs & Hjt & _ & _ & _ & _ & Hhd);
    [rewrite Hhc_a, Hh2_a; exact Hhb_a | rewrite Hhc_b, Hh2_b; exact Hhb_b
     | exact Hbody3 |].
  exists b, c, cref, sp, te, js, jt.
  split; [exact Hb|]. split.
  { apply Hfresh. rewrite !elem_of_app. right. left. eapply list_elem_of_lookup_2, Hb. }
  do 6 (split; [assumption|]).
  rewrite Hh3_b. exact Hhd.
Qed.


(** X22.  The lower surface is rescaled with the sums of the upper surface:
    for positive chords, distinct spar-cap and trailing-edge sectors and
    non-zero sums of the upper input sectors, the lower spar-cap plies of
    the output are the input plies times sparT / (sum of the upper input
    sector), so their sum is sparT * (lower sum / upper sum), which is the
    target only when both surfaces have the same sector sum; likewise for
    the trailing edge, and every other lower sector is scaled with the
    chord ratio. *)
Theorem resize_lower (p : params) (h : heap)
    (i : nat) (uin lin : addr) (ucs lcs : CompositeSection)
    (c cref sp te : R) (js jt : nat) (xs ys xs' ys' : list R) :
  chord_str_ref p !! i = Some cref -> 0 < cref ->
  chord_str p !! i = Some c -> 0 < c ->
  sparT_str p !! i = Some sp ->
  teT_str p !! i = Some te ->
  sector_idx_strain_spar p !! i = Some js ->
  sector_idx_strain_te p !! i = Some jt ->
  js <> jt ->
  upperCSIn p !! i = Some uin -> h !! uin = Some ucs ->
  lowerCSIn p !! i = Some lin -> h !! lin = Some lcs ->
  t ucs !! js = Some (fin <$> xs) -> Rsum xs <> 0 ->
  t ucs !! jt = Some (fin <$> ys) -> Rsum ys <> 0 ->
  t lcs !! js = Some (fin <$> xs') ->
  t lcs !! jt = Some (fin <$> ys') ->
  forall u h', solve_nonlinear p h = Ok (u, h') ->
  exists b cs',
    lowerCSOut u !! i = Some b /\ h' !! b = Some cs' /\
    t cs' !! js = Some (fin <$> ((fun x => x * (sp / Rsum xs)) <$> xs')) /\
    t cs' !! jt = Some (fin <$> ((fun y => y * (te / Rsum ys)) <$> ys')) /\
    np_sum <$> t cs' !! js = Some (fin (sp * (Rsum xs' / Rsum xs))) /\
    np_sum <$> t cs' !! jt = Some (fin (te * (Rsum ys' / Rsum ys))) /\
    forall j tj, j <> js -> j <> jt -> t lcs !! j = Some tj ->
      t cs' !! j = Some (amuls tj (fin (c / cref))).
Proof.
  intros Hcref Hcrefp Hc Hcp Hsp Hte Hjs Hjt Hne Huin Hucs Hlin Hlcs
    Hxs HSx Hys HSy Hxs' Hys' u h' H.
  destruct (solve_lower p h u h' i uin lin ucs lcs H) as
    (b & c' & cref' & sp' & te' & js' & jt' & Hb & _ & Hc' & Hcref' & Hsp' & Hte'
       & Hjs' & Hjt' & Hfinal);
    [eapply lookup_lt_Some, Hcref | assumption..|].
  assert (c' = c) by congruence. assert (cref' = cref) by congruence.
  assert (sp' = sp) by congruence. assert (te' = te) by congruence.
  assert (js' = js) by congruence. assert (jt' = jt) by congruence. subst.
  clear Hc' Hcref' Hsp' Hte' Hjs' Hjt'.
  rewrite fdiv_fin in Hfinal by lra.
  set (f := c / cref) in *.
  assert (Hf : 0 < f) by (apply Rdiv_lt_0_compat; assumption).
  set (u2 := scale_cs (fin f) ucs) in *.
  set (l2 := scale_cs (fin f) lcs) in *.
  assert (Hu2 : forall j zs, t ucs !! j = Some (fin <$> zs) ->
            t u2 !! j = Some (fin <$> ((fun x => x * f) <$> zs))).
  { intros j zs Hj. unfold u2, scale_cs. simpl. rewrite list_lookup_fmap, Hj.
    simpl. rewrite amuls_fin. reflexivity. }
  assert (Hl2 : forall j tj, t lcs !! j = Some tj -> t l2 !! j = Some (amuls tj (fin f))).
  { intros j tj Hj. unfold l2, scale_cs. simpl. rewrite list_lookup_fmap, Hj. reflexivity. }
  assert (L2s : t l2 !! js = Some (fin <$> ((fun x => x * f) <$> xs'))).
  { rewrite (Hl2 _ _ Hxs'), amuls_fin. reflexivity. }
  assert (L2t : t l2 !! jt = Some (fin <$> ((fun x => x * f) <$> ys'))).
  { rewrite (Hl2 _ _ Hys'), amuls_fin. reflexivity. }
  unfold target_lower in Hfinal. rewrite (Hu2 _ _ Hxs), (Hu2 _ _ Hys) in Hfinal.
  rewrite !np_sum_fin, !Rsum_scale in Hfinal.
  assert (HSxf : Rsum xs * f <> 0) by (apply Rmult_integral_contrapositive; split; lra).
  assert (HSyf : Rsum ys * f <> 0) by (apply Rmult_integral_contrapositive; split; lra).
  rewrite !fdiv_fin in Hfinal by assumption.
  unfold scale_sector_cs at 2 in Hfinal. rewrite L2s in Hfinal.
  unfold scale_sector_cs in Hfinal. cbn [t set_t] in Hfinal.
  rewrite list_lookup_insert_ne in Hfinal by exact Hne.
  rewrite L2t in Hfinal. rewrite !amuls_fin in Hfinal.
  assert (Hljs : (js < length (t l2))%nat) by (eapply lookup_lt_Some, L2s).
  assert (Hljt : (jt < length (t l2))%nat) by (eapply lookup_lt_Some, L2t).
  assert (Ex : (fun x => x * (sp / (Rsum xs * f))) <$> ((fun x => x * f) <$> xs')
               = (fun x => x * (sp / Rsum xs)) <$> xs').
  { rewrite <- list_fmap_compose. apply list_fmap_ext. intros _ x _. simpl.
    field. split; lra. }
  assert (Ey : (fun y => y * (te / (Rsum ys * f))) <$> ((fun y => y * f) <$> ys')
               = (fun y => y * (te / Rsum ys)) <$> ys').
  { rewrite <- list_fmap_compose. apply list_fmap_ext. intros _ y _. simpl.
    field. split; lra. }
  rewrite Ex, Ey in Hfinal.
  eexists b, _. split; [exact Hb|]. split; [exact Hfinal|]. cbn [t set_t].
  rewrite list_lookup_insert_ne by (intros E; apply Hne; symmetry; exact E).
  rewrite list_lookup_insert_eq by exact Hljs.
  rewrite list_lookup_insert_eq by (rewrite length_insert; exact Hljt).
  split; [reflexivity|]. split; [reflexivity|].
  split; [|split].
  - cbn. rewrite np_sum_fin, Rsum_scale. unfold fin. do 2 f_equal. field. lra.
  - cbn. rewrite np_sum_fin, Rsum_scale. unfold fin. do 2 f_equal. field. lra.
  - intros j tj Hj1 Hj2 Hj.
    rewrite list_lookup_insert_ne by (intros E; apply Hj2; symmetry; exact E).
    rewrite list_lookup_insert_ne by (intros E; apply Hj1; symmetry; exact E).
    apply Hl2, Hj.
Qed.


Lemma resize_lower_witness :
  exists u h' b cs',
    solve_nonlinear p_two (store_of lam_two) = Ok (u, h') /\
    lowerCSOut u !! 0%nat = Some b /\ h' !! b = Some cs' /\
    np_sum <$> t cs' !! 0%nat = Some (fin (4 * (Rsum [1; 1] / Rsum [1; 1]))).
Proof.
  destruct (resize_returns p_two (store_of lam_two) well_formed_p_two)
    as (u & h' & H).
  destruct (resize_lower p_two (store_of lam_two) 0 0 1 lam_two lam_two
              2 1 4 3 0 1 [1; 1] [2] [1; 1] [2])
    with (u := u) (h' := h')
    as (b & cs' & Hb & Hcs' & _ & _ & Hs & _);
    try reflexivity; try (simpl; lra); try discriminate; try exact H.
  exists u, h', b, cs'. auto.
Defined.

(** ** DamageLoads and CurveFEM: the radii on the unit interval *)

Lemma index_last_Ok {A : Type} (l : list A) (a : A) :
  last l = Some a -> index_last l = Ok a.
Proof. intros H. unfold index_last. rewrite H. reflexivity. Qed.

Lemma rstar_str_run (r : list R) (r0 rn : R) :
  head r = Some r0 -> last r = Some rn ->
  DamageLoads.rstar_str r = Ok ((fun x => (fin (x - r0) / fin (rn - r0))%fl) <$> r).
Proof.
  intros H0 Hn. unfold DamageLoads.rstar_str.
  assert (H0' : r !! 0%nat = Some r0) by (rewrite <- head_lookup; exact H0).
  rewrite (index_lookup _ _ _ H0'). cbn [mbind result_bind].
  rewrite (index_last_Ok _ _ Hn). cbn [mbind result_bind]. reflexivity.
Qed.

Lemma sorted_first_last (r : list R) (r0 rn : R) :
  StronglySorted Rlt r -> head r = Some r0 -> last r = Some rn ->
  (2 <= length r)%nat -> r0 < rn.
Proof.
  intros Hs H0 Hn Hlen.
  rewrite head_lookup in H0. rewrite last_lookup in Hn.
  apply (StronglySorted_lookup_lt Rlt r 0 (Init.Nat.pred (length r)) r0 rn Hs);
    [lia | exact H0 | exact Hn].
Qed.

Lemma normalised_unit (r : list R) (r0 rn : R) :
  head r = Some r0 -> last r = Some rn -> rn <> r0 ->
  exists us,
    (fun x => (fin (x - r0) / fin (rn - r0))%fl) <$> r = fin <$> us /\
    length us = length r /\ head us = Some 0 /\ last us = Some 1 /\
    (StronglySorted Rlt r ->
     StronglySorted Rlt us /\ Forall (fun u => 0 <= u <= 1) us).
Proof.
  intros H0 Hn Hne. assert (Hw : rn - r0 <> 0) by lra.
  exists ((fun x => (x - r0) / (rn - r0)) <$> r).
  split.
  { rewrite <- list_fmap_compose. apply list_fmap_ext.
    intros _ x _. simpl. apply fdiv_fin, Hw. }
  split; [apply length_fmap|].
  split.
  { destruct r as [|x r]; [discriminate|]. injection H0 as ->. simpl.
    f_equal. unfold Rdiv. ring. }
  split.
  { rewrite fmap_last, Hn. simpl. f_equal. field. exact Hw. }
  intros Hs.
  assert (Hlt : r0 < rn).
  { destruct (decide (2 <= length r)%nat) as [H2|H2].
    - apply (sorted_first_last r r0 rn Hs H0 Hn H2).
    - exfalso. destruct r as [|x [|y r]]; simpl in *; [discriminate| |lia].
      injection H0 as ->. injection Hn as ->. contradiction. }
  assert (Hinv : 0 < / (rn - r0)) by (apply Rinv_0_lt_compat; lra).
  split.
  + clear H0 Hn. induction Hs as [|a l Hs IH Hall]; [constructor|].
    rewrite fmap_cons. constructor; [exact IH|].
    rewrite Forall_fmap. eapply Forall_impl; [exact Hall|]. simpl.
    intros x Hx. unfold Rdiv. apply Rmult_lt_compat_r; lra.
  + rewrite Forall_fmap, Forall_forall. intros x Hx. simpl.
    apply list_elem_of_lookup in Hx as [k Hk].
    assert (r0 <= x).
    { destruct k as [|k].
      - rewrite head_lookup in H0. assert (x = r0) by congruence. lra.
      - left. rewrite head_lookup in H0.
        apply (StronglySorted_lookup_lt Rlt r 0 (S k) r0 x Hs); [lia|assumption..]. }
    assert (x <= rn).
    { rewrite last_lookup in Hn.
      destruct (decide (k = Init.Nat.pred (length r))) as [->|Hk'].
      - assert (x = rn) by congruence. lra.
      - left. apply lookup_lt_Some in Hk as Hlk.
        apply (StronglySorted_lookup_lt Rlt r k (Init.Nat.pred (length r)) x rn Hs);
          [lia|assumption..]. }
    split.
    * apply Rmult_le_pos; lra.
    * apply Rmult_le_reg_r with (rn - r0); [lra|].
      unfold Rdiv. rewrite Rmult_assoc, Rinv_l by exact Hw. lra.
Qed.

(** X23.  The normalised radii of DamageLoads.solve_nonlinear,
    (r - r[0]) / (r[-1] - r[0]): an empty r raises IndexError; when the
    last radius equals the first (one station, for instance) every entry
    is no number, without an exception; otherwise the entries are numbers,
    as many as radii, the first is 0 and the last is 1, and for strictly
    increasing radii they are strictly increasing within [0, 1]. *)
Theorem damage_loads_rstar (r : list R) :
  (r = [] -> DamageLoads.rstar_str r = Raise IndexError) /\
  forall r0 rn, head r = Some r0 -> last r = Some rn ->
    (rn = r0 -> DamageLoads.rstar_str r = Ok (replicate (length r) None)) /\
    (rn <> r0 ->
     exists us,
       DamageLoads.rstar_str r = Ok (fin <$> us) /\
       length us = length r /\ head us = Some 0 /\ last us = Some 1 /\
       (StronglySorted Rlt r ->
        StronglySorted Rlt us /\ Forall (fun u => 0 <= u <= 1) us)).
Proof.
  split; [intros ->; reflexivity|].
  intros r0 rn H0 Hn. rewrite (rstar_str_run r r0 rn H0 Hn).
  split.
  - intros ->. f_equal. replace (r0 - r0) with 0 by lra.
    clear. induction r as [|x r IH]; [reflexivity|].
    rewrite fmap_cons, fdiv_zero. cbn [length replicate]. f_equal. exact IH.
  - intros Hne.
    destruct (normalised_unit r r0 rn H0 Hn Hne) as (us & Hus & Hrest).
    exists us. rewrite Hus. split; [reflexivity | exact Hrest].
Qed.

(** X24.  When CurveFEM.solve_nonlinear returns, the frequency solver was
    called with the blade length beam_z[-1] - beam_z[0], the hub radius
    beam_z[0] and the same normalised radii as DamageLoads computes; the
    output holds the first nF frequencies of the solver, fewer when the
    solver gives fewer.  For at least two strictly increasing stations the
    blade length is positive and the blade fractions run strictly
    increasing from 0 to 1. *)
Theorem curvefem_blade_fraction
    (frequencies : R -> R -> R -> array -> list R -> list R -> list R -> list R ->
                   list R -> list R -> list R -> list R -> list R -> result (list R))
    (p : CurveFEM.params) (freq : list R) :
  CurveFEM.solve_nonlinear frequencies p = Ok freq ->
  exists rhub rtip bladeFrac all,
    head (CurveFEM.beam_z p) = Some rhub /\ last (CurveFEM.beam_z p) = Some rtip /\
    DamageLoads.rstar_str (CurveFEM.beam_z p) = Ok bladeFrac /\
    frequencies (CurveFEM.Omega p) (rtip - rhub) rhub bladeFrac (CurveFEM.theta_str p)
      (CurveFEM.beam_rhoA p) (CurveFEM.beam_EIxx p) (CurveFEM.beam_EIyy p)
      (CurveFEM.beam_GJ p) (CurveFEM.beam_EA p) (CurveFEM.beam_rhoJ p)
      (CurveFEM.precurve_str p) (CurveFEM.presweep_str p) = Ok all /\
    freq = take (CurveFEM.nF p) all /\
    (length freq <= CurveFEM.nF p)%nat /\
    (StronglySorted Rlt (CurveFEM.beam_z p) -> (2 <= length (CurveFEM.beam_z p))%nat ->
     0 < rtip - rhub /\
     exists us, bladeFrac = fin <$> us /\ head us = Some 0 /\ last us = Some 1 /\
                StronglySorted Rlt us).
Proof.
  unfold CurveFEM.solve_nonlinear. intros H.
  destruct (index (CurveFEM.beam_z p) 0) as [rhub|] eqn:H0;
    cbn [mbind result_bind] in H; [|discriminate].
  destruct (index_last (CurveFEM.beam_z p)) as [rtip|] eqn:Hn;
    cbn [mbind result_bind] in H; [|discriminate].
  destruct (frequencies _ _ _ _ _ _ _ _ _ _ _ _ _) as [all|] eqn:Hf;
    cbn [mbind result_bind] in H; [|discriminate].
  injection H as <-.
  apply index_Ok in H0. rewrite <- head_lookup in H0.
  unfold index_last in Hn. destruct (last (CurveFEM.beam_z p)) as [x|] eqn:Hl; [|discriminate].
  injection Hn as ->.
  exists rhub, rtip, ((fun x => (fin (x - rhub) / fin (rtip - rhub))%fl) <$> CurveFEM.beam_z p), all.
  split; [exact H0|]. split; [reflexivity|].
  split; [apply rstar_str_run; assumption|].
  split; [exact Hf|]. split; [reflexivity|].
  split; [rewrite length_take; lia|].
  intros Hs H2.
  pose proof (sorted_first_last _ _ _ Hs H0 Hl H2) as Hlt.
  split; [lra|].
  destruct (normalised_unit (CurveFEM.beam_z p) rhub rtip H0 Hl ltac:(lra))
    as (us & Hus & _ & Hh & Hla & Hsorted).
  exists us.
  split; [exact Hus|]. split; [exact Hh|]. split; [exact Hla|].
  apply Hsorted, Hs.
Qed.

Lemma damage_loads_rstar_witness :
  exists us,
    DamageLoads.rstar_str [1.5; 30; 63] = Ok (fin <$> us) /\
    head us = Some 0 /\ last us = Some 1.
Proof.
  destruct (proj2 (damage_loads_rstar [1.5; 30; 63]) 1.5 63 eq_refl eq_refl)
    as [_ H].
  destruct H as (us & Hus & _ & Hh & Hl & _); [lra|].
  exists us. auto.
Defined.

Lemma curvefem_blade_fraction_witness :
  exists rhub rtip bladeFrac,
    CurveFEM.solve_nonlinear six_frequencies p_curvefem = Ok [1; 2; 3; 4; 5] /\
    head (CurveFEM.beam_z p_curvefem) = Some rhub /\
    last (CurveFEM.beam_z p_curvefem) = Some rtip /\
    DamageLoads.rstar_str (CurveFEM.beam_z p_curvefem) = Ok bladeFrac /\
    0 < rtip - rhub.
Proof.
  destruct (curvefem_blade_fraction six_frequencies p_curvefem [1; 2; 3; 4; 5]
              eq_refl)
    as (rhub & rtip & bladeFrac & all & Hh & Hl & Hr & _ & _ & _ & Hs).
  exists rhub, rtip, bladeFrac.
  split; [reflexivity|]. split; [exact Hh|]. split; [exact Hl|].
  split; [exact Hr|].
  apply Hs; [|simpl; lia]. simpl. repeat constructor; lra.
Defined.

(** ** BladeDeflection: the change of the blade length *)

Lemma np_diff_cons (x y : R) (l : list R) :
  np_diff (x :: y :: l) = (y - x) :: np_diff (y :: l).
Proof.
  unfold np_diff. cbn [length drop]. rewrite !Nat.sub_succ, !Nat.sub_0_r.
  reflexivity.
Qed.

Lemma np_diff_shift (a : list R) (d : R) :
  np_diff ((fun x => x + d) <$> a) = np_diff a.
Proof.
  induction a as [|x [|y a] IH]; [reflexivity | reflexivity |].
  rewrite !fmap_cons in *. rewrite !np_diff_cons, IH. f_equal. ring.
Qed.

Lemma zip_replicate_shift (a : list R) (d : R) :
  zip_with Rplus a (replicate (length a) d) = (fun x => x + d) <$> a.
Proof. induction a as [|x a IH]; [reflexivity|]. simpl. f_equal. exact IH. Qed.

Lemma np_diff_length (a : list R) : length (np_diff a) = (length a - 1)%nat.
Proof.
  unfold np_diff. rewrite length_zip_with, length_drop, length_take. lia.
Qed.

Lemma path_length_segments (Rhub0 : R) (precurve r : list R) :
  BladeDeflection.path_length Rhub0 precurve r
  = Rhub0 + Rsum (segments (np_diff precurve) (np_diff r)).
Proof. reflexivity. Qed.

Lemma segments_cons (x y : R) (dp dr : list R) :
  Rsum (segments (x :: dp) (y :: dr)) = sqrt (x ^ 2 + y ^ 2) + Rsum (segments dp dr).
Proof. reflexivity. Qed.

Lemma segments_nonneg (dp dr : list R) : 0 <= Rsum (segments dp dr).
Proof.
  revert dr. induction dp as [|x dp IH]; intros [|y dr];
    try (unfold segments; simpl; lra).
  rewrite segments_cons.
  pose proof (sqrt_pos (x ^ 2 + y ^ 2)). specialize (IH dr). lra.
Qed.

Lemma segments_mono (dp dp' dr : list R) :
  Forall2 (fun a b => Rabs a <= Rabs b) dp dp' ->
  Rsum (segments dp dr) <= Rsum (segments dp' dr).
Proof.
  intros H. revert dr. induction H as [|a b dp dp' Hab _ IH]; intros [|y dr];
    try (unfold segments; simpl; lra).
  rewrite !segments_cons. specialize (IH dr).
  assert (sqrt (a ^ 2 + y ^ 2) <= sqrt (b ^ 2 + y ^ 2)).
  { apply sqrt_le_1_alt.
    assert (a * a <= b * b).
    { apply Rsqr_le_abs_1 in Hab. unfold Rsqr in Hab. exact Hab. }
    lra. }
  lra.
Qed.

Lemma blade_deflection_run
    (airfoilToBlade : list R -> list R -> list R -> list R ->
                      result (list R * list R * list R))
    (interp_with_deriv : list R -> list R -> list R -> result (list R))
    (p : BladeDeflection.params) (u : BladeDeflection.unknowns) :
  BladeDeflection.solve_nonlinear airfoilToBlade interp_with_deriv p = Ok u ->
  exists delta_x delta_y delta_z,
    airfoilToBlade (BladeDeflection.dx p) (BladeDeflection.dy p) (BladeDeflection.dz p)
      ((fun th => th + BladeDeflection.pitch p) <$> BladeDeflection.theta_str p)
    = Ok (delta_x, delta_y, delta_z) /\
    interp_with_deriv (BladeDeflection.r_sub_precurve0 p) (BladeDeflection.r_str0 p)
      delta_x = Ok (BladeDeflection.delta_precurve_sub u) /\
    BladeDeflection.delta_bladeLength u
    = (fin (BladeDeflection.bladeLength0 p)
       * (fin (BladeDeflection.path_length (BladeDeflection.Rhub0 p)
                 (BladeDeflection.precurve_str0 p) (BladeDeflection.r_str0 p))
          / fin (BladeDeflection.path_length (BladeDeflection.Rhub0 p)
                   (zip_with Rplus (BladeDeflection.precurve_str0 p) delta_x)
                   (BladeDeflection.r_str0 p))
          - fin 1))%fl.
Proof.
  unfold BladeDeflection.solve_nonlinear. intros H.
  destruct (airfoilToBlade _ _ _ _) as [[[delta_x delta_y] delta_z]|] eqn:Hd;
    cbn [mbind result_bind] in H; [|discriminate].
  destruct (interp_with_deriv _ _ _) as [sub|] eqn:Hi;
    cbn [mbind result_bind] in H; [|discriminate].
  injection H as <-. exists delta_x, delta_y, delta_z.
  split; [reflexivity|]. split; [exact Hi|]. reflexivity.
Qed.






Lemma gust_linearize_exact_witness :
  exists s,
    GustETM.solve_nonlinear 10 12 "A" 3 = Ok s /\
    forall d,
      GustETM.V_gust <$> GustETM.solve_nonlinear (10 + d) 12 "A" 3
      = Ok (GustETM.V_gust s
            + GustETM.dV_gust_dV_mean (GustETM.linearize s 10 12 3) * d).
Proof.
  eexists. split; [reflexivity|].
  destruct (proj2 (gust_linearize_exact 10 12 3 "A") _ eq_refl) as (_ & H & _).
  exact H.
Defined.
